(** * roam-yts: timestamps, the augmentation pass and the mutation watcher

    A shallow embedding of [src/index.ts] and the properties of its
    specification.

    Conventions of the embedding.
    - A JavaScript string is the list of its UTF-16 code units ([str]).
    - A JavaScript number is a double.  The doubles of integer value
      are modelled by [Z], and each operation rounds its exact result
      to the nearest double, as the code does: it is exact below 2^53
      and not beyond.  [None] in a numeric result stands for a value
      that the model does not follow (NaN, an infinity).
    - The address that the browser resolves a src attribute to, and the
      answers of the graph, are parameters.
    - The document is the forest of the child nodes of its root element;
      a node is addressed by its path of child indices. *)

From Stdlib Require Import String Ascii ZArith NArith Arith Bool Lia List.
Import ListNotations.


(* ================================================================== *)
(** ** Strings *)

Definition str := list N.

(** The code units of an ASCII literal. *)
Definition u (s : string) : str :=
  map N_of_ascii (list_ascii_of_string s).

Definition colon : N := 58.
Definition star : N := 42.
Definition zero_char : N := 48.
Definition minus_char : N := 45.

(** [\d] of a regular expression without the unicode flag: 0-9. *)
Definition is_digit (c : N) : bool := (48 <=? c)%N && (c <=? 57)%N.

(** [\s]: the WhiteSpace and LineTerminator code units of ECMAScript. *)
Definition is_space (c : N) : bool :=
  existsb (N.eqb c)
    [9; 10; 11; 12; 13; 32; 160; 5760; 8232; 8233; 8239; 8287; 12288; 65279]%N
  || ((8192 <=? c)%N && (c <=? 8202)%N).

Definition str_eqb (a b : str) : bool :=
  if list_eq_dec N.eq_dec a b then true else false.

(** [s.split(sep)] for a one-unit separator: never returns the empty array. *)
Fixpoint split (sep : N) (s : str) : list str :=
  match s with
  | [] => [[]]
  | c :: s' =>
      if N.eqb c sep then [] :: split sep s'
      else match split sep s' with
           | p :: ps => (c :: p) :: ps
           | [] => [[c]]
           end
  end.

(** [s.startsWith(t)] and [s.indexOf(t, from)]. *)
Fixpoint starts_with (t s : str) : bool :=
  match t, s with
  | [], _ => true
  | a :: t', b :: s' => N.eqb a b && starts_with t' s'
  | _ :: _, [] => false
  end.

Fixpoint index_from (t s : str) (pos : nat) : option nat :=
  if starts_with t s then Some pos
  else match s with
       | [] => None
       | _ :: s' => index_from t s' (S pos)
       end.

Definition indexOf (s t : str) (from : nat) : option nat :=
  if length s <? from then index_from t [] (length s)
  else index_from t (skipn from s) from.

Definition includes (s t : str) : bool :=
  match indexOf s t 0 with Some _ => true | None => false end.

(* ================================================================== *)
(** ** Numbers and their decimal form

    A number of the code is a double.  The model follows the doubles
    whose value is an integer: an integer [z] stands for the double of
    value [z], and a result [Some z] is the finite double of value [z].
    A result [None] is a value that the model does not follow: NaN, an
    infinity, or the number of a string that is not a run of digits;
    arithmetic on it gives [None].  The operations round as the doubles
    do: to the nearest double, a tie to the even significand. *)

Definition digit_value (c : N) : Z := Z.of_N c - 48.
Definition digit_char (d : Z) : N := Z.to_N (48 + d).

(** The value of a run of decimal digits. *)
Definition decimal (s : str) : Z :=
  fold_left (fun a c => 10 * a + digit_value c)%Z s 0%Z.

(** The integer nearest to [n / d], the even one when two are as near;
    [0 <= n] and [0 < d]. *)
Definition nearest (n d : Z) : Z :=
  let q := (n / d)%Z in
  let r := (n mod d)%Z in
  if (2 * r <? d)%Z then q
  else if (d <? 2 * r)%Z then (q + 1)%Z
  else if Z.even q then q else (q + 1)%Z.

(** The double nearest to the integer [n]: a significand of 53 bits,
    ties to the even significand.  The integers below 2^53 in absolute
    value are doubles. *)
Definition round53 (n : Z) : Z :=
  let a := Z.abs n in
  if (a <? 2 ^ 53)%Z then n
  else
    let e := (Z.log2 a - 52)%Z in
    (Z.sgn n * (nearest a (2 ^ e) * 2 ^ e))%Z.

(** The result of an operation whose exact value is the integer [n]:
    the nearest double, which is an infinity from 2^1024 on. *)
Definition double (n : Z) : option Z :=
  let r := round53 n in
  if (Z.abs r <? 2 ^ 1024)%Z then Some r else None.

(** The blanks that the conversion of a string to a number strips. *)
Fixpoint trimStart (s : str) : str :=
  match s with
  | c :: s' => if is_space c then trimStart s' else s
  | [] => []
  end.

Definition trim (s : str) : str := rev (trimStart (rev (trimStart s))).

(** [Number(s)]: the blanks at both ends are stripped; a run of digits
    (the empty run is 0) gives the double nearest to its value; any
    other string is not followed (the code has NaN for it, or the number
    of a literal with a sign, a fraction, an exponent or a radix). *)
Definition Number (s : str) : option Z :=
  let t := trim s in
  if forallb is_digit t then double (decimal t) else None.

Fixpoint digits_fuel (fuel : nat) (n : Z) : str :=
  match fuel with
  | O => []
  | S f =>
      if (n <? 10)%Z then [digit_char n]
      else digits_fuel f (n / 10)%Z ++ [digit_char (n mod 10)%Z]
  end.

(** The decimal digits of a number [n >= 0], most significant first. *)
Definition digits (n : Z) : str := digits_fuel (S (Z.to_nat (Z.log2 n))) n.

(** The shortest decimal form of a double [x >= 2^53]: the digits [s],
    as few as can be, and the power of ten [n] such that [s] times ten
    to the [n] less the number of digits of [s] is a number whose
    nearest double is [x]; of two such [s], the nearer.  [nd] is the
    number of digits of [x]. *)
Definition candidate (x nd k : Z) : option Z :=
  let p := (10 ^ (nd - k))%Z in
  let lo := (x / p)%Z in
  let hi := (lo + 1)%Z in
  let ok_lo := (round53 (lo * p) =? x)%Z in
  let ok_hi := (hi <? 10 ^ k)%Z && (round53 (hi * p) =? x)%Z in
  match ok_lo, ok_hi with
  | true, true =>
      let below := (x - lo * p)%Z in
      let above := (hi * p - x)%Z in
      if (below <? above)%Z then Some lo
      else if (above <? below)%Z then Some hi
      else if Z.even lo then Some lo else Some hi
  | true, false => Some lo
  | false, true => Some hi
  | false, false => None
  end.

Fixpoint shortest_from (fuel : nat) (x nd k : Z) : Z * Z :=
  match fuel with
  | O => (x, nd)
  | S f =>
      match candidate x nd k with
      | Some s => (s, k)
      | None => shortest_from f x nd (k + 1)%Z
      end
  end.

(** The digits [s], their number [k] and the power [n]. *)
Definition shortest (x : Z) : Z * Z * Z :=
  let nd := Z.of_nat (length (digits x)) in
  if (round53 (10 ^ nd) =? x)%Z then (1, 1, nd + 1)%Z
  else let (s, k) := shortest_from 17 x nd 1 in (s, k, nd).

(** [String(num)] for a double of integer value: all its digits below
    2^53, where every integer is a double; from there on the digits of
    the shortest decimal form, followed by zeros below 10^21 and in
    exponent notation from 10^21 on. *)
Definition String_nonneg (num : Z) : str :=
  if (num <? 2 ^ 53)%Z then digits num
  else
    let '(s, k, n) := shortest num in
    if (n <=? 21)%Z then digits s ++ repeat zero_char (Z.to_nat (n - k))
    else
      match digits s with
      | d :: ds =>
          d :: (match ds with [] => [] | _ :: _ => 46%N :: ds end)
          ++ 101%N :: 43%N :: digits (n - 1)
      | [] => []
      end.

Definition String_ (num : Z) : str :=
  if (num <? 0)%Z then minus_char :: String_nonneg (- num)
  else String_nonneg num.

(** [s.padStart(2, "0")]. *)
Definition padStart2 (s : str) : str := repeat zero_char (2 - length s) ++ s.

(** [a * b] and [a + b]: the exact result, rounded to a double. *)
Definition nmul (a : option Z) (b : Z) : option Z :=
  match a with Some x => double (x * b) | None => None end.

Definition nadd (a b : option Z) : option Z :=
  match a, b with Some x, Some y => double (x + y) | _, _ => None end.

(** [parts[i]] in arithmetic position: a missing element is [undefined],
    which arithmetic turns into NaN. *)
Definition part (parts : list (option Z)) (i : nat) : option Z :=
  match nth_error parts i with Some v => v | None => None end.

(** [Math.floor(a / b)] for doubles of integer values [a] and [b],
    [0 < b]: the quotient is rounded to a double, a significand [m] of
    53 bits times a power [e] of two, and the double is floored. *)
Definition scaled (n b e : Z) : Z * Z :=
  if (0 <=? e)%Z then (n, b * 2 ^ e)%Z else (n * 2 ^ (- e), b)%Z.

Definition floor_quotient (a b : Z) : Z :=
  if (a =? 0)%Z then 0%Z
  else
    let n := Z.abs a in
    let e0 := (Z.log2 n - Z.log2 b - 53)%Z in
    let e :=
      if (fst (scaled n b e0) / snd (scaled n b e0) <? 2 ^ 53)%Z then e0
      else (e0 + 1)%Z in
    let m := (Z.sgn a * nearest (fst (scaled n b e)) (snd (scaled n b e)))%Z in
    if (0 <=? e)%Z then (m * 2 ^ e)%Z else (m / 2 ^ (- e))%Z.

(* ================================================================== *)
(** ** formatTimestamp and parseTimestamp *)

Definition pad (num : Z) : str := padStart2 (String_ num).

Definition formatTimestamp (ms : Z) : str :=
  let totalSeconds := floor_quotient ms 1000 in
  let hours := floor_quotient totalSeconds 3600 in
  let minutes := floor_quotient (Z.rem totalSeconds 3600) 60 in
  let seconds := Z.rem totalSeconds 60 in
  if (0 <? hours)%Z
  then pad hours ++ colon :: pad minutes ++ colon :: pad seconds
  else pad minutes ++ colon :: pad seconds.

Definition parseTimestamp (timestamp : str) : option Z :=
  let parts := map Number (split colon timestamp) in
  if Nat.eqb (length parts) 3
  then nadd (nadd (nmul (part parts 0) 3600) (nmul (part parts 1) 60))
            (part parts 2)
  else nadd (nmul (part parts 0) 60) (part parts 1).

(* ================================================================== *)
(** ** The timestamp grammar, as the specification words it *)

Definition all_digits (s : str) : Prop := Forall (fun c => is_digit c = true) s.

(** One or more digits. *)
Definition digits1 (s : str) : Prop := s <> [] /\ all_digits s.

(** Exactly two digits. *)
Definition digits2 (s : str) : Prop := length s = 2 /\ all_digits s.

(** [m+:ss] or [h+:m+:ss]. *)
Inductive grammar : str -> Prop :=
| grammar_ms m s :
    digits1 m -> digits2 s -> grammar (m ++ colon :: s)
| grammar_hms h m s :
    digits1 h -> digits1 m -> digits2 s ->
    grammar (h ++ colon :: m ++ colon :: s).

(* ================================================================== *)
(** ** Regular expressions: the fragment the timestamp patterns use

    A backtracking matcher in continuation-passing style, with the
    priorities of ECMAScript: greedy quantifiers try the longest
    repetition first, an optional group is tried before it is skipped. *)

Inductive cclass :=
| CDigit                (* \d *)
| CSpace                (* \s *)
| CChar (c : N).        (* a literal character *)

Definition in_class (k : cclass) (c : N) : bool :=
  match k with
  | CDigit => is_digit c
  | CSpace => is_space c
  | CChar d => N.eqb c d
  end.

Inductive regex :=
| RClass (k : cclass)               (* one character of the class *)
| RPlus (k : cclass)                (* k+ *)
| RRepeat (n : nat) (k : cclass)    (* k{n} *)
| RSeq (r1 r2 : regex)
| ROpt (r : regex)                  (* (?:r)? *)
| RGroup (r : regex)                (* (r), the capture group 1 *)
| RAhead (r : regex).               (* (?=r) *)

(** The matcher's state: the input still to read, and group 1. *)
Record mstate := { rest : str; cap : option str }.

Fixpoint plus_class (k : cclass) (kont : str -> option mstate) (s : str)
  : option mstate :=
  match s with
  | c :: s' =>
      if in_class k c
      then match plus_class k kont s' with
           | Some r => Some r
           | None => kont s'
           end
      else None
  | [] => None
  end.

Fixpoint repeat_class (n : nat) (k : cclass) (kont : str -> option mstate)
  (s : str) : option mstate :=
  match n with
  | O => kont s
  | S n' =>
      match s with
      | c :: s' => if in_class k c then repeat_class n' k kont s' else None
      | [] => None
      end
  end.

Fixpoint rmatch (r : regex) (kont : mstate -> option mstate) (st : mstate)
  : option mstate :=
  match r with
  | RClass k =>
      match rest st with
      | c :: s' =>
          if in_class k c then kont {| rest := s'; cap := cap st |} else None
      | [] => None
      end
  | RPlus k =>
      plus_class k (fun s' => kont {| rest := s'; cap := cap st |}) (rest st)
  | RRepeat n k =>
      repeat_class n k (fun s' => kont {| rest := s'; cap := cap st |}) (rest st)
  | RSeq r1 r2 => rmatch r1 (rmatch r2 kont) st
  | ROpt r1 =>
      match rmatch r1 kont st with
      | Some x => Some x
      | None => kont st
      end
  | RGroup r1 =>
      rmatch r1
        (fun st' =>
           kont {| rest := rest st';
                   cap := Some (firstn (length (rest st) - length (rest st'))
                                       (rest st)) |})
        st
  | RAhead r1 =>
      match rmatch r1 Some st with
      | Some _ => kont st
      | None => None
      end
  end.

(** The pattern of the source (flag g): an optional bold delimiter (two
    escaped asterisks), group 1 = [(?:\d+:)?\d+:\d{2}], an optional bold
    delimiter, and the lookahead [(?=\s)]. *)
Definition bold : regex := RSeq (RClass (CChar star)) (RClass (CChar star)).

Definition hours : regex := RSeq (RPlus CDigit) (RClass (CChar colon)).

Definition minutes_seconds : regex :=
  RSeq (RPlus CDigit) (RSeq (RClass (CChar colon)) (RRepeat 2 CDigit)).

Definition ALL_TIMESTAMPS_PATTERN : regex :=
  RSeq (ROpt bold)
    (RSeq (RGroup (RSeq (ROpt hours) minutes_seconds))
       (RSeq (ROpt bold) (RAhead (RClass CSpace)))).

(** The result of [exec]: [match.index], [match[0]] and [match[1]]. *)
Record match_result := { m_index : nat; m_0 : str; m_1 : option str }.

(** The scan of [exec]: the first start position, from [i] on, at which
    the pattern matches; [s] is the text from position [i]. *)
Fixpoint exec_at (r : regex) (s : str) (i : nat) : option match_result :=
  match rmatch r Some {| rest := s; cap := None |} with
  | Some st =>
      Some {| m_index := i;
              m_0 := firstn (length s - length (rest st)) s;
              m_1 := cap st |}
  | None =>
      match s with
      | [] => None
      | _ :: s' => exec_at r s' (S i)
      end
  end.

(** [r.exec(text)] for a global pattern whose [lastIndex] is [lastIndex];
    on success the new [lastIndex] is [m_index + length m_0]. *)
Definition exec (r : regex) (text : str) (lastIndex : nat)
  : option match_result :=
  if length text <? lastIndex then None
  else exec_at r (skipn lastIndex text) lastIndex.

(* ================================================================== *)
(** ** The document *)

(** What the click listener of a marker does: it looks for the player
    of the block container it closes over and seeks to [seconds].  Only
    the number of seconds is kept here. *)
Inductive listener := SeekTo (seconds : option Z).

Record attrs := {
  tag : str;                  (* the local name *)
  ident : str;                (* the id attribute, empty when absent *)
  classes : list str;         (* classList *)
  src : option str;           (* the src attribute *)
  title : str;
  onclick : option listener
}.

Unset Elimination Schemes.
Inductive node :=
| Text (data : str)
| Elem (a : attrs) (children : list node).
Set Elimination Schemes.

(** The child nodes of the document's root element. *)
Definition dom := list node.

(** A node of the forest, by the child indices that lead to it. *)
Definition path := list nat.

Section FlatMapi.
Variables (A B : Type) (f : nat -> A -> list B).

Fixpoint flat_mapi (i : nat) (l : list A) : list B :=
  match l with
  | [] => []
  | x :: l' => f i x ++ flat_mapi (S i) l'
  end.
End FlatMapi.

Arguments flat_mapi {A B} f i l.

Fixpoint lookup (d : dom) (p : path) : option node :=
  match p with
  | [] => None
  | i :: q =>
      match nth_error d i with
      | None => None
      | Some n =>
          match q with
          | [] => Some n
          | _ :: _ =>
              match n with
              | Elem _ cs => lookup cs q
              | Text _ => None
              end
          end
      end
  end.

(** Replace the node at [p] by the nodes [f n]; nothing happens when [p]
    leads to no node. *)
Fixpoint splice (d : dom) (p : path) (f : node -> list node) : dom :=
  match p with
  | [] => d
  | i :: q =>
      match nth_error d i with
      | None => d
      | Some n =>
          match q with
          | [] => firstn i d ++ f n ++ skipn (S i) d
          | _ :: _ =>
              match n with
              | Elem a cs =>
                  firstn i d ++ Elem a (splice cs q f) :: skipn (S i) d
              | Text _ => d
              end
          end
      end
  end.

(** [node.textContent]. *)
Fixpoint textContent (n : node) : str :=
  match n with
  | Text s => s
  | Elem _ cs => flat_map textContent cs
  end.

Definition has_class (c : str) (a : attrs) : bool :=
  existsb (str_eqb c) (classes a).

(** The selectors of the source. *)
Inductive selector :=
| SelClass (c : str)                  (* .c *)
| SelChild (c : str) (t : str)        (* .c > t *)
| SelSrc (t : str) (sub : str)        (* t[src*="sub"] *)
| SelId (i : str)                     (* #i *)
| SelOr (s1 s2 : selector).           (* s1, s2 *)

Fixpoint matches (s : selector) (parent : option attrs) (a : attrs) : bool :=
  match s with
  | SelClass c => has_class c a
  | SelChild c t =>
      str_eqb (tag a) t
      && match parent with Some pa => has_class c pa | None => false end
  | SelSrc t sub =>
      str_eqb (tag a) t
      && match src a with Some v => includes v sub | None => false end
  | SelId i => str_eqb (ident a) i
  | SelOr s1 s2 => matches s1 parent a || matches s2 parent a
  end.

(** The elements of a subtree that match [s], in document order, by
    their paths from the root [n] of the subtree ([[]] is [n] itself). *)
Fixpoint select_node (s : selector) (parent : option attrs) (n : node)
  : list path :=
  match n with
  | Text _ => []
  | Elem a cs =>
      (if matches s parent a then [[]] else [])
      ++ flat_mapi (fun i c => map (cons i) (select_node s (Some a) c)) 0 cs
  end.

Definition select_forest (s : selector) (parent : option attrs) (d : dom)
  : list path :=
  flat_mapi (fun i c => map (cons i) (select_node s parent c)) 0 d.

(** [document.querySelectorAll(s)]: the root element is not part of the
    forest, and carries none of the classes and ids asked for. *)
Definition querySelectorAll (s : selector) (d : dom) : list path :=
  select_forest s None d.

(** [e.querySelector(s)] for the element at [p]: its first descendant
    that matches. *)
Definition querySelector (s : selector) (d : dom) (p : path) : option path :=
  match lookup d p with
  | Some (Elem a cs) =>
      match select_forest s (Some a) cs with
      | q :: _ => Some (p ++ q)
      | [] => None
      end
  | _ => None
  end.

(** [e.parentElement], for the node at [p]: [None] when the parent is the
    root element. *)
Definition parentElement (p : path) : option path :=
  match removelast p with
  | [] => None
  | q => Some q
  end.

Definition attrs_at (d : dom) (p : path) : option attrs :=
  match lookup d p with
  | Some (Elem a _) => Some a
  | _ => None
  end.

Definition class_at (c : str) (d : dom) (p : path) : bool :=
  match attrs_at d p with
  | Some a => has_class c a
  | None => false
  end.

(** The element at [p] and its ancestors, nearest first. *)
Fixpoint inclusive_ancestors (n : nat) (p : path) : list path :=
  match n with
  | O => []
  | S k => firstn (S k) p :: inclusive_ancestors k p
  end.

(** [e.closest(.c)] for the element at [p]. *)
Definition closest (c : str) (d : dom) (p : path) : option path :=
  find (class_at c d) (inclusive_ancestors (length p) p).

Definition container_class : str := u "roam-block-container".
Definition marker_class : str := u "yts-timestamp".
Definition styles_id : str := u "yts-styles".

Definition container_selector : selector := SelClass container_class.

(** ".rm-block-text, .rm-block__input > span" *)
Definition content_selector : selector :=
  SelOr (SelClass (u "rm-block-text"))
        (SelChild (u "rm-block__input") (u "span")).

(** "iframe[src*=youtube.com], iframe[src*=youtu.be]" *)
Definition player_selector : selector :=
  SelOr (SelSrc (u "iframe") (u "youtube.com"))
        (SelSrc (u "iframe") (u "youtu.be")).

Definition marker_selector : selector := SelClass marker_class.

(* ================================================================== *)
(** ** findYouTubePlayer *)

Inductive search :=
| Found (iframe : path)     (* return iframe *)
| Exhausted                 (* the loop ended without a hit *)
| Unfinished.               (* the loop needs more iterations *)

(** The while loop, for at most [fuel] iterations. *)
Fixpoint searchUp (fuel : nat) (d : dom) (current : path) : search :=
  match fuel with
  | O => Unfinished
  | S f =>
      match closest container_class d current with
      | None => Exhausted
      | Some container =>
          match
            match parentElement container with
            | Some pe => closest container_class d pe
            | None => None
            end
          with
          | Some parentContainer =>
              match querySelector player_selector d parentContainer with
              | Some iframe => Found iframe
              | None => searchUp f d parentContainer
              end
          | None => Exhausted
          end
      end
  end.

(** Each iteration moves [current] to a proper ancestor, so the length of
    the path bounds the number of iterations. *)
Definition findYouTubePlayer (d : dom) (blockElement : path) : option path :=
  match searchUp (S (length blockElement)) d blockElement with
  | Found iframe => Some iframe
  | _ =>
      match querySelectorAll player_selector d with
      | iframe :: _ => Some iframe
      | [] => None
      end
  end.

(* ================================================================== *)
(** ** addTimestampButtons: the augmentation pass *)

(** The loop over [patternCopy.exec(text)]: the distinct captures, in
    the order of their first match, each with its number of seconds.
    Every match of the pattern is at least four units long, so
    [lastIndex] grows at each iteration and a fuel of one more than the
    length of the text is never used up. *)
Fixpoint collect (fuel : nat) (text : str) (lastIndex : nat)
  (timestampMatches : list (str * option Z)) : list (str * option Z) :=
  match fuel with
  | O => timestampMatches
  | S f =>
      match exec ALL_TIMESTAMPS_PATTERN text lastIndex with
      | None => timestampMatches
      | Some m =>
          let timestamp := match m_1 m with Some c => c | None => [] end in
          collect f text (m_index m + length (m_0 m))
            (if existsb (fun t => str_eqb (fst t) timestamp) timestampMatches
             then timestampMatches
             else timestampMatches ++ [(timestamp, parseTimestamp timestamp)])
      end
  end.

(** The text nodes below a node, in document order (the TreeWalker with
    SHOW_TEXT), each with its path from that node and its data. *)
Fixpoint text_nodes (n : node) : list (path * str) :=
  match n with
  | Text s => [([], s)]
  | Elem _ cs =>
      flat_mapi
        (fun i c => map (fun e => (i :: fst e, snd e)) (text_nodes c)) 0 cs
  end.

(** The loop over [nodeText.indexOf(timestamp, searchIdx)].  The
    timestamp is not empty, so [searchIdx] grows at each iteration. *)
Fixpoint occurrences (fuel : nat) (nodeText timestamp : str) (searchIdx : nat)
  : list nat :=
  match fuel with
  | O => []
  | S f =>
      match indexOf nodeText timestamp searchIdx with
      | None => []
      | Some idx =>
          idx :: occurrences f nodeText timestamp (idx + length timestamp)
      end
  end.

(** The source keeps references to nodes while it rewrites the tree.
    Here a reference is the path the node had when it was taken,
    together with the replacements made since: replacing the node at
    [p] by [k] nodes moves its later siblings (and what is below them)
    by [k - 1], and detaches the node itself. *)
Definition edit := (path * nat)%type.

Fixpoint shift (p : path) (k : nat) (q : path) : option path :=
  match p, q with
  | [], _ => Some q
  | _, [] => Some q
  | [i], j :: q' =>
      if j <? i then Some q
      else if j =? i then None
      else Some ((j + k - 1) :: q')
  | i :: p', j :: q' =>
      if j =? i
      then match shift p' k q' with
           | Some r => Some (j :: r)
           | None => None
           end
      else Some q
  end.

(** Where the node taken at [q] is now; [None] when it is detached. *)
Definition resolve (log : list edit) (q : path) : option path :=
  fold_left
    (fun r e => match r with Some q' => shift (fst e) (snd e) q' | None => None end)
    log (Some q).

(** [node.parentElement?.classList.contains('yts-timestamp')] *)
Definition parent_is_marker (d : dom) (p : path) : bool :=
  match parentElement p with
  | Some pe => class_at marker_class d pe
  | None => false
  end.

(** The span created for one occurrence. *)
Definition timestampSpan (timestamp : str) (seconds : option Z) : node :=
  Elem {| tag := u "span";
          ident := [];
          classes := [marker_class];
          src := None;
          title := u "Click to jump to " ++ timestamp;
          onclick := Some (SeekTo seconds) |}
       (match timestamp with [] => [] | _ :: _ => [Text timestamp] end).

Definition text_if_any (s : str) : list node :=
  match s with [] => [] | _ :: _ => [Text s] end.

(** The loop over [nodesToProcess.reverse()].  An entry is the text node
    (its path when the walker met it, and its data) and the index found;
    [log] holds the replacements made since the walk. *)
Fixpoint processNodes (timestamp : str) (seconds : option Z)
  (entries : list (path * str * nat)) (d : dom) (log : list edit)
  : dom * list edit :=
  match entries with
  | [] => (d, log)
  | (p0, nodeText, idx) :: entries' =>
      match indexOf nodeText timestamp 0 with
      | None => processNodes timestamp seconds entries' d log
      | Some currentIdx =>
          match resolve log p0 with
          | None =>
              (* a detached node: parentElement and parentNode are null,
                 the span is built and nothing is replaced *)
              processNodes timestamp seconds entries' d log
          | Some p =>
              if parent_is_marker d p
              then processNodes timestamp seconds entries' d log
              else
                (* nodeText.substring(0, currentIdx) and
                   nodeText.substring(currentIdx + timestamp.length) *)
                let before := firstn currentIdx nodeText in
                let after := skipn (currentIdx + length timestamp) nodeText in
                let fragment :=
                  text_if_any before
                  ++ timestampSpan timestamp seconds :: text_if_any after in
                processNodes timestamp seconds entries'
                  (splice d p (fun _ => fragment))
                  (log ++ [(p, length fragment)])
          end
      end
  end.

(** One iteration of [for (const {timestamp, seconds} of timestampMatches)]
    for the block content at [bc]; returns the replacements it made. *)
Definition processTimestamp (bc : path) (d : dom) (tm : str * option Z)
  : dom * list edit :=
  match lookup d bc with
  | Some blockContent =>
      let nodesToProcess :=
        flat_map
          (fun e =>
             let nodeText := snd e in
             if parent_is_marker d (bc ++ fst e) then []
             else map (fun idx => (bc ++ fst e, nodeText, idx))
                      (occurrences (S (length nodeText)) nodeText (fst tm) 0))
          (text_nodes blockContent) in
      processNodes (fst tm) (snd tm) (rev nodesToProcess) d []
  | None => (d, [])
  end.

(** The body of [blockContainers.forEach]; [c] is the path the container
    had when the list was taken, [log] the replacements made since.  The
    replaced text nodes are below the block content, so its own path
    [bc] stays valid while its timestamps are processed. *)
Definition processContainer (st : dom * list edit) (c : path)
  : dom * list edit :=
  match resolve (snd st) c with
  | None => st
  | Some container =>
      match querySelector content_selector (fst st) container with
      | None => st
      | Some bc =>
          let text :=
            match lookup (fst st) bc with
            | Some blockContent => textContent blockContent
            | None => []
            end in
          let timestampMatches := collect (S (length text)) text 0 [] in
          fold_left
            (fun st' tm =>
               let r := processTimestamp bc (fst st') tm in
               (fst r, snd st' ++ snd r))
            timestampMatches st
      end
  end.

Definition addTimestampButtons (d : dom) : dom :=
  fst (fold_left processContainer (querySelectorAll container_selector d)
         (d, [])).

(* ================================================================== *)
(** ** The mutation watcher *)

Inductive mutation_type := childList | characterData | attributes.

Record MutationRecord := { mtype : mutation_type; addedNodes : nat }.

(** What the watcher's code reads and writes: the document, the
    observers that are connected, [window.YTSObserver], the timeouts
    that are pending (by the time they are due, oldest first) and the
    clock, in milliseconds.  [passes] records when a pass ran. *)
Record world := {
  document : dom;
  observers : list nat;
  YTSObserver : option nat;
  timers : list nat;
  now : nat;
  next_observer : nat;
  passes : list nat
}.

Definition style_css : str :=
  u "
    .yts-timestamp {
      color: #137cbd;
      cursor: pointer;
      text-decoration: underline;
      text-decoration-style: dotted;
    }
    .yts-timestamp:hover {
      color: #0d5a8c;
      text-decoration-style: solid;
    }
  ".

Definition styleElement : node :=
  Elem {| tag := u "style"; ident := styles_id; classes := []; src := None;
          title := []; onclick := None |}
       [Text style_css].

(** The first child of the root element that satisfies [P]. *)
Fixpoint find_child (P : attrs -> bool) (d : dom) (i : nat) : option nat :=
  match d with
  | [] => None
  | Elem a _ :: d' => if P a then Some i else find_child P d' (S i)
  | Text _ :: d' => find_child P d' (S i)
  end.

(** [document.head] and [document.body]. *)
Definition document_head (d : dom) : option nat :=
  find_child (fun a => str_eqb (tag a) (u "head")) d 0.

Definition document_body (d : dom) : option nat :=
  find_child
    (fun a => str_eqb (tag a) (u "body") || str_eqb (tag a) (u "frameset")) d 0.

Definition appendChild (d : dom) (i : nat) (c : node) : dom :=
  splice d [i]
    (fun n => match n with
              | Elem a cs => [Elem a (cs ++ [c])]
              | Text _ => [n]
              end).

(** A call either returns or throws; the world it leaves is kept in
    both cases. *)
Inductive outcome := Returned (w : world) | Threw (w : world).

Definition world_of (o : outcome) : world :=
  match o with Returned w => w | Threw w => w end.

(** [document.head.appendChild] throws when there is no head, and
    [observer.observe] when there is no body. *)
Definition initTimestampObserver (w : world) : outcome :=
  match document_head (document w) with
  | None => Threw w
  | Some h =>
      let d1 := appendChild (document w) h styleElement in
      let d2 := addTimestampButtons d1 in
      let observer := next_observer w in
      match document_body d2 with
      | None =>
          Threw {| document := d2;
                   observers := observers w;
                   YTSObserver := YTSObserver w;
                   timers := timers w;
                   now := now w;
                   next_observer := S observer;
                   passes := passes w ++ [now w] |}
      | Some _ =>
          Returned {| document := d2;
                      observers := observers w ++ [observer];
                      YTSObserver := Some observer;
                      timers := timers w;
                      now := now w;
                      next_observer := S observer;
                      passes := passes w ++ [now w] |}
      end
  end.

(** The callback given to [new MutationObserver]. *)
Definition observerCallback (mutations : list MutationRecord) (w : world)
  : world :=
  let shouldUpdate :=
    existsb
      (fun mutation =>
         (0 <? addedNodes mutation)
         || match mtype mutation with characterData => true | _ => false end)
      mutations in
  if shouldUpdate
  then {| document := document w;
          observers := observers w;
          YTSObserver := YTSObserver w;
          timers := timers w ++ [now w + 100];
          now := now w;
          next_observer := next_observer w;
          passes := passes w |}
  else w.

(** The oldest pending timeout fires: [addTimestampButtons] runs. *)
Definition timerFires (w : world) : world :=
  match timers w with
  | [] => w
  | due :: pending =>
      {| document := addTimestampButtons (document w);
         observers := observers w;
         YTSObserver := YTSObserver w;
         timers := pending;
         now := Nat.max (now w) due;
         next_observer := next_observer w;
         passes := passes w ++ [Nat.max (now w) due] |}
  end.

Fixpoint fire_due (n : nat) (until : nat) (w : world) : world :=
  match n with
  | O => w
  | S n' =>
      match timers w with
      | due :: _ => if due <=? until then fire_due n' until (timerFires w) else w
      | [] => w
      end
  end.

(** [dt] milliseconds pass: the timeouts due by then fire, in order. *)
Definition elapse (dt : nat) (w : world) : world :=
  let w' := fire_due (length (timers w)) (now w + dt) w in
  {| document := document w';
     observers := observers w';
     YTSObserver := YTSObserver w';
     timers := timers w';
     now := now w + dt;
     next_observer := next_observer w';
     passes := passes w' |}.

(** [document.getElementById(i)] *)
Definition getElementById (i : str) (d : dom) : option path :=
  hd_error (querySelectorAll (SelId i) d).

(** [span.replaceWith(document.createTextNode(span.textContent))] for
    the span taken at path [p]; a span that is no longer in the document
    has no parent, and nothing happens. *)
Definition replaceWithText (d : dom) (p : path) : dom :=
  splice d p (fun span => [Text (textContent span)]).

Definition cleanupTimestampObserver (w : world) : world :=
  let d1 :=
    match getElementById styles_id (document w) with
    | Some style => splice (document w) style (fun _ => [])
    | None => document w
    end in
  {| document :=
       fold_left replaceWithText (querySelectorAll marker_selector d1) d1;
     observers :=
       match YTSObserver w with
       | Some o => filter (fun x => negb (x =? o)) (observers w)
       | None => observers w
       end;
     YTSObserver := None;
     timers := timers w;
     now := now w;
     next_observer := next_observer w;
     passes := passes w |}.

(** What happens to the watcher: the extension starts or stops it, the
    browser delivers mutation records to an observer, time passes.  The
    records that the code's own changes of the document cause are
    delivered like any others, by a [Notify]. *)
Inductive event :=
| Start
| Stop
| Notify (observer : nat) (mutations : list MutationRecord)
| Elapse (dt : nat).

Definition step (w : world) (e : event) : world :=
  match e with
  | Start => world_of (initTimestampObserver w)
  | Stop => cleanupTimestampObserver w
  | Notify o mutations =>
      if existsb (Nat.eqb o) (observers w)
      then observerCallback mutations w
      else w
  | Elapse dt => elapse dt w
  end.

Definition run (w : world) (trace : list event) : world :=
  fold_left step trace w.

(* ================================================================== *)
(** ** Notions of the statements *)

(** The number of elements of the document that match a selector. *)
Definition count (s : selector) (d : dom) : nat :=
  length (querySelectorAll s d).

(** Every marker replaced by a text node that carries its text. *)
Fixpoint unwrapped (n : node) : node :=
  match n with
  | Text s => Text s
  | Elem a cs =>
      if has_class marker_class a then Text (textContent n)
      else Elem a (map unwrapped cs)
  end.

(** Start is called only when the watcher is stopped. *)
Fixpoint lifecycle (started : bool) (trace : list event) : bool :=
  match trace with
  | [] => true
  | Start :: trace' => negb started && lifecycle true trace'
  | Stop :: trace' => lifecycle false trace'
  | _ :: trace' => lifecycle started trace'
  end.

(** A qualifying mutation record: some node was added. *)
Definition added_one : MutationRecord := {| mtype := childList; addedNodes := 1 |}.

(** An optional bold delimiter. *)
Definition bold_or_none (s : str) : Prop := s = [] \/ s = [star; star].

(** [reads r st st']: the pattern [r] can take the matcher from [st] to
    [st']. *)
Fixpoint reads (r : regex) (st st' : mstate) : Prop :=
  match r with
  | RClass k =>
      exists c, rest st = c :: rest st' /\ in_class k c = true
                /\ cap st' = cap st
  | RPlus k =>
      exists ds, ds <> [] /\ Forall (fun c => in_class k c = true) ds
                 /\ rest st = ds ++ rest st' /\ cap st' = cap st
  | RRepeat n k =>
      exists ds, length ds = n /\ Forall (fun c => in_class k c = true) ds
                 /\ rest st = ds ++ rest st' /\ cap st' = cap st
  | RSeq r1 r2 => exists mid, reads r1 st mid /\ reads r2 mid st'
  | ROpt r1 => reads r1 st st' \/ st' = st
  | RGroup r1 =>
      exists st1, reads r1 st st1 /\ rest st' = rest st1
                  /\ cap st' = Some (firstn (length (rest st) - length (rest st1))
                                            (rest st))
  | RAhead r1 => (exists st1, reads r1 st st1) /\ st' = st
  end.


Definition digit_headed (s : str) : Prop :=
  exists c t, s = c :: t /\ is_digit c = true.

Definition not_digit_headed (s : str) : Prop :=
  match s with
  | [] => True
  | c :: _ => is_digit c = false
  end.

(** What follows a literal: an optional bold delimiter and a blank. *)
Definition follows (after : str) : Prop :=
  exists post c tl, bold_or_none post /\ is_space c = true
                    /\ after = post ++ c :: tl.

Definition unwraps_in_place (c : node) : Prop :=
  forall parent done todo,
    fold_left replaceWithText
      (map (cons (length done)) (select_node marker_selector parent c))
      (done ++ c :: todo)
    = done ++ unwrapped c :: todo.

(** The number of matching elements, node by node. *)
Definition cnt_node (s : selector) (n : node) : nat :=
  length (select_node s None n).

Definition cnt_forest (s : selector) (d : dom) : nat :=
  list_sum (map (cnt_node s) d).

(** The style elements this code installs. *)
Definition styles : selector := SelId styles_id.

(** The document once the first element with the id of the style sheet
    is removed. *)
Definition without_style (d : dom) : dom :=
  match getElementById styles_id d with
  | Some style => splice d style (fun _ => [])
  | None => d
  end.

(** The watcher before any start, on a given document. *)
Definition stopped (d : dom) : world :=
  {| document := d; observers := []; YTSObserver := None; timers := [];
     now := 0; next_observer := 0; passes := [] |}.

(** What holds of the world along a trace that respects the lifecycle. *)
Definition tidy (started : bool) (w : world) : Prop :=
  length (observers w) <= 1
  /\ (forall o, In o (observers w) -> YTSObserver w = Some o)
  /\ count styles (document w) <= 1
  /\ (started = false -> observers w = [] /\ count styles (document w) = 0).

(** ** Documents at hand *)

Local Open Scope string_scope.

Definition el (t : string) (cls : list string) (cs : list node) : node :=
  Elem {| tag := u t; ident := []; classes := map u cls; src := None;
          title := []; onclick := None |} cs.

Definition embed (url : string) : node :=
  Elem {| tag := u "iframe"; ident := []; classes := []; src := Some (u url);
          title := []; onclick := None |} [].

Definition block (content : list node) (below : list node) : node :=
  el "div" ["roam-block-container"]
     (el "span" ["rm-block-text"] content :: below).

(** One block whose only text node holds the timestamp 02:10 twice. *)
Definition twice_page : dom :=
  [el "head" [] [];
   el "body" []
      [block [Text (u "**02:10** hello **02:10** world")] []]].

(** The same text as the renderer shows it: each bold timestamp in an
    element of its own. *)
Definition bold_page : dom :=
  [el "head" [] [];
   el "body" []
      [block [el "b" [] [Text (u "02:10")]; Text (u " hello ");
              el "b" [] [Text (u "02:10")]; Text (u " world")] []]].

(** A block and, elsewhere in the page, the only embedded player. *)
Definition player_page : dom :=
  [el "head" [] [];
   el "body" []
      [block [Text (u "02:10 hello")] [];
       el "div" [] [embed "https://www.youtube.com/embed/abc"]]].

(** A page without any embedded player. *)
Definition plain_page : dom :=
  [el "head" [] [];
   el "body" [] [block [Text (u "02:10 hello")] []]].

Local Close Scope string_scope.

(* ================================================================== *)
(** ** More notions of the statements *)

(** The text of the document. *)
Definition document_text (d : dom) : str := flat_map textContent d.

(** What replaces a text node: the text before the timestamp, the
    marker, the text after it. *)
Definition fragment (before timestamp : str) (seconds : option Z) (after : str)
  : list node :=
  text_if_any before ++ timestampSpan timestamp seconds :: text_if_any after.

(** The references of the pending entries lead to the text nodes they
    were taken from. *)
Definition references_ok (d : dom) (log : list edit)
  (entries : list (path * str * nat)) : Prop :=
  forall p0 t idx p,
    In (p0, t, idx) entries -> resolve log p0 = Some p ->
    lookup d p = Some (Text t).

(** A marker as the pass makes it: around the text of one literal of the
    grammar, with the seconds that parseTimestamp gives that literal,
    which are never negative. *)
Definition marker_ok (a : attrs) (cs : list node) : Prop :=
  exists L,
    cs = [Text L] /\ grammar L
    /\ onclick a = Some (SeekTo (parseTimestamp L))
    /\ forall n, parseTimestamp L = Some n -> (0 <= n)%Z.

(** Every marker below a node is such a marker. *)
Fixpoint markers_ok (n : node) : Prop :=
  match n with
  | Text _ => True
  | Elem a cs =>
      (has_class marker_class a = true -> marker_ok a cs)
      /\ (fix all (l : list node) : Prop :=
            match l with
            | [] => True
            | c :: l' => markers_ok c /\ all l'
            end) cs
  end.

Definition forest_ok (d : dom) : Prop := Forall markers_ok d.

(** A timestamp as the loop over exec collects it. *)
Definition collected (tm : str * option Z) : Prop :=
  grammar (fst tm) /\ snd tm = parseTimestamp (fst tm).

(** The node that the path [q] leads to from the node [n] ([n] itself for
    the empty path). *)
Definition below (n : node) (q : path) : option node :=
  match q with
  | [] => Some n
  | _ :: _ => match n with Elem _ cs => lookup cs q | Text _ => None end
  end.

(** The events other than a start. *)
Definition not_start (e : event) : bool :=
  match e with Start => false | _ => true end.

(** A timestamp of the text: a literal of the grammar, with its number of
    seconds, that stands in the text before an optional bold delimiter
    and a blank. *)
Definition timestamp_of (text : str) (tm : str * option Z) : Prop :=
  grammar (fst tm) /\ snd tm = parseTimestamp (fst tm)
  /\ exists a post c b,
       bold_or_none post /\ is_space c = true
       /\ text = a ++ fst tm ++ post ++ c :: b.

(* ================================================================== *)
(** ** Regular expressions: the fragment the URL patterns use

    Sets of characters, their greedy repetitions, alternatives, optional
    parts, two capture groups and the end of the input; the same
    backtracking order as above. *)

Inductive rx :=
| XSet (p : N -> bool)          (* one character of a set *)
| XStar (p : N -> bool)         (* set*, greedy *)
| XPlus (p : N -> bool)         (* set+, greedy *)
| XSeq (r1 r2 : rx)
| XAlt (r1 r2 : rx)             (* r1|r2 *)
| XOpt (r : rx)                 (* r? *)
| XGroup (n : nat) (r : rx)     (* capture group n *)
| XEnd.                         (* $ *)

Record xstate := { xrest : str; xcap : nat -> option str }.

Fixpoint star_set (p : N -> bool) (kont : str -> option xstate) (s : str)
  : option xstate :=
  match s with
  | c :: s' =>
      if p c
      then match star_set p kont s' with
           | Some r => Some r
           | None => kont s
           end
      else kont s
  | [] => kont s
  end.

Fixpoint xmatch (r : rx) (kont : xstate -> option xstate) (st : xstate)
  : option xstate :=
  match r with
  | XSet p =>
      match xrest st with
      | c :: s' =>
          if p c then kont {| xrest := s'; xcap := xcap st |} else None
      | [] => None
      end
  | XStar p =>
      star_set p (fun s' => kont {| xrest := s'; xcap := xcap st |}) (xrest st)
  | XPlus p =>
      match xrest st with
      | c :: s' =>
          if p c
          then star_set p (fun s'' => kont {| xrest := s''; xcap := xcap st |}) s'
          else None
      | [] => None
      end
  | XSeq r1 r2 => xmatch r1 (xmatch r2 kont) st
  | XAlt r1 r2 =>
      match xmatch r1 kont st with
      | Some x => Some x
      | None => xmatch r2 kont st
      end
  | XOpt r1 =>
      match xmatch r1 kont st with
      | Some x => Some x
      | None => kont st
      end
  | XGroup n r1 =>
      xmatch r1
        (fun st' =>
           kont {| xrest := xrest st';
                   xcap := fun k =>
                     if k =? n
                     then Some (firstn (length (xrest st) - length (xrest st'))
                                       (xrest st))
                     else xcap st' k |})
        st
  | XEnd =>
      match xrest st with
      | [] => kont st
      | _ :: _ => None
      end
  end.

(** [match.index], [match[0]] and the captures. *)
Record xresult := { x_index : nat; x_0 : str; x_cap : nat -> option str }.

Fixpoint xexec_at (r : rx) (s : str) (i : nat) : option xresult :=
  match xmatch r Some {| xrest := s; xcap := fun _ => None |} with
  | Some st =>
      Some {| x_index := i;
              x_0 := firstn (length s - length (xrest st)) s;
              x_cap := xcap st |}
  | None =>
      match s with
      | [] => None
      | _ :: s' => xexec_at r s' (S i)
      end
  end.

Definition xexec (r : rx) (text : str) (lastIndex : nat) : option xresult :=
  if length text <? lastIndex then None
  else xexec_at r (skipn lastIndex text) lastIndex.

(** The letter in upper case: what the flag i compares, for a pattern
    without the flag u. *)
Definition upper (c : N) : N :=
  if (97 <=? c)%N && (c <=? 122)%N then (c - 32)%N else c.

Definition same_char (c x : N) : bool := N.eqb x c.
Definition same_letter (c x : N) : bool := N.eqb (upper x) (upper c).

(** A literal string, character by character; [cmp] is [same_char], or
    [same_letter] under the flag i. *)
Fixpoint literal (cmp : N -> N -> bool) (s : str) : rx :=
  match s with
  | [] => XStar (fun _ => false)
  | [c] => XSet (cmp c)
  | c :: s' => XSeq (XSet (cmp c)) (literal cmp s')
  end.

(** The sets of the patterns: the word characters, the characters of a
    video id (a word character or a hyphen), the characters of the rest
    of an address (no blank, no bracket, no parenthesis, no angle
    bracket), every character but one, and the trailing characters that
    cleanYouTubeUrl removes. *)
Definition is_word (c : N) : bool :=
  ((65 <=? c)%N && (c <=? 90)%N) || ((97 <=? c)%N && (c <=? 122)%N)
  || is_digit c || N.eqb c 95.

Definition is_id_char (c : N) : bool := is_word c || N.eqb c 45.

Definition is_url_char (c : N) : bool :=
  negb (is_space c || existsb (N.eqb c) [93; 41; 91; 60; 62]%N).

Definition not_char (d : N) (c : N) : bool := negb (N.eqb c d).

Definition is_trailing (c : N) : bool :=
  existsb (N.eqb c) [41; 93; 125; 62; 46; 44; 59; 58; 33; 63]%N.

Local Open Scope string_scope.

(** The pattern of a markdown link, flag g: a bracketed text (group 1,
    any characters but the closing bracket), then between parentheses
    the address (group 2: http, an optional s, a colon and two slashes,
    and one or more characters other than the closing parenthesis). *)
Definition markdownLinkPattern : rx :=
  XSeq (literal same_char (u "["))
    (XSeq (XGroup 1 (XStar (not_char 93)))
       (XSeq (literal same_char (u "]("))
          (XSeq (XGroup 2
                   (XSeq (literal same_char (u "http"))
                      (XSeq (XOpt (literal same_char (u "s")))
                         (XSeq (literal same_char (u "://"))
                            (XPlus (not_char 41))))))
             (literal same_char (u ")"))))).

(** The start of three patterns, flags g and i: http, an optional s, a
    colon and two slashes, an optional www and dot, then youtube.com. *)
Definition youtube_com (tail : rx) : rx :=
  XSeq (literal same_letter (u "http"))
    (XSeq (XOpt (literal same_letter (u "s")))
       (XSeq (literal same_letter (u "://"))
          (XSeq (XOpt (literal same_letter (u "www.")))
             (XSeq (literal same_letter (u "youtube.com")) tail)))).

(** After youtube.com: /watch? and, after any characters of an address,
    v= and an id; or /embed/ and an id; or /shorts/ and an id; each with
    the rest of the address. *)
Definition watchPattern : rx :=
  youtube_com
    (XSeq (literal same_letter (u "/watch?"))
       (XSeq (XStar is_url_char)
          (XSeq (literal same_letter (u "v="))
             (XSeq (XPlus is_id_char) (XStar is_url_char))))).

Definition embedPattern : rx :=
  youtube_com
    (XSeq (literal same_letter (u "/embed/"))
       (XSeq (XPlus is_id_char) (XStar is_url_char))).

Definition shortsPattern : rx :=
  youtube_com
    (XSeq (literal same_letter (u "/shorts/"))
       (XSeq (XPlus is_id_char) (XStar is_url_char))).

(** The pattern of a short link, flags g and i: http, an optional s,
    ://youtu.be/, one or more characters of an id, and the rest of the
    address. *)
Definition shortLinkPattern : rx :=
  XSeq (literal same_letter (u "http"))
    (XSeq (XOpt (literal same_letter (u "s")))
       (XSeq (literal same_letter (u "://youtu.be/"))
          (XSeq (XPlus is_id_char) (XStar is_url_char)))).

Definition patterns : list rx :=
  [watchPattern; embedPattern; shortsPattern; shortLinkPattern].

(** The pattern of isYouTubeUrl, flag i: youtube.com or youtu.be. *)
Definition youtubePattern : rx :=
  XAlt (literal same_letter (u "youtube.com"))
       (literal same_letter (u "youtu.be")).

(** The pattern of cleanYouTubeUrl: one or more trailing characters,
    up to the end. *)
Definition trailingPattern : rx := XSeq (XPlus is_trailing) XEnd.

Local Close Scope string_scope.

(* ================================================================== *)
(** ** extractYouTubeUrl, isYouTubeUrl, cleanYouTubeUrl *)

(** [pattern.test(url)] *)
Definition isYouTubeUrl (url : str) : bool :=
  match xexec youtubePattern url 0 with Some _ => true | None => false end.

(** [url.replace(pattern, '')]: the first match is cut out. *)
Definition cleanYouTubeUrl (url : str) : str :=
  match xexec trailingPattern url 0 with
  | Some m =>
      firstn (x_index m) url ++ skipn (x_index m + length (x_0 m)) url
  | None => url
  end.

(** The loop over [markdownLinkPattern.exec(text)]: the first link whose
    address is a YouTube address.  A match is never empty, so the fuel
    of one more than the length of the text is never used up. *)
Fixpoint markdownLoop (fuel : nat) (text : str) (lastIndex : nat) : option str :=
  match fuel with
  | O => None
  | S f =>
      match xexec markdownLinkPattern text lastIndex with
      | None => None
      | Some mdMatch =>
          let url := match x_cap mdMatch 2 with Some c => c | None => [] end in
          if isYouTubeUrl url then Some (cleanYouTubeUrl url)
          else markdownLoop f text (x_index mdMatch + length (x_0 mdMatch))
      end
  end.

(** The loop over the patterns: [text.match(pattern)] with the flag g
    gives all the matches, of which the first is taken. *)
Fixpoint patternLoop (ps : list rx) (text : str) : option str :=
  match ps with
  | [] => None
  | pattern :: ps' =>
      match xexec pattern text 0 with
      | Some m => Some (cleanYouTubeUrl (x_0 m))
      | None => patternLoop ps' text
      end
  end.

Definition extractYouTubeUrl (text : str) : option str :=
  match text with
  | [] => None
  | _ :: _ =>
      match markdownLoop (S (length text)) text 0 with
      | Some url => Some url
      | None => patternLoop patterns text
      end
  end.

(* ================================================================== *)
(** ** Notions of the statements on addresses *)

(** [xreads r st st']: the pattern [r] can take the matcher from [st] to
    [st']. *)
Fixpoint xreads (r : rx) (st st' : xstate) : Prop :=
  match r with
  | XSet p =>
      exists c, xrest st = c :: xrest st' /\ p c = true
                /\ xcap st' = xcap st
  | XStar p =>
      exists ds, Forall (fun c => p c = true) ds
                 /\ xrest st = ds ++ xrest st' /\ xcap st' = xcap st
  | XPlus p =>
      exists ds, ds <> [] /\ Forall (fun c => p c = true) ds
                 /\ xrest st = ds ++ xrest st' /\ xcap st' = xcap st
  | XSeq r1 r2 => exists mid, xreads r1 st mid /\ xreads r2 mid st'
  | XAlt r1 r2 => xreads r1 st st' \/ xreads r2 st st'
  | XOpt r1 => xreads r1 st st' \/ st' = st
  | XGroup n r1 =>
      exists st1, xreads r1 st st1 /\ xrest st' = xrest st1
                  /\ xcap st' n
                     = Some (firstn (length (xrest st) - length (xrest st1))
                                    (xrest st))
  | XEnd => xrest st = [] /\ st' = st
  end.

(** [w] spells the literal [lit], up to what [cmp] compares. *)
Definition spells (cmp : N -> N -> bool) (lit w : str) : Prop :=
  Forall2 (fun c x => cmp c x = true) lit w.

(** The text holds the literal somewhere, in any case of the letters. *)
Definition mentions (lit text : str) : Prop :=
  exists a w b, text = a ++ w ++ b /\ spells same_letter lit w.

(** The text names a YouTube domain. *)
Definition names_youtube (text : str) : Prop :=
  mentions (u "youtube.com") text \/ mentions (u "youtu.be") text.

Definition substring_of (s text : str) : Prop :=
  exists a b, text = a ++ s ++ b.

(** The string does not end with a trailing character. *)
Definition ends_clean (s : str) : Prop :=
  forall x c, s = x ++ [c] -> is_trailing c = false.

(** The string starts with http, in any case of the letters. *)
Definition starts_with_http (s : str) : Prop :=
  exists w rest, s = w ++ rest /\ spells same_letter (u "http") w.

(* ================================================================== *)
(** ** getBlockInfo and findYouTubeUrl *)

(** A call of the graph interface returns or throws. *)
Inductive result (A : Type) :=
| Ok (a : A)
| Throws.
Arguments Ok {A} a.
Arguments Throws {A}.

(** What is pulled of an entity: its :block/string, which a page does
    not have, and under :block/parents the uids of the entities listed,
    in the order of the list; [None] is an absent attribute. *)
Record blockInfo := {
  info_string : option str;
  info_parents : option (list str)
}.

(** [extractYouTubeUrl] of a value that can be undefined, and the test
    [if (url)] of its result: null and the empty string are both
    falsy. *)
Definition urlOf (s : option str) : option str :=
  match s with
  | Some text =>
      match extractYouTubeUrl text with
      | Some (c :: url) => Some (c :: url)
      | _ => None
      end
  | None => None
  end.

Section Graph.

(** [roamAlphaAPI.pull] and [roamAlphaAPI.q] for the entity with a given
    uid (the pattern and the query are fixed but for the uid): a value
    that is an object or falsy, and an array of rows or a falsy value. *)
Variable pull : str -> result (option blockInfo).
Variable q : str -> result (option (list (list (option blockInfo)))).

Definition queryBlockInfo (uid : str) : result (option blockInfo) :=
  match q uid with
  | Throws => Throws
  | Ok (Some ((Some info :: _) :: _)) => Ok (Some info)
  | Ok _ => Ok None
  end.

Definition getBlockInfo (uid : str) : result (option blockInfo) :=
  match pull uid with
  | Ok (Some pullResult) => Ok (Some pullResult)
  | Ok None => queryBlockInfo uid
  | Throws => queryBlockInfo uid
  end.

(** The loop over [parents.reverse()]. *)
Fixpoint parentLoop (parents : list str) : result (option (str * str)) :=
  match parents with
  | [] => Ok None
  | parentUid :: parents' =>
      match getBlockInfo parentUid with
      | Throws => Throws
      | Ok None => parentLoop parents'
      | Ok (Some parentInfo) =>
          match urlOf (info_string parentInfo) with
          | Some parentUrl => Ok (Some (parentUrl, parentUid))
          | None => parentLoop parents'
          end
      end
  end.

(** The result is the pair of the address and of the uid of the block
    that holds it. *)
Definition findYouTubeUrl (blockUid : str) : result (option (str * str)) :=
  match getBlockInfo blockUid with
  | Throws => Throws
  | Ok None => Ok None
  | Ok (Some blockInfo) =>
      match urlOf (info_string blockInfo) with
      | Some url => Ok (Some (url, blockUid))
      | None =>
          match info_parents blockInfo with
          | Some (p :: ps) => parentLoop (rev (p :: ps))
          | _ => Ok None
          end
      end
  end.

(** The block holds no address, or cannot be read. *)
Definition no_address (uid : str) : Prop :=
  getBlockInfo uid = Ok None
  \/ exists info, getBlockInfo uid = Ok (Some info)
                  /\ urlOf (info_string info) = None.

End Graph.

(* ================================================================== *)
(** ** insertTranscript *)

Record TranscriptSegment := { seg_text : str; seg_offset : Z }.

(** The argument of one call of [roamAlphaAPI.createBlock]. *)
Record createBlock := {
  location_parent_uid : str;
  location_order : nat;
  block_uid : option str;
  block_string : str
}.

Definition space : N := 32.
Definition newline : N := 10.

(** [lines.join(sep)] *)
Fixpoint join (sep : str) (lines : list str) : str :=
  match lines with
  | [] => []
  | [l] => l
  | l :: lines' => l ++ sep ++ join sep lines'
  end.

(** The loop of the mode Nested Blocks, from the index [i] on. *)
Fixpoint segmentBlocks (containerUid : str) (i : nat)
  (segments : list TranscriptSegment) : list createBlock :=
  match segments with
  | [] => []
  | segment :: segments' =>
      let timestamp := formatTimestamp (seg_offset segment) in
      {| location_parent_uid := containerUid;
         location_order := i;
         block_uid := None;
         block_string := timestamp ++ space :: seg_text segment |}
      :: segmentBlocks containerUid (S i) segments'
  end.

Local Open Scope string_scope.

Definition boldLine (segment : TranscriptSegment) : str :=
  (u "**" ++ formatTimestamp (seg_offset segment) ++ u "** "
   ++ seg_text segment)%list.

Definition codeLine (segment : TranscriptSegment) : str :=
  (u "[" ++ formatTimestamp (seg_offset segment) ++ u "] "
   ++ seg_text segment)%list.

(** The calls of createBlock that insertTranscript makes, in order, when
    each of them succeeds; [containerUid] is what generateUid returned. *)
Definition insertTranscript (containerUid : str) (youtubeBlockUid : str)
  (segments : list TranscriptSegment) (mode : str) : list createBlock :=
  let parentUid := youtubeBlockUid in
  if str_eqb mode (u "Nested Blocks") then
    {| location_parent_uid := parentUid;
       location_order := 0;
       block_uid := Some containerUid;
       block_string := u "**Transcript**" |}
    :: segmentBlocks containerUid 0 segments
  else if str_eqb mode (u "Single Block (Soft Line Breaks)") then
    [{| location_parent_uid := parentUid;
        location_order := 0;
        block_uid := None;
        block_string := join [newline] (map boldLine segments) |}]
  else if str_eqb mode (u "Code Block") then
    [{| location_parent_uid := parentUid;
        location_order := 0;
        block_uid := None;
        block_string :=
          (u "```plain text" ++ newline
           :: join [newline; newline] (map codeLine segments)
           ++ newline :: u "```")%list |}]
  else [].

(* ================================================================== *)
(** ** seekYouTubeVideo and the click on a marker *)

(** The commands posted to the player: the JSON text holds the function
    and its arguments; seconds that are no finite number ([None]) are
    written as null. *)
Inductive command :=
| seekTo (seconds : option Z)
| playVideo.

Definition enablejsapi : str := u "enablejsapi=1".
Definition question : N := 63.
Definition ampersand : N := 38.

Local Close Scope string_scope.

Definition set_src (a : attrs) (v : str) : attrs :=
  {| tag := tag a; ident := ident a; classes := classes a;
     src := Some v; title := title a; onclick := onclick a |}.

Section Browser.

(** The address that the browser resolves the text of a src attribute
    to, against the address of the document (the text itself where it
    cannot be parsed): the code reads it, whereas a selector looks at
    the text of the attribute. *)
Variable resolve : str -> str.

(** [iframe.src]: the resolved address, and the empty string without
    the attribute. *)
Definition src_of (a : attrs) : str :=
  match src a with Some v => resolve v | None => [] end.

(** The element after the call, and the commands posted.  The frame of
    the document has a window. *)
Definition seekYouTubeVideo (iframe : attrs) (seconds : option Z)
  : attrs * list command :=
  let src := src_of iframe in
  ((if includes src enablejsapi then iframe
    else
      let separator := if includes src [question] then [ampersand]
                       else [question] in
      set_src iframe (src ++ separator ++ enablejsapi)),
   [seekTo seconds; playVideo]).

(** The listener of a marker, for the block container at [container]
    and the seconds it closes over: the document after the click and
    the commands posted. *)
Definition click (d : dom) (container : path) (seconds : option Z)
  : dom * list command :=
  match findYouTubePlayer d container with
  | Some iframe =>
      match lookup d iframe with
      | Some (Elem a cs) =>
          (splice d iframe
             (fun _ => [Elem (fst (seekYouTubeVideo a seconds)) cs]),
           snd (seekYouTubeVideo a seconds))
      | _ => (d, [])
      end
  | None => (d, [])
  end.

End Browser.

(* ================================================================== *)
(** ** onunload *)

Definition loading_id : str := u "yts-loading".

Definition onunload (w : world) : world :=
  let w' := cleanupTimestampObserver w in
  {| document :=
       match getElementById loading_id (document w') with
       | Some loader => splice (document w') loader (fun _ => [])
       | None => document w'
       end;
     observers := observers w';
     YTSObserver := YTSObserver w';
     timers := timers w';
     now := now w';
     next_observer := next_observer w';
     passes := passes w' |}.

(* ================================================================== *)
(** ** Notions of the statements on the transcript *)

(** The characters a match of the timestamp pattern is made of. *)
Definition is_stamp_char (c : N) : bool :=
  is_digit c || N.eqb c colon || N.eqb c star.

(* ================================================================== *)
(** ** A graph and a segment at hand *)

(** A note under a block that holds a video, on a page; the pull of the
    block of the video gives nothing, the query answers for it, and both
    give nothing for the page. *)
Local Open Scope string_scope.

Definition pull_at_hand (uid : str) : result (option blockInfo) :=
  if str_eqb uid (u "note")
  then Ok (Some {| info_string := Some (u "a note");
                   info_parents := Some [u "page"; u "video"] |})
  else if str_eqb uid (u "video") then Ok None
  else Throws.

Definition q_at_hand (uid : str)
  : result (option (list (list (option blockInfo)))) :=
  if str_eqb uid (u "video")
  then Ok (Some [[Some {| info_string :=
                            Some (u "{{[[video]]: https://youtu.be/Ab_9}}");
                          info_parents := Some [u "page"] |}]])
  else Ok (Some []).

Local Close Scope string_scope.



(** One minute and five seconds into the video. *)
Definition segment_at_hand : TranscriptSegment :=
  {| seg_text := u "hello"; seg_offset := 65400 |}.

(* ================================================================== *)
(** ** Notions of the statements on the click *)


(** Two trees of the same shape whose elements look the same. *)
Unset Elimination Schemes.
Set Elimination Schemes.

(* ================================================================== *)
(** * Proofs *)

(** ** Strings *)

Lemma str_eqb_eq a b : str_eqb a b = true <-> a = b.
Proof.
  unfold str_eqb. destruct (list_eq_dec N.eq_dec a b); split; congruence.
Qed.

Lemma str_eqb_refl a : str_eqb a a = true.
Proof. now apply str_eqb_eq. Qed.

Lemma digit_not_colon c : is_digit c = true -> N.eqb c colon = false.
Proof.
  unfold is_digit, colon. intros H. apply andb_true_iff in H as [H1 H2].
  apply N.leb_le in H1, H2. apply N.eqb_neq. lia.
Qed.

Lemma split_digits s : all_digits s -> split colon s = [s].
Proof.
  induction 1 as [|c s Hc Hs IH]; simpl; [reflexivity|].
  now rewrite (digit_not_colon _ Hc), IH.
Qed.

Lemma split_digits_colon a b :
  all_digits a -> split colon (a ++ colon :: b) = a :: split colon b.
Proof.
  induction 1 as [|c s Hc Hs IH]; simpl; [reflexivity|].
  now rewrite (digit_not_colon _ Hc), IH.
Qed.

Lemma all_digits_forallb s : all_digits s -> forallb is_digit s = true.
Proof. intros H. apply forallb_forall. now apply Forall_forall. Qed.

(** ** Decimal digits *)

Lemma digit_value_range c : is_digit c = true -> (0 <= digit_value c <= 9)%Z.
Proof.
  unfold is_digit, digit_value. intros H. apply andb_true_iff in H as [H1 H2].
  apply N.leb_le in H1, H2. lia.
Qed.

Lemma decimal_snoc s c : decimal (s ++ [c]) = (10 * decimal s + digit_value c)%Z.
Proof. unfold decimal. now rewrite fold_left_app. Qed.

Lemma decimal_nonneg s : all_digits s -> (0 <= decimal s)%Z.
Proof.
  induction s as [|c s IH] using rev_ind; intros H; [unfold decimal; simpl; lia|].
  apply Forall_app in H as [Hs Hc]. inversion Hc; subst.
  rewrite decimal_snoc. pose proof (digit_value_range _ H1). specialize (IH Hs). lia.
Qed.

Lemma digit_char_ok d :
  (0 <= d <= 9)%Z -> is_digit (digit_char d) = true /\ digit_value (digit_char d) = d.
Proof.
  intros H. unfold is_digit, digit_value, digit_char. split.
  - apply andb_true_iff. split; apply N.leb_le; lia.
  - lia.
Qed.

Lemma digits_fuel_S f n :
  digits_fuel (S f) n =
  if (n <? 10)%Z then [digit_char n]
  else digits_fuel f (n / 10)%Z ++ [digit_char (n mod 10)%Z].
Proof. reflexivity. Qed.

Lemma digits_fuel_spec f : forall n,
  (0 <= n < 2 ^ Z.of_nat (S f))%Z ->
  all_digits (digits_fuel (S f) n)
  /\ decimal (digits_fuel (S f) n) = n
  /\ digits_fuel (S f) n <> []
  /\ ((n < 10)%Z -> length (digits_fuel (S f) n) = 1)
  /\ ((10 <= n < 100)%Z -> length (digits_fuel (S f) n) = 2).
Proof.
  induction f as [|f IH]; intros n Hn.
  - change (2 ^ Z.of_nat 1)%Z with 2%Z in Hn.
    assert (Hlt : (n <? 10)%Z = true) by (apply Z.ltb_lt; lia).
    simpl. rewrite Hlt.
    destruct (digit_char_ok n) as [Hd Hv]; [lia|].
    repeat split; try (intros; lia); try discriminate.
    + constructor; [exact Hd | constructor].
    + unfold decimal; simpl. lia.
  - rewrite (digits_fuel_S (S f) n). destruct (n <? 10)%Z eqn:Hlt.
    + apply Z.ltb_lt in Hlt.
      destruct (digit_char_ok n) as [Hd Hv]; [lia|].
      repeat split; try (intros; simpl; lia); try discriminate.
      * constructor; [exact Hd | constructor].
      * unfold decimal; simpl. lia.
    + apply Z.ltb_ge in Hlt.
      assert (Hq : (0 <= n / 10 < 2 ^ Z.of_nat (S f))%Z).
      { split; [apply Z.div_pos; lia|].
        apply Z.div_lt_upper_bound; [lia|].
        replace (Z.of_nat (S (S f))) with (Z.of_nat (S f) + 1)%Z in Hn by lia.
        rewrite Z.pow_add_r in Hn by lia. lia. }
      destruct (IH _ Hq) as (Ha & Hv & Hne & Hl1 & Hl2).
      destruct (digit_char_ok (n mod 10)) as [Hd Hdv].
      { pose proof (Z.mod_pos_bound n 10). lia. }
      repeat split.
      * apply Forall_app. split; [exact Ha|]. constructor; [exact Hd | constructor].
      * rewrite decimal_snoc, Hv, Hdv. pose proof (Z.div_mod n 10). lia.
      * intros E. apply app_eq_nil in E as [_ E]. discriminate.
      * intros; lia.
      * intros H100. rewrite length_app.
        rewrite Hl1; [reflexivity|].
        apply Z.div_lt_upper_bound; lia.
Qed.

Lemma digits_spec n :
  (0 <= n)%Z ->
  all_digits (digits n) /\ decimal (digits n) = n /\ digits n <> []
  /\ ((n < 10)%Z -> length (digits n) = 1)
  /\ ((10 <= n < 100)%Z -> length (digits n) = 2).
Proof.
  intros Hn. unfold digits. apply digits_fuel_spec. split; [exact Hn|].
  rewrite Nat2Z.inj_succ, Z2Nat.id by apply Z.log2_nonneg.
  destruct (Z.eq_dec n 0) as [->|Hz]; [reflexivity|].
  apply Z.log2_spec. lia.
Qed.

Lemma decimal_zeros k s : decimal (repeat zero_char k ++ s) = decimal s.
Proof.
  unfold decimal. rewrite fold_left_app.
  replace (fold_left (fun a c => (10 * a + digit_value c)%Z) (repeat zero_char k) 0%Z)
    with 0%Z; [reflexivity|].
  induction k as [|k IH]; simpl; [reflexivity|]. exact IH.
Qed.

(** ** Doubles of integer value *)

Lemma pow53_pos : (0 < 2 ^ 53)%Z.
Proof. reflexivity. Qed.

Lemma round53_small n : (Z.abs n < 2 ^ 53)%Z -> round53 n = n.
Proof. intros H. unfold round53. apply Z.ltb_lt in H. now rewrite H. Qed.

Lemma double_small n : (Z.abs n < 2 ^ 53)%Z -> double n = Some n.
Proof.
  intros H. unfold double. rewrite (round53_small n H).
  assert (H2 : (Z.abs n <? 2 ^ 1024)%Z = true).
  { apply Z.ltb_lt. apply (Z.lt_trans _ _ _ H). reflexivity. }
  now rewrite H2.
Qed.

Lemma nearest_bounds n d :
  (0 <= n)%Z -> (0 < d)%Z ->
  (n / d <= nearest n d <= n / d + 1)%Z
  /\ (nearest n d = n / d + 1 -> d <= 2 * (n mod d))%Z.
Proof.
  intros Hn Hd. unfold nearest.
  destruct (2 * (n mod d) <? d)%Z eqn:E1; [split; lia|].
  apply Z.ltb_ge in E1.
  destruct (d <? 2 * (n mod d))%Z; [split; lia|].
  destruct (Z.even (n / d)); split; lia.
Qed.

Lemma round53_nonneg n : (0 <= n)%Z -> (0 <= round53 n)%Z.
Proof.
  intros Hn. unfold round53.
  destruct (Z.abs n <? 2 ^ 53)%Z eqn:E; [exact Hn|].
  apply Z.ltb_ge in E.
  assert (Hpos : (0 < n)%Z) by (pose proof pow53_pos; lia).
  rewrite (Z.sgn_pos n Hpos), Z.mul_1_l.
  assert (Hp : (0 < 2 ^ (Z.log2 (Z.abs n) - 52))%Z).
  { apply Z.pow_pos_nonneg; [lia|].
    assert (53 <= Z.log2 (Z.abs n))%Z; [|lia].
    apply Z.log2_le_pow2; lia. }
  destruct (nearest_bounds (Z.abs n) _ (Z.abs_nonneg n) Hp) as [[Hq _] _].
  apply Z.mul_nonneg_nonneg; [|lia].
  pose proof (Z.div_pos (Z.abs n) _ (Z.abs_nonneg n) Hp). lia.
Qed.

Lemma double_nonneg n r : (0 <= n)%Z -> double n = Some r -> (0 <= r)%Z.
Proof.
  intros Hn. unfold double. destruct (_ <? _)%Z; [|discriminate].
  intros E. injection E as <-. now apply round53_nonneg.
Qed.

(** From 2^53 on the nearest double is 2^53 at least. *)
Lemma round53_large n : (2 ^ 53 <= n)%Z -> (2 ^ 53 <= round53 n)%Z.
Proof.
  intros Hn. unfold round53. pose proof pow53_pos as H53.
  rewrite (Z.abs_eq n) by lia.
  destruct (n <? 2 ^ 53)%Z eqn:E; [apply Z.ltb_lt in E; lia|].
  rewrite (Z.sgn_pos n) by lia. rewrite Z.mul_1_l.
  assert (Hl : (53 <= Z.log2 n)%Z) by (apply Z.log2_le_pow2; lia).
  set (e := (Z.log2 n - 52)%Z).
  assert (Hp : (0 < 2 ^ e)%Z) by (apply Z.pow_pos_nonneg; lia).
  destruct (nearest_bounds n (2 ^ e) ltac:(lia) Hp) as [[Hq _] _].
  assert (Hlow : (2 ^ 52 <= n / 2 ^ e)%Z).
  { apply Z.div_le_lower_bound; [exact Hp|].
    rewrite Z.mul_comm, <- Z.pow_add_r by lia.
    replace (52 + e)%Z with (Z.log2 n) by (unfold e; lia).
    apply Z.log2_spec. lia. }
  apply (Z.le_trans _ (2 ^ 52 * 2 ^ e)).
  - rewrite <- Z.pow_add_r by lia. apply Z.pow_le_mono_r; lia.
  - apply Z.mul_le_mono_nonneg_r; lia.
Qed.

(** ** Number on digit parts *)

Lemma digit_not_space c : is_digit c = true -> is_space c = false.
Proof.
  unfold is_digit. intros H. apply andb_true_iff in H as [H1 H2].
  apply N.leb_le in H1, H2. unfold is_space. cbn [existsb].
  repeat match goal with
         | |- context [N.eqb c ?k] =>
             destruct (N.eqb_spec c k); [exfalso; lia|]
         end.
  cbn [orb]. apply andb_false_iff. left. apply N.leb_gt. lia.
Qed.

Lemma trimStart_digits s : all_digits s -> trimStart s = s.
Proof.
  intros H. destruct H as [|c s Hc Hs]; [reflexivity|].
  cbn [trimStart]. now rewrite (digit_not_space c Hc).
Qed.

Lemma trim_digits s : all_digits s -> trim s = s.
Proof.
  intros H. unfold trim. rewrite (trimStart_digits s H).
  rewrite trimStart_digits by now apply Forall_rev.
  apply rev_involutive.
Qed.

Lemma Number_digits s : all_digits s -> Number s = double (decimal s).
Proof.
  intros H. unfold Number. rewrite (trim_digits s H).
  now rewrite all_digits_forallb.
Qed.

Lemma Number_small s :
  all_digits s -> (decimal s < 2 ^ 53)%Z -> Number s = Some (decimal s).
Proof.
  intros H Hlt. rewrite (Number_digits s H). apply double_small.
  rewrite Z.abs_eq; [exact Hlt | now apply decimal_nonneg].
Qed.

Lemma Number_nonneg s n : Number s = Some n -> (0 <= n)%Z.
Proof.
  unfold Number. destruct (forallb is_digit (trim s)) eqn:E; [|discriminate].
  apply double_nonneg. apply decimal_nonneg. apply Forall_forall.
  exact (proj1 (forallb_forall _ _) E).
Qed.

Lemma nmul_nonneg a b n :
  (forall x, a = Some x -> 0 <= x)%Z -> (0 <= b)%Z ->
  nmul a b = Some n -> (0 <= n)%Z.
Proof.
  intros Ha Hb. destruct a as [x|]; [|discriminate]. cbn [nmul].
  apply double_nonneg. specialize (Ha x eq_refl). nia.
Qed.

Lemma nadd_nonneg a b n :
  (forall x, a = Some x -> 0 <= x)%Z -> (forall y, b = Some y -> 0 <= y)%Z ->
  nadd a b = Some n -> (0 <= n)%Z.
Proof.
  intros Ha Hb. destruct a as [x|], b as [y|]; try discriminate. cbn [nadd].
  apply double_nonneg. specialize (Ha x eq_refl). specialize (Hb y eq_refl).
  lia.
Qed.

(** ** The floor of a quotient *)

(** Rounding the quotient to a double does not move it across an
    integer while the weight of the last bit is small enough. *)
Lemma nearest_floor a b t :
  (0 <= a)%Z -> (0 < b)%Z -> (0 < t)%Z -> (b < 2 * t)%Z ->
  (nearest (a * t) b / t = a / b)%Z.
Proof.
  intros Ha Hb Ht Hbt.
  assert (Hat : (0 <= a * t)%Z) by nia.
  destruct (nearest_bounds (a * t) b Hat Hb) as [[Hlo Hhi] Hup].
  pose proof (Z.div_mod a b ltac:(lia)) as Ea.
  pose proof (Z.mod_pos_bound a b Hb) as Hra.
  pose proof (Z.div_mod (a * t) b ltac:(lia)) as Eq.
  pose proof (Z.mod_pos_bound (a * t) b Hb) as Hrq.
  set (n := (a / b)%Z) in *. set (r0 := (a mod b)%Z) in *.
  set (q := (a * t / b)%Z) in *. set (r := ((a * t) mod b)%Z) in *.
  set (m := nearest (a * t) b) in *.
  symmetry. apply Z.div_unique_pos with (r := (m - n * t)%Z); [|lia].
  assert (Hq1 : (n * t <= q)%Z).
  { apply Z.div_le_lower_bound; [exact Hb|]. fold q. nia. }
  split; [lia|].
  destruct (Z.eq_dec m (q + 1)) as [E|E].
  - specialize (Hup E). nia.
  - assert (m = q) by lia. nia.
Qed.

Lemma floor_quotient_small a b :
  (0 <= a < 2 ^ 53)%Z -> (2 <= b)%Z -> floor_quotient a b = (a / b)%Z.
Proof.
  intros [Ha0 Ha] Hb. unfold floor_quotient.
  destruct (Z.eqb_spec a 0) as [->|Hz]; [reflexivity|].
  rewrite (Z.abs_eq a), (Z.sgn_pos a), Z.mul_1_l by lia.
  assert (Hla : (0 <= Z.log2 a <= 52)%Z).
  { split; [apply Z.log2_nonneg|].
    assert (Z.log2 a < 53)%Z; [|lia]. apply Z.log2_lt_pow2; lia. }
  assert (Hlb : (1 <= Z.log2 b)%Z) by (apply Z.log2_le_pow2; lia).
  pose proof (Z.log2_spec b ltac:(lia)) as [_ Hb2].
  set (e0 := (Z.log2 a - Z.log2 b - 53)%Z).
  assert (He0 : (e0 < 0)%Z) by (unfold e0; lia).
  set (e := if (fst (scaled a b e0) / snd (scaled a b e0) <? 2 ^ 53)%Z
            then e0 else (e0 + 1)%Z).
  assert (He : (e <= - Z.log2 b)%Z).
  { unfold e. destruct (_ <? _)%Z; unfold e0; lia. }
  assert (Hneg : (0 <=? e)%Z = false) by (apply Z.leb_gt; lia).
  unfold scaled. rewrite Hneg. cbn [fst snd].
  assert (Ht : (0 < 2 ^ (- e))%Z) by (apply Z.pow_pos_nonneg; lia).
  assert (Hbt : (b < 2 * 2 ^ (- e))%Z).
  { replace (2 * 2 ^ (- e))%Z with (2 ^ (Z.succ (- e)))%Z
      by (rewrite Z.pow_succ_r; lia).
    apply (Z.lt_le_trans _ _ _ Hb2). apply Z.pow_le_mono_r; lia. }
  apply nearest_floor; lia.
Qed.

(** ** String and pad *)

Lemma String_small n : (0 <= n < 2 ^ 53)%Z -> String_ n = digits n.
Proof.
  intros [H0 H]. unfold String_, String_nonneg.
  assert (E0 : (n <? 0)%Z = false) by (apply Z.ltb_ge; lia).
  apply Z.ltb_lt in H. now rewrite E0, H.
Qed.

(** [pad] of a number [n >= 0] below 2^53: digits, at least two, of
    value [n]. *)
Lemma pad_spec n :
  (0 <= n < 2 ^ 53)%Z ->
  all_digits (pad n) /\ decimal (pad n) = n /\ pad n <> []
  /\ ((n < 100)%Z -> length (pad n) = 2).
Proof.
  intros Hn. unfold pad, padStart2. rewrite (String_small n Hn).
  destruct (digits_spec n (proj1 Hn)) as (Ha & Hv & Hne & Hl1 & Hl2).
  repeat split.
  - apply Forall_app. split; [|exact Ha].
    apply Forall_forall. intros c Hc. apply repeat_spec in Hc. now subst.
  - now rewrite decimal_zeros.
  - intros E. apply app_eq_nil in E as [_ E]. contradiction.
  - intros H100. rewrite length_app, repeat_length.
    destruct (Z_lt_ge_dec n 10) as [H10|H10].
    + rewrite Hl1 by exact H10. reflexivity.
    + rewrite Hl2 by lia. reflexivity.
Qed.

(** ** parseTimestamp on digit parts *)

Lemma parse_three h m s :
  all_digits h -> all_digits m -> all_digits s ->
  (decimal h * 3600 + decimal m * 60 + decimal s < 2 ^ 53)%Z ->
  parseTimestamp (h ++ colon :: m ++ colon :: s)
  = Some (decimal h * 3600 + decimal m * 60 + decimal s)%Z.
Proof.
  intros Hh Hm Hs Hlt. unfold parseTimestamp.
  rewrite (split_digits_colon h _ Hh), (split_digits_colon m _ Hm),
    (split_digits s Hs).
  cbn [map length Nat.eqb part nth_error].
  pose proof (decimal_nonneg h Hh). pose proof (decimal_nonneg m Hm).
  pose proof (decimal_nonneg s Hs).
  rewrite !Number_small by (assumption || lia). cbn [nmul nadd].
  rewrite !double_small by lia. cbn [nadd].
  rewrite !double_small by lia. cbn [nadd].
  now rewrite double_small by lia.
Qed.

Lemma parse_two m s :
  all_digits m -> all_digits s ->
  (decimal m * 60 + decimal s < 2 ^ 53)%Z ->
  parseTimestamp (m ++ colon :: s) = Some (decimal m * 60 + decimal s)%Z.
Proof.
  intros Hm Hs Hlt. unfold parseTimestamp.
  rewrite (split_digits_colon m _ Hm), (split_digits s Hs).
  cbn [map length Nat.eqb part nth_error].
  pose proof (decimal_nonneg m Hm). pose proof (decimal_nonneg s Hs).
  rewrite !Number_small by (assumption || lia). cbn [nmul nadd].
  rewrite !double_small by lia. cbn [nadd].
  now rewrite double_small by lia.
Qed.

(** The seconds of a literal of the grammar are not negative. *)
Lemma parse_nonneg L n :
  grammar L -> parseTimestamp L = Some n -> (0 <= n)%Z.
Proof.
  intros [m s [_ Hm] [_ Hs] | h m s [_ Hh] [_ Hm] [_ Hs]];
    unfold parseTimestamp.
  - rewrite (split_digits_colon m _ Hm), (split_digits s Hs).
    cbn [map length Nat.eqb part nth_error].
    apply nadd_nonneg; [|apply Number_nonneg].
    intros x. apply nmul_nonneg; [apply Number_nonneg | lia].
  - rewrite (split_digits_colon h _ Hh), (split_digits_colon m _ Hm),
      (split_digits s Hs).
    cbn [map length Nat.eqb part nth_error].
    apply nadd_nonneg; [|apply Number_nonneg].
    intros x. apply nadd_nonneg; intros y;
      (apply nmul_nonneg; [apply Number_nonneg | lia]).
Qed.

(** ** The shape of formatTimestamp *)

Lemma pad_two n :
  (0 <= n < 100)%Z -> digits2 (pad n) /\ decimal (pad n) = n.
Proof.
  intros Hn. pose proof pow53_pos.
  destruct (pad_spec n) as (Ha & Hv & _ & Hl);
    [split; [lia|]; apply (Z.lt_trans _ 100); [lia | reflexivity]|].
  split; [split; [apply Hl; lia | exact Ha] | exact Hv].
Qed.

Lemma pad_some n :
  (0 <= n < 2 ^ 53)%Z -> digits1 (pad n) /\ decimal (pad n) = n.
Proof.
  intros Hn. destruct (pad_spec n Hn) as (Ha & Hv & Hne & _).
  split; [split; assumption | exact Hv].
Qed.

(** Below 2^53 the divisions of formatTimestamp are exact. *)
Lemma format_exact ms :
  (0 <= ms < 2 ^ 53)%Z ->
  formatTimestamp ms
  = let totalSeconds := (ms / 1000)%Z in
    let hours := (totalSeconds / 3600)%Z in
    let minutes := (totalSeconds mod 3600 / 60)%Z in
    let seconds := (totalSeconds mod 60)%Z in
    if (0 <? hours)%Z
    then pad hours ++ colon :: pad minutes ++ colon :: pad seconds
    else pad minutes ++ colon :: pad seconds.
Proof.
  intros Hms. unfold formatTimestamp.
  assert (Ht : (0 <= ms / 1000 < 2 ^ 53)%Z).
  { split; [apply Z.div_pos; lia|].
    apply (Z.le_lt_trans _ ms); [|lia]. apply Z.div_le_upper_bound; lia. }
  rewrite (floor_quotient_small ms 1000 Hms) by lia.
  rewrite (floor_quotient_small (ms / 1000) 3600 Ht) by lia.
  rewrite !Z.rem_mod_nonneg by lia.
  pose proof (Z.mod_pos_bound (ms / 1000) 3600 ltac:(lia)) as Hr.
  rewrite (floor_quotient_small ((ms / 1000) mod 3600) 60) by lia.
  reflexivity.
Qed.

Lemma format_short ms :
  (0 <= ms < 2 ^ 53)%Z -> (ms / 1000 < 3600)%Z ->
  formatTimestamp ms = pad (ms / 1000 / 60) ++ colon :: pad ((ms / 1000) mod 60).
Proof.
  intros H0 Hlt. rewrite (format_exact ms H0). cbv zeta.
  assert (Ht : (0 <= ms / 1000)%Z) by (apply Z.div_pos; lia).
  rewrite (Z.div_small (ms / 1000) 3600) by lia.
  change (0 <? 0)%Z with false. cbv iota.
  now rewrite (Z.mod_small (ms / 1000) 3600) by lia.
Qed.

Lemma format_long ms :
  (0 <= ms < 2 ^ 53)%Z -> (3600 <= ms / 1000)%Z ->
  formatTimestamp ms
  = pad (ms / 1000 / 3600)
    ++ colon :: pad ((ms / 1000) mod 3600 / 60)
    ++ colon :: pad ((ms / 1000) mod 60).
Proof.
  intros H0 Hge. rewrite (format_exact ms H0). cbv zeta.
  assert (Hh : (0 < ms / 1000 / 3600)%Z).
  { apply Z.div_str_pos. lia. }
  apply Z.ltb_lt in Hh. now rewrite Hh.
Qed.

Lemma digits2_all s : digits2 s -> all_digits s.
Proof. now intros [_ H]. Qed.

Lemma digits2_digits1 s : digits2 s -> digits1 s.
Proof. intros [Hl H]. split; [|exact H]. intros ->. discriminate. Qed.

(** Formatting a number of milliseconds below 2^53 gives a literal of
    the grammar, whose parts have two digits (the hours at least two),
    and parsing it gives the number of whole seconds. *)
Lemma format_parse ms :
  (0 <= ms < 2 ^ 53)%Z ->
  grammar (formatTimestamp ms)
  /\ parseTimestamp (formatTimestamp ms) = Some (ms / 1000)%Z
  /\ ((ms / 1000 < 3600)%Z ->
      exists m s, formatTimestamp ms = m ++ colon :: s
                  /\ digits2 m /\ digits2 s)
  /\ ((3600 <= ms / 1000)%Z ->
      exists h m s, formatTimestamp ms = h ++ colon :: m ++ colon :: s
                    /\ digits1 h /\ 2 <= length h /\ digits2 m /\ digits2 s).
Proof.
  intros H0.
  assert (Ht : (0 <= ms / 1000 < 2 ^ 53)%Z).
  { split; [apply Z.div_pos; lia|].
    apply (Z.le_lt_trans _ ms); [|lia]. apply Z.div_le_upper_bound; lia. }
  set (t := (ms / 1000)%Z) in *.
  pose proof (Z.mod_pos_bound t 60 ltac:(lia)) as Hs60.
  destruct (pad_two (t mod 60)) as [Hs2 Hsv]; [lia|].
  destruct (Z_lt_ge_dec t 3600) as [Hlt|Hge].
  - assert (Hm60 : (0 <= t / 60 < 100)%Z).
    { split; [apply Z.div_pos; lia|]. apply Z.div_lt_upper_bound; lia. }
    destruct (pad_two (t / 60) Hm60) as [Hm2 Hmv].
    rewrite (format_short ms H0 Hlt). fold t.
    assert (Ev : (t / 60 * 60 + t mod 60 = t)%Z)
      by (pose proof (Z.div_mod t 60); lia).
    repeat split.
    + apply grammar_ms; [now apply digits2_digits1 | exact Hs2].
    + rewrite parse_two; try (now apply digits2_all);
        rewrite Hmv, Hsv, Ev; [reflexivity | lia].
    + intros _. exists (pad (t / 60)), (pad (t mod 60)).
      split; [reflexivity | split; assumption].
    + intros Hc. lia.
  - pose proof (Z.mod_pos_bound t 3600 ltac:(lia)) as Hr.
    assert (Hm60 : (0 <= t mod 3600 / 60 < 100)%Z).
    { split; [apply Z.div_pos; lia|]. apply Z.div_lt_upper_bound; lia. }
    destruct (pad_two (t mod 3600 / 60) Hm60) as [Hm2 Hmv].
    assert (Hh0 : (0 <= t / 3600 < 2 ^ 53)%Z).
    { split; [apply Z.div_pos; lia|].
      apply (Z.le_lt_trans _ t); [|lia]. apply Z.div_le_upper_bound; lia. }
    destruct (pad_some (t / 3600) Hh0) as [Hh1 Hhv].
    rewrite (format_long ms H0) by (fold t; lia). fold t.
    assert (Ev : (t / 3600 * 3600 + t mod 3600 / 60 * 60 + t mod 60 = t)%Z)
      by (clear; Z.div_mod_to_equations; lia).
    repeat split.
    + apply grammar_hms; [exact Hh1 | now apply digits2_digits1 | exact Hs2].
    + rewrite parse_three; try (apply Hh1 || now apply digits2_all);
        rewrite Hhv, Hmv, Hsv, Ev; [reflexivity | lia].
    + intros Hc. lia.
    + intros _. exists (pad (t / 3600)), (pad (t mod 3600 / 60)), (pad (t mod 60)).
      split; [reflexivity|]. split; [exact Hh1|].
      split; [|split; assumption].
      unfold pad, padStart2. rewrite length_app, repeat_length. lia.
Qed.

(** ** The matcher: what a successful match reads *)

Lemma plus_class_sound k kont : forall s res,
  plus_class k kont s = Some res ->
  exists ds s', s = ds ++ s' /\ ds <> []
                /\ Forall (fun c => in_class k c = true) ds
                /\ kont s' = Some res.
Proof.
  induction s as [|c s IH]; intros res H; simpl in H; [discriminate|].
  destruct (in_class k c) eqn:Hc; [|discriminate].
  destruct (plus_class k kont s) as [r|] eqn:Hp.
  - injection H as ->. destruct (IH _ eq_refl) as (ds & s' & -> & _ & Hds & Hk).
    exists (c :: ds), s'. repeat split; auto; discriminate.
  - exists [c], s. repeat split; auto; discriminate.
Qed.

Lemma repeat_class_sound k kont : forall n s res,
  repeat_class n k kont s = Some res ->
  exists ds s', s = ds ++ s' /\ length ds = n
                /\ Forall (fun c => in_class k c = true) ds
                /\ kont s' = Some res.
Proof.
  induction n as [|n IH]; intros s res H; simpl in H.
  - exists [], s. repeat split; auto.
  - destruct s as [|c s]; [discriminate|].
    destruct (in_class k c) eqn:Hc; [|discriminate].
    destruct (IH _ _ H) as (ds & s' & -> & Hl & Hds & Hk).
    exists (c :: ds), s'. repeat split; auto. simpl. now rewrite Hl.
Qed.

Lemma rmatch_sound r : forall kont st res,
  rmatch r kont st = Some res ->
  exists st', reads r st st' /\ kont st' = Some res.
Proof.
  induction r as [k | k | n k | r1 IH1 r2 IH2 | r1 IH1 | r1 IH1 | r1 IH1];
    intros kont st res H; simpl in H.
  - destruct (rest st) as [|c s'] eqn:Hs; [discriminate|].
    destruct (in_class k c) eqn:Hc; [|discriminate].
    exists {| rest := s'; cap := cap st |}. split; [|exact H].
    exists c. auto.
  - apply plus_class_sound in H as (ds & s' & Hs & Hne & Hds & Hk).
    exists {| rest := s'; cap := cap st |}. split; [|exact Hk].
    exists ds. auto.
  - apply repeat_class_sound in H as (ds & s' & Hs & Hl & Hds & Hk).
    exists {| rest := s'; cap := cap st |}. split; [|exact Hk].
    exists ds. auto.
  - apply IH1 in H as (mid & Hm & H). apply IH2 in H as (st' & Hr & Hk).
    exists st'. split; [exists mid; auto | exact Hk].
  - destruct (rmatch r1 kont st) as [x|] eqn:Hx.
    + injection H as ->. apply IH1 in Hx as (st' & Hr & Hk).
      exists st'. split; [left; exact Hr | exact Hk].
    + exists st. split; [right; reflexivity | exact H].
  - apply IH1 in H as (st1 & Hr & Hk).
    eexists. split; [|exact Hk]. exists st1. simpl. auto.
  - destruct (rmatch r1 Some st) as [x|] eqn:Hx; [|discriminate].
    apply IH1 in Hx as (st1 & Hr & _).
    exists st. split; [split; [exists st1; exact Hr | reflexivity] | exact H].
Qed.

Lemma reads_bold st st' :
  reads (ROpt bold) st st' ->
  exists b, bold_or_none b /\ rest st = b ++ rest st' /\ cap st' = cap st.
Proof.
  intros [(mid & (c1 & H1 & E1 & C1) & (c2 & H2 & E2 & C2)) | ->].
  - simpl in E1, E2. apply N.eqb_eq in E1, E2. subst.
    exists [star; star]. split; [now right|].
    rewrite H1, H2. split; [reflexivity | congruence].
  - exists []. split; [now left | auto].
Qed.

Lemma digit_class ds :
  Forall (fun c => in_class CDigit c = true) ds -> all_digits ds.
Proof. exact (fun H => H). Qed.

(** What the group reads is a literal of the grammar. *)
Lemma reads_literal st st' :
  reads (RSeq (ROpt hours) minutes_seconds) st st' ->
  exists L, grammar L /\ rest st = L ++ rest st'.
Proof.
  unfold hours, minutes_seconds.
  intros (m1 & Hopt & (m2 & (ms & Hne & Hms & Hr1 & _)
                          & (m3 & (c & Hr2 & Hc & _) & (ss & Hl & Hss & Hr3 & _)))).
  simpl in Hc. apply N.eqb_eq in Hc. subst c.
  assert (Htail : rest m1 = (ms ++ colon :: ss) ++ rest st').
  { rewrite Hr1, Hr2, Hr3. now rewrite <- app_assoc. }
  destruct Hopt as [(m0 & (hs & Hhne & Hhs & Hh1 & _) & (c & Hh2 & Hc & _)) | ->].
  - simpl in Hc. apply N.eqb_eq in Hc. subst c.
    exists (hs ++ colon :: ms ++ colon :: ss). split.
    + apply grammar_hms; split; auto.
    + rewrite Hh1, Hh2, Htail. rewrite <- !app_assoc. simpl.
      now rewrite <- app_assoc.
  - exists (ms ++ colon :: ss). split; [|exact Htail].
    apply grammar_ms; split; auto.
Qed.

Lemma firstn_app_exact (a b : str) : firstn (length (a ++ b) - length b) (a ++ b) = a.
Proof.
  rewrite length_app, Nat.add_sub.
  rewrite firstn_app, Nat.sub_diag, firstn_all. simpl. apply app_nil_r.
Qed.

(** A match of the pattern: an optional bold delimiter, a literal of the
    grammar (the capture), an optional bold delimiter, then a blank that
    is not read. *)
Lemma pattern_sound st st' :
  reads ALL_TIMESTAMPS_PATTERN st st' ->
  exists pre L post c tl,
    bold_or_none pre /\ grammar L /\ bold_or_none post /\ is_space c = true
    /\ rest st = pre ++ L ++ post ++ c :: tl
    /\ rest st' = c :: tl /\ cap st' = Some L.
Proof.
  intros (m1 & Hpre & (m2 & (g & Hg & Hgr & Hgc)
                         & (m3 & Hpost & ((x & (c & Hc & Hsp & _)) & ->)))).
  apply reads_bold in Hpre as (pre & Hpre & Hr1 & _).
  apply reads_bold in Hpost as (post & Hpost & Hr3 & Hc3).
  apply reads_literal in Hg as (L & HL & Hr2).
  exists pre, L, post, c, (rest x). simpl in Hsp.
  repeat split; auto.
  - rewrite Hr1, Hr2, <- Hgr, Hr3, Hc. reflexivity.
  - rewrite Hc3, Hgc, Hr2. f_equal. apply firstn_app_exact.
Qed.

(** ** The matcher: which match it returns *)

(** A greedy run of digits, before a continuation that refuses to start
    on a digit, reads all the digits there are. *)
Lemma plus_class_digits kont : forall ds s',
  all_digits ds -> ds <> [] -> not_digit_headed s' ->
  (forall t, digit_headed t -> kont t = None) ->
  plus_class CDigit kont (ds ++ s') = kont s'.
Proof.
  intros ds s' Hds Hne Hs' Hk. induction Hds as [|c ds Hc Hds IH]; [contradiction|].
  simpl. rewrite Hc. destruct ds as [|c' ds].
  - simpl. destruct s' as [|c' t]; simpl; [reflexivity|].
    simpl in Hs'. now rewrite Hs'.
  - rewrite IH by discriminate.
    destruct (kont s') as [r|] eqn:Hr; [reflexivity|].
    apply Hk. inversion Hds; subst. now exists c', (ds ++ s').
Qed.

Lemma colon_refuses_digit kont cp t :
  digit_headed t ->
  rmatch (RClass (CChar colon)) kont {| rest := t; cap := cp |} = None.
Proof.
  intros (c & t' & -> & Hc). simpl. now rewrite (digit_not_colon c Hc).
Qed.

Lemma space_not_digit c : is_space c = true -> is_digit c = false.
Proof.
  unfold is_space, is_digit. intros H.
  apply orb_true_iff in H as [H|H].
  - simpl in H. repeat (apply orb_true_iff in H as [H|H];
      [apply N.eqb_eq in H; subst; reflexivity|]). discriminate.
  - apply andb_true_iff in H as [H1 H2]. apply N.leb_le in H1.
    apply andb_false_iff. right. apply N.leb_gt. lia.
Qed.

Lemma space_not_colon c : is_space c = true -> N.eqb c colon = false.
Proof.
  unfold is_space, colon. intros H.
  apply orb_true_iff in H as [H|H].
  - simpl in H. repeat (apply orb_true_iff in H as [H|H];
      [apply N.eqb_eq in H; subst; reflexivity|]). discriminate.
  - apply andb_true_iff in H as [H1 H2]. apply N.leb_le in H1.
    apply N.eqb_neq. lia.
Qed.

Lemma space_not_star c : is_space c = true -> N.eqb c star = false.
Proof.
  unfold is_space, star. intros H.
  apply orb_true_iff in H as [H|H].
  - simpl in H. repeat (apply orb_true_iff in H as [H|H];
      [apply N.eqb_eq in H; subst; reflexivity|]). discriminate.
  - apply andb_true_iff in H as [H1 H2]. apply N.leb_le in H1.
    apply N.eqb_neq. lia.
Qed.

Lemma follows_head after :
  follows after ->
  exists c t, after = c :: t /\ is_digit c = false /\ N.eqb c colon = false.
Proof.
  intros (post & c & tl & [-> | ->] & Hc & ->).
  - exists c, tl. repeat split; [now apply space_not_digit | now apply space_not_colon].
  - exists star, (star :: c :: tl). now repeat split.
Qed.

Lemma colon_kont_refuses kont cp :
  forall t, digit_headed t ->
  rmatch (RClass (CChar colon)) kont {| rest := t; cap := cp |} = None.
Proof. intros t Ht. now apply colon_refuses_digit. Qed.

Lemma minutes_seconds_reads kont m s after cp :
  digits1 m -> digits2 s ->
  rmatch minutes_seconds kont {| rest := m ++ colon :: s ++ after; cap := cp |}
  = kont {| rest := after; cap := cp |}.
Proof.
  intros [Hne Hm] [Hl Hs]. cbn [minutes_seconds rmatch rest cap].
  rewrite (plus_class_digits _ m (colon :: s ++ after) Hm Hne).
  - cbn [in_class]. rewrite N.eqb_refl.
    destruct s as [|a [|b [|? ?]]]; try discriminate.
    inversion Hs as [|? ? Ha Hs']; subst. inversion Hs' as [|? ? Hb _]; subst.
    simpl. now rewrite Ha, Hb.
  - reflexivity.
  - intros t (c & t' & -> & Hc). cbn [in_class]. now rewrite (digit_not_colon c Hc).
Qed.

Lemma minutes_seconds_fails kont ds after cp :
  all_digits ds -> ds <> [] -> follows after ->
  rmatch minutes_seconds kont {| rest := ds ++ after; cap := cp |} = None.
Proof.
  intros Hds Hne Hf. destruct (follows_head after Hf) as (c & t & -> & Hd & Hc).
  cbn [minutes_seconds rmatch rest cap].
  rewrite (plus_class_digits _ ds (c :: t) Hds Hne).
  - cbn [in_class]. now rewrite Hc.
  - exact Hd.
  - intros t0 (c0 & t' & -> & Hc0). cbn [in_class]. now rewrite (digit_not_colon c0 Hc0).
Qed.

Lemma hours_reads kont h tl cp :
  digits1 h ->
  rmatch hours kont {| rest := h ++ colon :: tl; cap := cp |}
  = kont {| rest := tl; cap := cp |}.
Proof.
  intros [Hne Hh]. cbn [hours rmatch rest cap].
  rewrite (plus_class_digits _ h (colon :: tl) Hh Hne).
  - cbn [in_class]. now rewrite N.eqb_refl.
  - reflexivity.
  - intros t (c & t' & -> & Hc). cbn [in_class]. now rewrite (digit_not_colon c Hc).
Qed.

(** The group reads a literal that is followed as the pattern asks, and
    reads all of it. *)
Lemma literal_reads kont L after cp :
  grammar L -> follows after ->
  (exists res, kont {| rest := after; cap := cp |} = Some res) ->
  rmatch (RSeq (ROpt hours) minutes_seconds) kont
    {| rest := L ++ after; cap := cp |}
  = kont {| rest := after; cap := cp |}.
Proof.
  intros HL Hf [res Hres]. cbn [rmatch].
  destruct HL as [m s Hm Hs | h m s Hh Hm Hs].
  - replace ((m ++ colon :: s) ++ after) with (m ++ colon :: s ++ after)
      by now rewrite <- app_assoc.
    rewrite (hours_reads _ m (s ++ after) cp Hm).
    rewrite (minutes_seconds_fails _ s after cp); [| apply Hs | | exact Hf].
    + now apply minutes_seconds_reads.
    + destruct Hs as [Hl _]. intros ->. discriminate.
  - replace ((h ++ colon :: m ++ colon :: s) ++ after)
      with (h ++ colon :: (m ++ colon :: s ++ after)).
    2:{ rewrite <- app_assoc. simpl. now rewrite <- app_assoc. }
    rewrite (hours_reads _ h _ cp Hh).
    rewrite (minutes_seconds_reads _ m s after cp Hm Hs). now rewrite Hres.
Qed.

Lemma tail_reads post c tl cp :
  bold_or_none post -> is_space c = true ->
  rmatch (RSeq (ROpt bold) (RAhead (RClass CSpace))) Some
    {| rest := post ++ c :: tl; cap := cp |}
  = Some {| rest := c :: tl; cap := cp |}.
Proof.
  intros [-> | ->] Hc; cbn.
  - rewrite (space_not_star c Hc). now rewrite Hc.
  - now rewrite Hc.
Qed.

Lemma grammar_head L :
  grammar L -> exists c t, L = c :: t /\ is_digit c = true.
Proof.
  intros [m s [Hne Hm] _ | h m s [Hne Hh] _ _].
  - destruct m as [|c m]; [contradiction|]. inversion Hm; subst.
    now exists c, (m ++ colon :: s).
  - destruct h as [|c h]; [contradiction|]. inversion Hh; subst.
    now exists c, (h ++ colon :: m ++ colon :: s).
Qed.

Lemma digit_not_star c : is_digit c = true -> N.eqb c star = false.
Proof.
  unfold is_digit, star. intros H. apply andb_true_iff in H as [H1 H2].
  apply N.leb_le in H1. apply N.eqb_neq. lia.
Qed.

Lemma rmatch_seq r1 r2 kont st :
  rmatch (RSeq r1 r2) kont st = rmatch r1 (rmatch r2 kont) st.
Proof. reflexivity. Qed.

Lemma rmatch_group r1 kont st :
  rmatch (RGroup r1) kont st
  = rmatch r1
      (fun st' =>
         kont {| rest := rest st';
                 cap := Some (firstn (length (rest st) - length (rest st'))
                                     (rest st)) |}) st.
Proof. reflexivity. Qed.

Lemma rmatch_opt r1 kont st :
  rmatch (ROpt r1) kont st
  = match rmatch r1 kont st with Some x => Some x | None => kont st end.
Proof. reflexivity. Qed.

Lemma bold_reads kont tl cp :
  rmatch bold kont {| rest := star :: star :: tl; cap := cp |}
  = kont {| rest := tl; cap := cp |}.
Proof. reflexivity. Qed.

Lemma bold_fails kont c tl cp :
  N.eqb c star = false ->
  rmatch bold kont {| rest := c :: tl; cap := cp |} = None.
Proof. intros H. cbn. now rewrite H. Qed.

(** After the optional opening delimiter: the group and the tail. *)
Lemma body_reads L post c tl cp :
  grammar L -> bold_or_none post -> is_space c = true ->
  rmatch (RSeq (RGroup (RSeq (ROpt hours) minutes_seconds))
            (RSeq (ROpt bold) (RAhead (RClass CSpace)))) Some
    {| rest := L ++ post ++ c :: tl; cap := cp |}
  = Some {| rest := c :: tl; cap := Some L |}.
Proof.
  intros HL Hpost Hc.
  assert (Hf : follows (post ++ c :: tl)) by (exists post, c, tl; auto).
  rewrite rmatch_seq, rmatch_group.
  rewrite literal_reads; auto; cbn [rest cap]; rewrite firstn_app_exact.
  - now apply tail_reads.
  - rewrite tail_reads by auto. eauto.
Qed.

(** At the start of a delimited literal that a blank follows, the
    pattern matches all of it and captures the literal. *)
Lemma pattern_complete pre L post c tl :
  bold_or_none pre -> grammar L -> bold_or_none post -> is_space c = true ->
  rmatch ALL_TIMESTAMPS_PATTERN Some
    {| rest := pre ++ L ++ post ++ c :: tl; cap := None |}
  = Some {| rest := c :: tl; cap := Some L |}.
Proof.
  intros Hpre HL Hpost Hc. unfold ALL_TIMESTAMPS_PATTERN.
  rewrite rmatch_seq, rmatch_opt.
  destruct Hpre as [-> | ->].
  - cbn [app].
    replace (rmatch bold _ {| rest := L ++ post ++ c :: tl; cap := None |})
      with (@None mstate); [now apply body_reads|].
    destruct (grammar_head L HL) as (d & t & -> & Hd).
    symmetry. apply bold_fails. now apply digit_not_star.
  - cbn [app]. rewrite bold_reads. now rewrite body_reads.
Qed.

(** ** exec *)

Lemma exec_at_here r s i st :
  rmatch r Some {| rest := s; cap := None |} = Some st ->
  exec_at r s i
  = Some {| m_index := i;
            m_0 := firstn (length s - length (rest st)) s;
            m_1 := cap st |}.
Proof. intros H. destruct s; simpl; now rewrite H. Qed.

Lemma exec_at_sound r : forall s i m,
  exec_at r s i = Some m ->
  exists k st,
    k <= length s /\ m_index m = i + k
    /\ rmatch r Some {| rest := skipn k s; cap := None |} = Some st
    /\ m_0 m = firstn (length (skipn k s) - length (rest st)) (skipn k s)
    /\ m_1 m = cap st.
Proof.
  induction s as [|c s IH]; intros i m H.
  - simpl in H. destruct (rmatch r Some _) as [st|] eqn:Hr; [|discriminate].
    injection H as <-. exists 0, st. simpl. rewrite Nat.add_0_r. auto.
  - simpl in H. destruct (rmatch r Some _) as [st|] eqn:Hr.
    + injection H as <-. exists 0, st. cbn [skipn m_index m_0 m_1].
      rewrite Nat.add_0_r. repeat split; auto. lia.
    + apply IH in H as (k & st & Hk & Hi & Hm & H0 & H1).
      exists (S k), st. cbn [skipn length]. repeat split; auto; lia.
Qed.

(** A match of [exec]: where it is and what it holds. *)
Lemma exec_sound text lastIndex m :
  exec ALL_TIMESTAMPS_PATTERN text lastIndex = Some m ->
  exists pre L post c tl,
    bold_or_none pre /\ grammar L /\ bold_or_none post /\ is_space c = true
    /\ m_1 m = Some L /\ m_0 m = pre ++ L ++ post
    /\ skipn (m_index m) text = m_0 m ++ c :: tl
    /\ lastIndex <= m_index m.
Proof.
  unfold exec. destruct (length text <? lastIndex) eqn:Hlen; [discriminate|].
  intros H. apply exec_at_sound in H as (k & st & Hk & Hi & Hm & H0 & H1).
  apply rmatch_sound in Hm as (st' & Hr & E). injection E as <-.
  apply pattern_sound in Hr as (pre & L & post & c & tl & Hpre & HL & Hpost & Hc & Hs & Hr & Hcap).
  cbn [rest] in Hs.
  exists pre, L, post, c, tl.
  assert (E0 : m_0 m = pre ++ L ++ post).
  { rewrite H0, Hr, Hs.
    replace (pre ++ L ++ post ++ c :: tl) with ((pre ++ L ++ post) ++ c :: tl)
      by now rewrite <- !app_assoc.
    apply firstn_app_exact. }
  repeat split; auto.
  - congruence.
  - rewrite Hi, Nat.add_comm, <- skipn_skipn, Hs, E0. now rewrite <- !app_assoc.
  - lia.
Qed.

Lemma exec_complete pre L post c tl :
  bold_or_none pre -> grammar L -> bold_or_none post -> is_space c = true ->
  exec ALL_TIMESTAMPS_PATTERN (pre ++ L ++ post ++ c :: tl) 0
  = Some {| m_index := 0; m_0 := pre ++ L ++ post; m_1 := Some L |}.
Proof.
  intros Hpre HL Hpost Hc. unfold exec. cbn [Nat.ltb Nat.leb skipn].
  rewrite (exec_at_here _ _ 0 _ (pattern_complete pre L post c tl Hpre HL Hpost Hc)).
  cbn [rest cap]. do 2 f_equal.
  replace (pre ++ L ++ post ++ c :: tl) with ((pre ++ L ++ post) ++ c :: tl)
    by now rewrite <- !app_assoc.
  apply firstn_app_exact.
Qed.

Lemma exec_at_finds r : forall before s i st,
  rmatch r Some {| rest := s; cap := None |} = Some st ->
  exists m, exec_at r (before ++ s) i = Some m
            /\ m_index m <= i + length before.
Proof.
  induction before as [|c before IH]; intros s i st H.
  - eexists. split; [apply (exec_at_here r s i st H)|]. simpl. lia.
  - cbn [app exec_at].
    destruct (rmatch r Some {| rest := c :: before ++ s; cap := None |}) as [st'|].
    + eexists. split; [reflexivity|]. simpl. lia.
    + destruct (IH s (S i) st H) as (m & Hm & Hle).
      exists m. split; [exact Hm|]. simpl. lia.
Qed.

(** A delimited literal before a blank, anywhere in the text: exec finds
    a match that starts at it or before it. *)
Lemma exec_finds before pre L post c tl :
  bold_or_none pre -> grammar L -> bold_or_none post -> is_space c = true ->
  exists m,
    exec ALL_TIMESTAMPS_PATTERN (before ++ pre ++ L ++ post ++ c :: tl) 0 = Some m
    /\ m_index m <= length before.
Proof.
  intros Hpre HL Hpost Hc. unfold exec. cbn [Nat.ltb Nat.leb skipn].
  exact (exec_at_finds ALL_TIMESTAMPS_PATTERN before _ 0 _
           (pattern_complete pre L post c tl Hpre HL Hpost Hc)).
Qed.

Lemma exec_needs_space text lastIndex :
  (forall c, In c text -> is_space c = false) ->
  exec ALL_TIMESTAMPS_PATTERN text lastIndex = None.
Proof.
  intros Hno. destruct (exec _ text lastIndex) as [m|] eqn:H; [|reflexivity].
  apply exec_sound in H as (pre & L & post & c & tl & _ & _ & _ & Hc & _ & _ & Hs & _).
  assert (Hin : In c text).
  { rewrite <- (firstn_skipn (m_index m) text), Hs.
    apply in_or_app. right. apply in_or_app. right. now left. }
  rewrite (Hno c Hin) in Hc. discriminate.
Qed.

(** ** Literals at hand *)

Lemma all_digits_here (s : str) :
  forallb is_digit s = true -> all_digits s.
Proof.
  intros H. apply Forall_forall. intros c Hc.
  exact (proj1 (forallb_forall is_digit s) H c Hc).
Qed.

Lemma grammar_ms_here (m s : string) :
  u m <> [] -> forallb is_digit (u m) = true ->
  length (u s) = 2 -> forallb is_digit (u s) = true ->
  grammar (u m ++ colon :: u s).
Proof.
  intros H1 H2 H3 H4.
  apply grammar_ms; (split; [assumption | now apply all_digits_here]).
Qed.

Lemma grammar_hms_here (h m s : string) :
  u h <> [] -> forallb is_digit (u h) = true ->
  u m <> [] -> forallb is_digit (u m) = true ->
  length (u s) = 2 -> forallb is_digit (u s) = true ->
  grammar (u h ++ colon :: u m ++ colon :: u s).
Proof.
  intros H1 H2 H3 H4 H5 H6.
  apply grammar_hms; (split; [assumption | now apply all_digits_here]).
Qed.

Lemma grammar_02_10 : grammar (u "02:10").
Proof. apply (grammar_ms_here "02" "10"); [discriminate | | |]; reflexivity. Defined.


Lemma grammar_1_02_03 : grammar (u "1:02:03").
Proof.
  apply (grammar_hms_here "1" "02" "03");
    [discriminate | | discriminate | | |]; reflexivity.
Defined.

(* ================================================================== *)
(** * The claims *)




Lemma split_parts_two m s :
  all_digits m -> all_digits s -> length (split colon (m ++ colon :: s)) = 2.
Proof.
  intros Hm Hs. now rewrite (split_digits_colon m _ Hm), (split_digits s Hs).
Qed.

Lemma split_parts_three h m s :
  all_digits h -> all_digits m -> all_digits s ->
  length (split colon (h ++ colon :: m ++ colon :: s)) = 3.
Proof.
  intros Hh Hm Hs.
  now rewrite (split_digits_colon h _ Hh), (split_digits_colon m _ Hm),
    (split_digits s Hs).
Qed.

(** C8, as the code has it.  For every literal of the grammar whose
    number of seconds, as milliseconds, is below 2^53: the product by
    1000 is exact, and formatting it and parsing the result gives the
    number of seconds again; the formatted string has three parts
    exactly when there is at least one hour, and two parts otherwise. *)
Theorem roundtrip_seconds (L : str) (n : Z) :
  grammar L -> parseTimestamp L = Some n -> (1000 * n < 2 ^ 53)%Z ->
  nmul (parseTimestamp L) 1000 = Some (1000 * n)%Z
  /\ parseTimestamp (formatTimestamp (1000 * n)) = Some n
  /\ length (split colon (formatTimestamp (1000 * n)))
     = (if (n <? 3600)%Z then 2 else 3).
Proof.
  intros HL Hp Hlt. pose proof (parse_nonneg L n HL Hp) as Hn.
  assert (Hms : (0 <= 1000 * n < 2 ^ 53)%Z) by lia.
  split.
  { rewrite Hp. cbn [nmul]. rewrite Z.mul_comm. apply double_small.
    rewrite Z.abs_eq; lia. }
  assert (Hdiv : (1000 * n / 1000 = n)%Z).
  { rewrite Z.mul_comm. apply Z.div_mul. lia. }
  destruct (format_parse (1000 * n) Hms) as (_ & Hfp & Hshort & Hlong).
  rewrite Hdiv in *. split; [exact Hfp|].
  destruct (n <? 3600)%Z eqn:Hlt'.
  - apply Z.ltb_lt in Hlt'. destruct (Hshort Hlt') as (m & s & -> & Hm & Hs).
    apply split_parts_two; now apply digits2_all.
  - apply Z.ltb_ge in Hlt'.
    destruct Hlong as (h & m & s & -> & Hh & _ & Hm & Hs); [lia|].
    apply split_parts_three; try apply Hh; now apply digits2_all.
Qed.

Lemma roundtrip_seconds_witness :
  nmul (parseTimestamp (u "1:02:03")) 1000 = Some (1000 * 3723)%Z
  /\ parseTimestamp (formatTimestamp (1000 * 3723)) = Some 3723%Z
  /\ length (split colon (formatTimestamp (1000 * 3723)))
     = (if (3723 <? 3600)%Z then 2 else 3).
Proof.
  apply (roundtrip_seconds (u "1:02:03") 3723 grammar_1_02_03);
    reflexivity.
Defined.

(** C8, as the claim has it, fails from 2^53 milliseconds on: the
    literal 2000000000000:01 has 120000000000001 seconds, the product
    by 1000 is rounded to the double 120000000000000992, and the string
    formatted from it parses to 120000000000000 seconds. *)
Lemma roundtrip_loses_a_second :
  grammar (u "2000000000000" ++ colon :: u "01")
  /\ parseTimestamp (u "2000000000000:01") = Some 120000000000001%Z
  /\ nmul (parseTimestamp (u "2000000000000:01")) 1000
     = Some 120000000000000992%Z
  /\ formatTimestamp 120000000000000992 = u "33333333333:20:00"
  /\ parseTimestamp (formatTimestamp 120000000000000992)
     = Some 120000000000000%Z.
Proof.
  split; [apply grammar_ms_here; reflexivity || discriminate|].
  repeat split; vm_compute; reflexivity.
Qed.

(** C10, as the code has it.  For every number of milliseconds that is
    not negative and below 2^53, formatTimestamp gives a literal of the
    grammar: minutes and seconds of two digits below one hour; hours of
    at least two digits, then minutes and seconds of two digits, from
    one hour on.  The pattern recognizes it before a blank, and
    parseTimestamp maps it back to the whole seconds: only the part
    below one second is lost. *)
Theorem format_then_parse (ms : Z) :
  (0 <= ms < 2 ^ 53)%Z ->
  grammar (formatTimestamp ms)
  /\ parseTimestamp (formatTimestamp ms) = Some (ms / 1000)%Z
  /\ ((ms / 1000 < 3600)%Z ->
      exists m s, formatTimestamp ms = m ++ colon :: s
                  /\ digits2 m /\ digits2 s)
  /\ ((3600 <= ms / 1000)%Z ->
      exists h m s, formatTimestamp ms = h ++ colon :: m ++ colon :: s
                    /\ digits1 h /\ 2 <= length h /\ digits2 m /\ digits2 s)
  /\ (forall c tl, is_space c = true ->
      exec ALL_TIMESTAMPS_PATTERN (formatTimestamp ms ++ c :: tl) 0
      = Some {| m_index := 0;
                m_0 := formatTimestamp ms;
                m_1 := Some (formatTimestamp ms) |}).
Proof.
  intros H0. destruct (format_parse ms H0) as (Hg & Hp & Hs & Hl).
  repeat (split; [assumption|]).
  intros c tl Hc.
  pose proof (exec_complete [] (formatTimestamp ms) [] c tl
                (or_introl eq_refl) Hg (or_introl eq_refl) Hc) as E.
  cbn [app] in E. now rewrite app_nil_r in E.
Qed.

Lemma format_then_parse_witness :
  grammar (formatTimestamp 3723999)
  /\ parseTimestamp (formatTimestamp 3723999) = Some (3723999 / 1000)%Z.
Proof.
  destruct (format_then_parse 3723999) as (Hg & Hp & _).
  - split; [lia | reflexivity].
  - exact (conj Hg Hp).
Defined.

(** C10, as the claim has it, fails beyond 2^53: at 10^22 milliseconds
    the quotient by 3600 is rounded up to 2777777777777778 hours, and
    the string parses to a number that is not 10^19; at the double
    nearest to 3.6 * 10^27 the hours are written in exponent notation
    and the string is no literal of the grammar. *)
Lemma format_then_parse_beyond :
  formatTimestamp (10 ^ 22) = u "2777777777777778:46:40"
  /\ parseTimestamp (formatTimestamp (10 ^ 22)) = Some 10000000000000002048%Z
  /\ (10 ^ 22 / 1000 = 10000000000000000000)%Z
  /\ formatTimestamp 3599999999999999827932872704 = u "1e+21:37:20"
  /\ ~ grammar (formatTimestamp 3599999999999999827932872704).
Proof.
  repeat split; try (vm_compute; reflexivity).
  assert (E : formatTimestamp 3599999999999999827932872704 = u "1e+21:37:20")
    by (vm_compute; reflexivity).
  rewrite E. intros H.
  destruct (grammar_head _ H) as (c & t & Ec & Hc). clear Hc.
  inversion H as [m s [_ Hm] _ Em | h m s [_ Hh] _ _ Em].
  - destruct m as [|x1 [|x2 m]];
      [discriminate Em | |].
    + injection Em as _ Em. discriminate Em.
    + injection Em as _ E2 _. subst x2.
      inversion Hm as [|? ? _ Hm2]; subst.
      inversion Hm2 as [|? ? He _]; subst. discriminate He.
  - destruct h as [|x1 [|x2 h]];
      [discriminate Em | |].
    + injection Em as _ Em. discriminate Em.
    + injection Em as _ E2 _. subst x2.
      inversion Hh as [|? ? _ Hh2]; subst.
      inversion Hh2 as [|? ? He _]; subst. discriminate He.
Qed.

(** C6, as the code has it.  A match of the pattern is a literal of the
    grammar (digits only, [m+:ss] or [h+:m+:ss], the seconds of exactly
    two digits), captured as group 1, with the bold delimiter optional
    before it and optional after it, and immediately followed by a blank,
    which the match does not include.  Conversely such a delimited
    literal before a blank is matched whole when the text starts with
    it, and anywhere in the text a match is found at it or before it.  A
    text without a blank has no match: a literal that ends the text is
    not recognized. *)
Theorem recognizer_grammar :
  (forall text lastIndex m,
     exec ALL_TIMESTAMPS_PATTERN text lastIndex = Some m ->
     exists pre L post c tl,
       bold_or_none pre /\ grammar L /\ bold_or_none post /\ is_space c = true
       /\ m_1 m = Some L /\ m_0 m = pre ++ L ++ post
       /\ skipn (m_index m) text = m_0 m ++ c :: tl
       /\ lastIndex <= m_index m)
  /\ (forall pre L post c tl,
     bold_or_none pre -> grammar L -> bold_or_none post -> is_space c = true ->
     exec ALL_TIMESTAMPS_PATTERN (pre ++ L ++ post ++ c :: tl) 0
     = Some {| m_index := 0; m_0 := pre ++ L ++ post; m_1 := Some L |})
  /\ (forall before pre L post c tl,
     bold_or_none pre -> grammar L -> bold_or_none post -> is_space c = true ->
     exists m,
       exec ALL_TIMESTAMPS_PATTERN (before ++ pre ++ L ++ post ++ c :: tl) 0
       = Some m
       /\ m_index m <= length before)
  /\ (forall text lastIndex,
     (forall c, In c text -> is_space c = false) ->
     exec ALL_TIMESTAMPS_PATTERN text lastIndex = None).
Proof.
  split; [exact exec_sound|]. split; [exact exec_complete|].
  split; [exact exec_finds | exact exec_needs_space].
Qed.

Lemma recognizer_grammar_witness :
  exec ALL_TIMESTAMPS_PATTERN
    ([star; star] ++ u "02:10" ++ [star; star] ++ 32%N :: u "hello") 0
  = Some {| m_index := 0;
            m_0 := [star; star] ++ u "02:10" ++ [star; star];
            m_1 := Some (u "02:10") |}.
Proof.
  apply recognizer_grammar;
    [now right | exact grammar_02_10 | now right | reflexivity].
Defined.

(** C6 as stated fails: a literal of the grammar that ends the scanned
    text is not matched, and a literal with only the opening delimiter
    is. *)
Lemma recognizer_end_of_text :
  grammar (u "02:10")
  /\ exec ALL_TIMESTAMPS_PATTERN (u "02:10") 0 = None
  /\ exec ALL_TIMESTAMPS_PATTERN (u "**02:10**") 0 = None
  /\ exec ALL_TIMESTAMPS_PATTERN (u "**02:10 x") 0
     = Some {| m_index := 0; m_0 := u "**02:10"; m_1 := Some (u "02:10") |}.
Proof.
  split; [exact grammar_02_10 | repeat split; reflexivity].
Qed.

(* ================================================================== *)
(** * The document: lemmas *)

Lemma node_ind (P : node -> Prop) :
  (forall s, P (Text s)) ->
  (forall a cs, Forall P cs -> P (Elem a cs)) ->
  forall n, P n.
Proof.
  intros HT HE. fix IH 1. intros [s | a cs]; [apply HT|].
  apply HE. induction cs as [|c cs IHcs]; constructor; [apply IH | exact IHcs].
Qed.

Lemma in_flat_mapi (A B : Type) (f : nat -> A -> list B) x : forall l k,
  In x (flat_mapi f k l) <->
  exists j y, nth_error l j = Some y /\ In x (f (k + j) y).
Proof.
  induction l as [|a l IH]; intros k; simpl.
  - split; [contradiction|]. intros (j & y & H & _). destruct j; discriminate.
  - rewrite in_app_iff, IH. split.
    + intros [H | (j & y & Hj & H)].
      * exists 0, a. rewrite Nat.add_0_r. auto.
      * exists (S j), y. rewrite Nat.add_succ_r. auto.
    + intros ([|j] & y & Hj & H).
      * injection Hj as ->. rewrite Nat.add_0_r in H. now left.
      * right. exists j, y. rewrite Nat.add_succ_r in H. auto.
Qed.

Lemma in_select_forest s parent d q :
  In q (select_forest s parent d) <->
  exists i n r, nth_error d i = Some n /\ In r (select_node s parent n)
                /\ q = i :: r.
Proof.
  unfold select_forest. rewrite in_flat_mapi. split.
  - intros (j & y & Hj & H). apply in_map_iff in H as (r & <- & Hr).
    exists j, y, r. auto.
  - intros (i & n & r & Hi & Hr & ->). exists i, n. split; [exact Hi|].
    apply in_map_iff. exists r. auto.
Qed.

Lemma select_node_children s parent a cs r :
  In r (select_forest s (Some a) cs) -> In r (select_node s parent (Elem a cs)).
Proof. intros H. simpl. apply in_or_app. right. exact H. Qed.

(** What a subtree selects, the document selects. *)
Lemma select_below s : forall p d parent a cs q,
  lookup d p = Some (Elem a cs) ->
  In q (select_forest s (Some a) cs) ->
  In (p ++ q) (select_forest s parent d).
Proof.
  induction p as [|i p IH]; intros d parent a cs q Hl Hq; [discriminate|].
  simpl in Hl. destruct (nth_error d i) as [n|] eqn:Hn; [|discriminate].
  apply in_select_forest. destruct p as [|j p].
  - injection Hl as ->. exists i, (Elem a cs), q.
    repeat split; auto. now apply select_node_children.
  - destruct n as [t | a' cs']; [discriminate|].
    exists i, (Elem a' cs'), ((j :: p) ++ q). repeat split; auto.
    apply select_node_children. now apply (IH cs' (Some a') a cs q).
Qed.

Lemma querySelector_in s d p q :
  querySelector s d p = Some q -> In q (querySelectorAll s d).
Proof.
  unfold querySelector, querySelectorAll.
  destruct (lookup d p) as [[t | a cs]|] eqn:Hl; try discriminate.
  destruct (select_forest s (Some a) cs) as [|r rs] eqn:Hs; [discriminate|].
  intros E. injection E as <-.
  apply (select_below s p d None a cs r Hl). rewrite Hs. now left.
Qed.

(** ** findYouTubePlayer *)

Lemma inclusive_ancestors_length p : forall n q,
  In q (inclusive_ancestors n p) -> length q <= length p.
Proof.
  induction n as [|n IH]; intros q H; cbn [inclusive_ancestors In] in H;
    [contradiction|].
  destruct H as [<- | H]; [|now apply IH].
  rewrite length_firstn. lia.
Qed.

Lemma closest_length c d p q :
  closest c d p = Some q -> length q <= length p.
Proof.
  unfold closest. intros H. apply find_some in H as [H _].
  now apply inclusive_ancestors_length in H.
Qed.

Lemma parentElement_length p q :
  parentElement p = Some q -> length q < length p.
Proof.
  unfold parentElement. destruct p as [|i p]; [discriminate|].
  intros H. assert (E : q = removelast (i :: p)).
  { destruct (removelast (i :: p)); [discriminate | congruence]. }
  subst q. clear H.
  assert (Hne : i :: p <> []) by discriminate.
  rewrite (app_removelast_last 0 Hne) at 2. rewrite length_app. simpl. lia.
Qed.

(** The loop of findYouTubePlayer ends: it climbs from a container to a
    container above it. *)
Lemma searchUp_ends d : forall fuel current,
  length current < fuel -> searchUp fuel d current <> Unfinished.
Proof.
  induction fuel as [|fuel IH]; intros current Hlt; [lia|].
  simpl. destruct (closest container_class d current) as [container|] eqn:Hc;
    [|discriminate].
  destruct (parentElement container) as [pe|] eqn:Hpe; [|discriminate].
  destruct (closest container_class d pe) as [pc|] eqn:Hpc; [|discriminate].
  destruct (querySelector player_selector d pc); [discriminate|].
  apply IH. apply closest_length in Hc, Hpc.
  apply parentElement_length in Hpe. lia.
Qed.

Lemma searchUp_found d : forall fuel current iframe,
  searchUp fuel d current = Found iframe ->
  In iframe (querySelectorAll player_selector d).
Proof.
  induction fuel as [|fuel IH]; intros current iframe H; [discriminate|].
  simpl in H. destruct (closest container_class d current) as [container|];
    [|discriminate].
  destruct (parentElement container) as [pe|]; [|discriminate].
  destruct (closest container_class d pe) as [pc|]; [|discriminate].
  destruct (querySelector player_selector d pc) as [q|] eqn:Hq.
  - injection H as <-. now apply querySelector_in in Hq.
  - now apply IH in H.
Qed.

(** C9.  findYouTubePlayer is a function of the document and the block
    element, total: its loop ends, and nothing is raised or changed.
    What it returns is an embedded player of the document; when the
    ancestor search finds none, it is the first player of the document,
    so a single player anywhere is returned; with no player in the
    document the result is none. *)
Theorem findYouTubePlayer_fallback (d : dom) (blockElement : path) :
  searchUp (S (length blockElement)) d blockElement <> Unfinished
  /\ (forall iframe,
        findYouTubePlayer d blockElement = Some iframe ->
        In iframe (querySelectorAll player_selector d))
  /\ (forall iframe others,
        searchUp (S (length blockElement)) d blockElement = Exhausted ->
        querySelectorAll player_selector d = iframe :: others ->
        findYouTubePlayer d blockElement = Some iframe)
  /\ (forall iframe,
        querySelectorAll player_selector d = [iframe] ->
        findYouTubePlayer d blockElement = Some iframe)
  /\ (querySelectorAll player_selector d = [] ->
        findYouTubePlayer d blockElement = None).
Proof.
  assert (Hin : forall iframe,
            findYouTubePlayer d blockElement = Some iframe ->
            In iframe (querySelectorAll player_selector d)).
  { intros iframe. unfold findYouTubePlayer.
    destruct (searchUp _ d blockElement) eqn:Hs.
    - intros E. injection E as <-. now apply searchUp_found in Hs.
    - destruct (querySelectorAll player_selector d); [discriminate|].
      intros E. injection E as <-. now left.
    - destruct (querySelectorAll player_selector d); [discriminate|].
      intros E. injection E as <-. now left. }
  split; [apply searchUp_ends; lia|].
  split; [exact Hin|]. split; [|split].
  - intros iframe others Hs Hq. unfold findYouTubePlayer. now rewrite Hs, Hq.
  - intros iframe Hq. unfold findYouTubePlayer.
    destruct (searchUp _ d blockElement) eqn:Hs; try now rewrite Hq.
    apply searchUp_found in Hs. rewrite Hq in Hs.
    destruct Hs as [<- | []]. reflexivity.
  - intros Hq. destruct (findYouTubePlayer d blockElement) as [r|] eqn:Hf;
      [|reflexivity].
    specialize (Hin r eq_refl). rewrite Hq in Hin. contradiction.
Qed.

(** ** splice *)

Lemma nth_error_decompose (A : Type) (l : list A) i x :
  nth_error l i = Some x -> l = firstn i l ++ x :: skipn (S i) l.
Proof.
  revert i. induction l as [|a l IH]; intros [|i] H; try discriminate.
  - injection H as ->. reflexivity.
  - simpl in H. simpl. f_equal. now apply IH.
Qed.

Lemma nth_error_middle (A : Type) (l1 l2 : list A) x :
  nth_error (l1 ++ x :: l2) (length l1) = Some x.
Proof. induction l1 as [|a l1 IH]; simpl; auto. Qed.

Lemma firstn_middle (A : Type) (l1 l2 : list A) :
  firstn (length l1) (l1 ++ l2) = l1.
Proof.
  rewrite firstn_app, Nat.sub_diag, firstn_all. simpl. apply app_nil_r.
Qed.

Lemma skipn_middle (A : Type) (l1 l2 : list A) x :
  skipn (S (length l1)) (l1 ++ x :: l2) = l2.
Proof. induction l1 as [|a l1 IH]; simpl; auto. Qed.

Lemma splice_here done n todo f :
  splice (done ++ n :: todo) [length done] f = done ++ f n ++ todo.
Proof.
  cbn [splice]. rewrite nth_error_middle, firstn_middle, skipn_middle.
  reflexivity.
Qed.

Lemma splice_below done a cs todo j q f :
  splice (done ++ Elem a cs :: todo) (length done :: j :: q) f
  = done ++ Elem a (splice cs (j :: q) f) :: todo.
Proof.
  cbn [splice]. rewrite nth_error_middle, firstn_middle, skipn_middle.
  reflexivity.
Qed.

Lemma splice_below_text done t todo j q f :
  splice (done ++ Text t :: todo) (length done :: j :: q) f
  = done ++ Text t :: todo.
Proof. cbn [splice]. now rewrite nth_error_middle. Qed.

Lemma splice_unresolved f : forall p d, lookup d p = None -> splice d p f = d.
Proof.
  induction p as [|i p IH]; intros d H; [reflexivity|].
  cbn [splice lookup] in *.
  destruct (nth_error d i) as [n|] eqn:Hn; [|reflexivity].
  destruct p as [|j p]; [discriminate|].
  destruct n as [t | a cs]; [reflexivity|].
  rewrite (IH cs H). symmetry. now apply nth_error_decompose.
Qed.

(** ** Unwrapping the markers *)

Lemma select_forest_nonempty s parent d q :
  In q (select_forest s parent d) -> q <> [].
Proof.
  intros H. apply in_select_forest in H as (i & n & r & _ & _ & ->).
  discriminate.
Qed.

(** The paths below a node that has become a text node lead nowhere. *)
Lemma replace_below_text done t todo : forall qs,
  Forall (fun q => q <> []) qs ->
  fold_left replaceWithText (map (cons (length done)) qs)
    (done ++ Text t :: todo)
  = done ++ Text t :: todo.
Proof.
  induction qs as [|q qs IH]; intros H; [reflexivity|].
  inversion H as [|? ? Hq Hqs]; subst. cbn [map fold_left].
  destruct q as [|j q]; [contradiction|].
  unfold replaceWithText at 2. rewrite splice_below_text. now apply IH.
Qed.

(** Replacements below an element are replacements in its children. *)
Lemma replace_below done a todo : forall qs cs,
  Forall (fun q => q <> []) qs ->
  fold_left replaceWithText (map (cons (length done)) qs)
    (done ++ Elem a cs :: todo)
  = done ++ Elem a (fold_left replaceWithText qs cs) :: todo.
Proof.
  induction qs as [|q qs IH]; intros cs H; [reflexivity|].
  inversion H as [|? ? Hq Hqs]; subst. cbn [map fold_left].
  destruct q as [|j q]; [contradiction|].
  unfold replaceWithText at 2. rewrite splice_below. now apply IH.
Qed.

Lemma unwrap_forest parent : forall cs done,
  Forall unwraps_in_place cs ->
  fold_left replaceWithText
    (flat_mapi (fun i c => map (cons i) (select_node marker_selector parent c))
       (length done) cs)
    (done ++ cs)
  = done ++ map unwrapped cs.
Proof.
  induction cs as [|c cs IH]; intros done H; [reflexivity|].
  inversion H as [|? ? Hc Hcs]; subst.
  cbn [flat_mapi map]. rewrite fold_left_app, Hc.
  replace (done ++ unwrapped c :: cs) with ((done ++ [unwrapped c]) ++ cs)
    by now rewrite <- app_assoc.
  replace (S (length done)) with (length (done ++ [unwrapped c]))
    by (rewrite length_app; simpl; lia).
  rewrite IH by exact Hcs. now rewrite <- app_assoc.
Qed.

Lemma unwrap_node c : unwraps_in_place c.
Proof.
  induction c as [t | a cs IH] using node_ind; intros parent done todo.
  - reflexivity.
  - cbn [select_node unwrapped matches marker_selector].
    assert (Hne : Forall (fun q => q <> [])
                    (select_forest marker_selector (Some a) cs)).
    { apply Forall_forall. intros q Hq. now apply select_forest_nonempty in Hq. }
    fold (select_forest marker_selector (Some a) cs).
    destruct (has_class marker_class a).
    + cbn [app map fold_left]. unfold replaceWithText at 2.
      rewrite splice_here. cbn [app].
      now apply replace_below_text.
    + cbn [app]. rewrite replace_below by exact Hne. do 3 f_equal.
      exact (unwrap_forest (Some a) cs [] IH).
Qed.

(** The loop of cleanup over the markers replaces every marker by a text
    node with its text. *)
Lemma unwrap_all d :
  fold_left replaceWithText (querySelectorAll marker_selector d) d
  = map unwrapped d.
Proof.
  apply (unwrap_forest None d []). apply Forall_forall. intros c _.
  apply unwrap_node.
Qed.

Lemma flat_mapi_nil (A B : Type) (f : nat -> A -> list B) : forall l k,
  Forall (fun x => forall i, f i x = []) l -> flat_mapi f k l = [].
Proof.
  induction l as [|a l IH]; intros k H; [reflexivity|].
  inversion H; subst. simpl. rewrite H2. now apply IH.
Qed.

Lemma unwrapped_no_marker n : forall parent,
  select_node marker_selector parent (unwrapped n) = [].
Proof.
  induction n as [t | a cs IH] using node_ind; intros parent; [reflexivity|].
  cbn [unwrapped]. destruct (has_class marker_class a) eqn:Hm; [reflexivity|].
  cbn [select_node matches marker_selector]. rewrite Hm. cbn [app].
  apply flat_mapi_nil. apply Forall_forall. intros c Hc i.
  apply in_map_iff in Hc as (c0 & <- & Hc0).
  rewrite Forall_forall in IH. now rewrite (IH c0 Hc0).
Qed.

Lemma no_marker_left d : querySelectorAll marker_selector (map unwrapped d) = [].
Proof.
  unfold querySelectorAll, select_forest. apply flat_mapi_nil.
  apply Forall_forall. intros c Hc i.
  apply in_map_iff in Hc as (c0 & <- & _). now rewrite unwrapped_no_marker.
Qed.

Lemma unwrapped_text n : textContent (unwrapped n) = textContent n.
Proof.
  induction n as [t | a cs IH] using node_ind; [reflexivity|].
  cbn [unwrapped]. destruct (has_class marker_class a); [reflexivity|].
  cbn [textContent]. induction IH as [|c cs Hc _ IHcs]; [reflexivity|].
  cbn [map flat_map]. now rewrite Hc, IHcs.
Qed.

Lemma unwrapped_text_forest d :
  flat_map textContent (map unwrapped d) = flat_map textContent d.
Proof.
  induction d as [|c d IH]; [reflexivity|].
  cbn [map flat_map]. now rewrite unwrapped_text, IH.
Qed.

(** ** Counting the elements that match a selector *)

Section Counting.
Variable s : selector.
Hypothesis parent_free : forall p1 p2 a, matches s p1 a = matches s p2 a.

Lemma select_node_parent p n :
  length (select_node s p n) = cnt_node s n.
Proof.
  unfold cnt_node. destruct n as [t | a cs]; [reflexivity|].
  cbn [select_node]. now rewrite (parent_free p None a).
Qed.

Lemma length_select_forest parent : forall d k,
  length (flat_mapi (fun i c => map (cons i) (select_node s parent c)) k d)
  = cnt_forest s d.
Proof.
  induction d as [|c d IH]; intros k; [reflexivity|].
  cbn [flat_mapi]. rewrite length_app, length_map, IH, select_node_parent.
  reflexivity.
Qed.

Lemma count_forest d : count s d = cnt_forest s d.
Proof. apply length_select_forest. Qed.

Lemma cnt_node_elem a cs :
  cnt_node s (Elem a cs)
  = (if matches s None a then 1 else 0) + cnt_forest s cs.
Proof.
  unfold cnt_node. cbn [select_node]. rewrite length_app.
  rewrite (length_select_forest (Some a) cs 0).
  now destruct (matches s None a).
Qed.

Lemma cnt_forest_app d1 d2 :
  cnt_forest s (d1 ++ d2) = cnt_forest s d1 + cnt_forest s d2.
Proof. unfold cnt_forest. now rewrite map_app, list_sum_app. Qed.

Lemma cnt_forest_cons n d : cnt_forest s (n :: d) = cnt_node s n + cnt_forest s d.
Proof. reflexivity. Qed.

(** Replacing a node removes what it held and adds what comes in. *)
Lemma cnt_splice f : forall p d n,
  lookup d p = Some n ->
  cnt_forest s (splice d p f) + cnt_node s n = cnt_forest s d + cnt_forest s (f n).
Proof.
  induction p as [|i p IH]; intros d n H; [discriminate|].
  cbn [lookup splice] in *.
  destruct (nth_error d i) as [c|] eqn:Hc; [|discriminate].
  pose proof (nth_error_decompose _ d i c Hc) as Hd.
  destruct p as [|j p].
  - injection H as ->. rewrite Hd at 3.
    rewrite !cnt_forest_app, cnt_forest_cons. lia.
  - destruct c as [t | a cs]; [discriminate|].
    specialize (IH cs n H). rewrite Hd at 3.
    rewrite !cnt_forest_app, !cnt_forest_cons, !cnt_node_elem. lia.
Qed.

Lemma cnt_splice_le frag p d :
  cnt_forest s frag = 0 ->
  cnt_forest s (splice d p (fun _ => frag)) <= cnt_forest s d.
Proof.
  intros Hf. destruct (lookup d p) as [n|] eqn:Hl.
  - pose proof (cnt_splice (fun _ => frag) p d n Hl). lia.
  - now rewrite splice_unresolved.
Qed.

Lemma cnt_unwrapped n : cnt_node s (unwrapped n) <= cnt_node s n.
Proof.
  induction n as [t | a cs IH] using node_ind; [reflexivity|].
  cbn [unwrapped]. destruct (has_class marker_class a).
  - unfold cnt_node at 1. simpl. lia.
  - rewrite !cnt_node_elem. apply Nat.add_le_mono_l.
    induction IH as [|c cs Hc _ IHcs]; [reflexivity|].
    cbn [map]. rewrite !cnt_forest_cons. lia.
Qed.

Lemma cnt_unwrapped_forest d :
  cnt_forest s (map unwrapped d) <= cnt_forest s d.
Proof.
  induction d as [|c d IH]; [reflexivity|].
  cbn [map]. rewrite !cnt_forest_cons. pose proof (cnt_unwrapped c). lia.
Qed.

(** A selected path leads to an element that matches. *)
Lemma select_lookup : forall q d parent,
  In q (select_forest s parent d) ->
  exists a cs, lookup d q = Some (Elem a cs) /\ matches s None a = true.
Proof.
  induction q as [|i r IH]; intros d parent H.
  - now apply select_forest_nonempty in H.
  - apply in_select_forest in H as (i' & n & r' & Hn & Hr & E).
    injection E as <- <-. destruct n as [t | a cs]; [contradiction|].
    cbn [select_node] in Hr. apply in_app_or in Hr as [Hr | Hr].
    + destruct (matches s parent a) eqn:Hm; [|contradiction].
      destruct Hr as [<- | []]. exists a, cs. cbn [lookup]. rewrite Hn.
      split; [reflexivity|]. now rewrite (parent_free None parent a).
    + fold (select_forest s (Some a) cs) in Hr.
      destruct (IH cs (Some a) Hr) as (a' & cs' & Hl & Hm).
      exists a', cs'. split; [|exact Hm].
      cbn [lookup]. rewrite Hn.
      destruct r as [|j r]; [now apply select_forest_nonempty in Hr|].
      exact Hl.
Qed.

(** Removing the first match leaves fewer matches. *)
Lemma cnt_remove_first d p :
  hd_error (querySelectorAll s d) = Some p ->
  cnt_forest s (splice d p (fun _ => [])) < cnt_forest s d.
Proof.
  intros H. assert (Hin : In p (querySelectorAll s d)).
  { destruct (querySelectorAll s d); [discriminate|].
    injection H as ->. now left. }
  destruct (select_lookup p d None Hin) as (a & cs & Hl & Hm).
  pose proof (cnt_splice (fun _ => []) p d _ Hl) as E.
  rewrite cnt_node_elem, Hm in E. cbn in E. lia.
Qed.

Lemma cnt_none d : cnt_forest s d = 0 -> querySelectorAll s d = [].
Proof.
  intros H. rewrite <- count_forest in H. unfold count in H.
  now apply length_zero_iff_nil.
Qed.
End Counting.

(** ** The pass adds no element with an id *)

Lemma styles_parent_free p1 p2 a : matches styles p1 a = matches styles p2 a.
Proof. reflexivity. Qed.

Lemma fragment_no_styles before timestamp seconds after :
  cnt_forest styles
    (text_if_any before ++ timestampSpan timestamp seconds :: text_if_any after)
  = 0.
Proof.
  rewrite cnt_forest_app, cnt_forest_cons.
  assert (Ht : forall t, cnt_forest styles (text_if_any t) = 0)
    by (intros [|? ?]; reflexivity).
  rewrite !Ht. unfold timestampSpan.
  rewrite (cnt_node_elem styles styles_parent_free). cbn [matches styles ident].
  destruct timestamp; reflexivity.
Qed.

Lemma processNodes_styles timestamp seconds : forall entries d log,
  cnt_forest styles (fst (processNodes timestamp seconds entries d log))
  <= cnt_forest styles d.
Proof.
  induction entries as [|[[p0 nodeText] idx] entries IH]; intros d log;
    [reflexivity|].
  cbn [processNodes].
  destruct (indexOf nodeText timestamp 0) as [currentIdx|]; [|apply IH].
  destruct (resolve log p0) as [p|]; [|apply IH].
  destruct (parent_is_marker d p); [apply IH|].
  etransitivity; [apply IH|].
  apply (cnt_splice_le styles styles_parent_free). apply fragment_no_styles.
Qed.

Lemma processTimestamp_styles bc d tm :
  cnt_forest styles (fst (processTimestamp bc d tm)) <= cnt_forest styles d.
Proof.
  unfold processTimestamp. destruct (lookup d bc); [|reflexivity].
  apply processNodes_styles.
Qed.

Lemma processContainer_styles st c :
  cnt_forest styles (fst (processContainer st c)) <= cnt_forest styles (fst st).
Proof.
  unfold processContainer. destruct (resolve (snd st) c); [|reflexivity].
  destruct (querySelector content_selector (fst st) p) as [bc|]; [|reflexivity].
  match goal with
  | |- context [fold_left _ ?l st] => generalize l
  end.
  intros tms. generalize st at 1 2. clear st. induction tms as [|tm tms IH]; intros st; [reflexivity|].
  cbn [fold_left]. etransitivity; [apply IH|]. cbn [fst].
  apply processTimestamp_styles.
Qed.

Lemma addTimestampButtons_styles d :
  count styles (addTimestampButtons d) <= count styles d.
Proof.
  rewrite !(count_forest styles styles_parent_free).
  unfold addTimestampButtons.
  generalize (querySelectorAll container_selector d). intros cs.
  change d with (fst (d, @nil edit)) at 2. generalize (d, @nil edit).
  induction cs as [|c cs IH]; intros st; [reflexivity|].
  cbn [fold_left]. etransitivity; [apply IH|]. apply processContainer_styles.
Qed.

(* ================================================================== *)
(** * The watcher: lemmas *)

Lemma find_child_elem P : forall d i h,
  find_child P d i = Some h ->
  exists a cs, i <= h /\ nth_error d (h - i) = Some (Elem a cs).
Proof.
  induction d as [|n d IH]; intros i h H; [discriminate|].
  cbn [find_child] in H.
  assert (Hrec : find_child P d (S i) = Some h ->
                 exists a cs, i <= h /\ nth_error (n :: d) (h - i) = Some (Elem a cs)).
  { intros H'. destruct (IH _ _ H') as (a & cs & Hle & Hn).
    exists a, cs. split; [lia|].
    replace (h - i) with (S (h - S i)) by lia. exact Hn. }
  destruct n as [t | a cs]; [now apply Hrec|].
  destruct (P a); [|now apply Hrec].
  injection H as <-. exists a, cs. rewrite Nat.sub_diag. auto.
Qed.

Lemma appendChild_styles d h :
  document_head d = Some h ->
  count styles (appendChild d h styleElement) = S (count styles d).
Proof.
  intros H. apply find_child_elem in H as (a & cs & _ & Hn).
  rewrite Nat.sub_0_r in Hn.
  rewrite !(count_forest styles styles_parent_free).
  assert (Hl : lookup d [h] = Some (Elem a cs)) by (cbn [lookup]; now rewrite Hn).
  pose proof (cnt_splice styles styles_parent_free
                (fun n => match n with
                          | Elem a cs => [Elem a (cs ++ [styleElement])]
                          | Text _ => [n]
                          end) [h] d _ Hl) as E.
  cbn beta iota in E. unfold appendChild.
  rewrite cnt_forest_cons, !(cnt_node_elem styles styles_parent_free) in E.
  rewrite cnt_forest_app in E. cbn in E. cbn. lia.
Qed.

Lemma without_style_styles d :
  count styles d <= 1 -> count styles (without_style d) = 0.
Proof.
  intros H. rewrite !(count_forest styles styles_parent_free) in *.
  unfold without_style, getElementById.
  destruct (hd_error (querySelectorAll (SelId styles_id) d)) as [p|] eqn:Hp.
  - pose proof (cnt_remove_first styles styles_parent_free d p Hp). lia.
  - destruct (querySelectorAll (SelId styles_id) d) as [|q qs] eqn:Hq;
      [|discriminate].
    rewrite <- (count_forest styles styles_parent_free). unfold count, styles.
    now rewrite Hq.
Qed.

Lemma cleanup_document w :
  document (cleanupTimestampObserver w)
  = map unwrapped (without_style (document w)).
Proof.
  unfold cleanupTimestampObserver. cbn [document].
  fold (without_style (document w)). apply unwrap_all.
Qed.

Lemma cleanup_styles w :
  count styles (document w) <= 1 ->
  count styles (document (cleanupTimestampObserver w)) = 0.
Proof.
  intros H. rewrite cleanup_document.
  pose proof (without_style_styles _ H) as E.
  rewrite !(count_forest styles styles_parent_free) in *.
  pose proof (cnt_unwrapped_forest styles styles_parent_free
                (without_style (document w))). lia.
Qed.

Lemma filter_all_out o l :
  (forall x, In x l -> x = o) -> filter (fun x => negb (x =? o)) l = [].
Proof.
  induction l as [|x l IH]; intros H; [reflexivity|].
  cbn [filter]. rewrite (H x (or_introl eq_refl)), Nat.eqb_refl. cbn.
  apply IH. intros y Hy. apply H. now right.
Qed.

Lemma cleanup_observers w :
  (forall o, In o (observers w) -> YTSObserver w = Some o) ->
  observers (cleanupTimestampObserver w) = [].
Proof.
  intros H. unfold cleanupTimestampObserver. cbn [observers].
  destruct (YTSObserver w) as [o|] eqn:Ho.
  - apply filter_all_out. intros x Hx. specialize (H x Hx). congruence.
  - destruct (observers w) as [|x l]; [reflexivity|].
    specialize (H x (or_introl eq_refl)). discriminate.
Qed.

Lemma timerFires_same w :
  observers (timerFires w) = observers w
  /\ YTSObserver (timerFires w) = YTSObserver w
  /\ count styles (document (timerFires w)) <= count styles (document w).
Proof.
  unfold timerFires. destruct (timers w); cbn; repeat split; auto.
  apply addTimestampButtons_styles.
Qed.

Lemma fire_due_same until : forall n w,
  observers (fire_due n until w) = observers w
  /\ YTSObserver (fire_due n until w) = YTSObserver w
  /\ count styles (document (fire_due n until w)) <= count styles (document w).
Proof.
  induction n as [|n IH]; intros w; [cbn; auto|].
  cbn [fire_due]. destruct (timers w) as [|due pending] eqn:Ht; [auto|].
  destruct (due <=? until); [|auto].
  destruct (IH (timerFires w)) as (H1 & H2 & H3).
  destruct (timerFires_same w) as (F1 & F2 & F3).
  rewrite H1, H2, F1, F2. repeat split; auto. lia.
Qed.

Lemma tidy_start w :
  tidy false w -> tidy true (world_of (initTimestampObserver w)).
Proof.
  intros (Hlen & Hin & Hst & Hstop). destruct (Hstop eq_refl) as [Hobs Hzero].
  unfold initTimestampObserver.
  destruct (document_head (document w)) as [h|] eqn:Hh.
  - pose proof (appendChild_styles _ _ Hh) as Ha.
    pose proof (addTimestampButtons_styles
                  (appendChild (document w) h styleElement)) as Hp.
    destruct (document_body _); cbn [world_of document observers YTSObserver];
      rewrite Hobs; unfold tidy; cbn [document observers YTSObserver app length In].
    + split; [lia|]. split; [|split; [lia | discriminate]].
      intros o [<- | []]. reflexivity.
    + split; [lia|]. split; [|split; [lia | discriminate]].
      intros o [].
  - cbn [world_of]. unfold tidy. split; [exact Hlen|].
    split; [exact Hin|]. split; [exact Hst | discriminate].
Qed.

Lemma tidy_stop b w : tidy b w -> tidy false (cleanupTimestampObserver w).
Proof.
  intros (Hlen & Hin & Hst & _).
  pose proof (cleanup_observers w Hin) as Ho.
  pose proof (cleanup_styles w Hst) as Hs.
  unfold tidy. rewrite Ho, Hs. split; [cbn; lia|].
  split; [intros o []|]. split; [lia | auto].
Qed.

Lemma tidy_notify b w mutations : tidy b w -> tidy b (observerCallback mutations w).
Proof.
  unfold observerCallback. destruct (existsb _ mutations); auto.
Qed.

Lemma tidy_elapse b w dt : tidy b w -> tidy b (elapse dt w).
Proof.
  intros (Hlen & Hin & Hst & Hstop). unfold elapse, tidy.
  cbn [observers YTSObserver document].
  destruct (fire_due_same (now w + dt) (length (timers w)) w) as (H1 & H2 & H3).
  rewrite H1, H2. repeat split; auto; try lia.
  - now apply Hstop.
  - destruct (Hstop H) as [_ Hz]. lia.
Qed.

Lemma tidy_run : forall trace b w,
  tidy b w -> lifecycle b trace = true ->
  exists b', tidy b' (run w trace).
Proof.
  induction trace as [|e trace IH]; intros b w Hw Hl; [now exists b|].
  destruct e as [| | o mutations | dt]; cbn [lifecycle] in Hl; cbn [run fold_left step].
  - apply andb_true_iff in Hl as [Hb Hl]. destruct b; [discriminate|].
    apply (IH true); [now apply tidy_start | exact Hl].
  - apply (IH false); [now apply (tidy_stop b) | exact Hl].
  - apply (IH b); [|exact Hl].
    destruct (existsb (Nat.eqb o) (observers w)); [now apply tidy_notify | exact Hw].
  - apply (IH b); [now apply tidy_elapse | exact Hl].
Qed.

Lemma lifecycle_firstn : forall trace b k,
  lifecycle b trace = true -> lifecycle b (firstn k trace) = true.
Proof.
  induction trace as [|e trace IH]; intros b [|k] H; try reflexivity.
  cbn [firstn]. destruct e; cbn [lifecycle] in *; auto.
  apply andb_true_iff in H as [Hb H]. apply andb_true_iff. auto.
Qed.

(* ================================================================== *)
(** * The claims on the document and the watcher *)

Lemma findYouTubePlayer_fallback_witness :
  findYouTubePlayer player_page [1; 0] = Some [1; 1; 0]
  /\ findYouTubePlayer plain_page [1; 0] = None.
Proof.
  split.
  - apply findYouTubePlayer_fallback. reflexivity.
  - apply findYouTubePlayer_fallback. reflexivity.
Defined.

(** C5, at a block whose single text node holds the literal 02:10 twice:
    one pass wraps the first occurrence only.  The loop over the
    occurrences, in reverse order, looks each time for the first index
    of the literal in the text of the node it kept, and that node is out
    of the document after the first replacement.  Two occurrences in two
    text nodes are both wrapped. *)
Theorem pass_wraps_first_occurrence_only :
  addTimestampButtons twice_page
  = [el "head" [] [];
     el "body" []
        [block [Text (u "**");
                timestampSpan (u "02:10") (Some 130%Z);
                Text (u "** hello **02:10** world")] []]]
  /\ count marker_selector (addTimestampButtons twice_page) = 1
  /\ count marker_selector (addTimestampButtons bold_page) = 2.
Proof. repeat split; reflexivity. Qed.

(** C1, at the same block: a second pass on the unchanged result of the
    first wraps the second occurrence, so the pass is not idempotent
    there. *)
Theorem second_pass_changes_the_document :
  addTimestampButtons (addTimestampButtons twice_page)
  = [el "head" [] [];
     el "body" []
        [block [Text (u "**");
                timestampSpan (u "02:10") (Some 130%Z);
                Text (u "** hello **");
                timestampSpan (u "02:10") (Some 130%Z);
                Text (u "** world")] []]]
  /\ addTimestampButtons (addTimestampButtons twice_page)
     <> addTimestampButtons twice_page
  /\ count marker_selector (addTimestampButtons twice_page) = 1
  /\ count marker_selector (addTimestampButtons (addTimestampButtons twice_page))
     = 2.
Proof.
  split; [reflexivity|]. split; [|split; reflexivity].
  intros E. apply (f_equal (count marker_selector)) in E.
  vm_compute in E. discriminate.
Qed.

Lemma burst_arms n : forall w,
  let w' := Nat.iter n (observerCallback [added_one]) w in
  timers w' = timers w ++ repeat (now w + 100) n
  /\ now w' = now w /\ passes w' = passes w.
Proof.
  induction n as [|n IH]; intros w.
  - cbn. now rewrite app_nil_r.
  - destruct (IH w) as (Ht & Hn & Hp). cbn zeta in *.
    rewrite !Nat.iter_succ.
    set (w1 := Nat.iter n (observerCallback [added_one]) w) in *.
    change (observerCallback [added_one] w1)
      with {| document := document w1; observers := observers w1;
              YTSObserver := YTSObserver w1;
              timers := timers w1 ++ [now w1 + 100];
              now := now w1; next_observer := next_observer w1;
              passes := passes w1 |}.
    cbn [timers now passes]. rewrite Ht, Hn, Hp. repeat split.
    rewrite <- app_assoc. f_equal. cbn [repeat]. symmetry. apply repeat_cons.
Qed.

Lemma fire_due_all t until : forall n w,
  timers w = repeat t n -> t <= until -> now w <= t ->
  passes (fire_due n until w) = passes w ++ repeat t n.
Proof.
  induction n as [|n IH]; intros w Ht Hu Hn.
  - cbn. now rewrite app_nil_r.
  - cbn [fire_due]. rewrite Ht. cbn [repeat].
    rewrite (proj2 (Nat.leb_le t until) Hu).
    assert (Hf : timers (timerFires w) = repeat t n
                 /\ now (timerFires w) = t
                 /\ passes (timerFires w) = passes w ++ [t]).
    { unfold timerFires. rewrite Ht. cbn [repeat timers now passes].
      rewrite (Nat.max_r _ _ Hn). auto. }
    destruct Hf as (F1 & F2 & F3).
    rewrite (IH (timerFires w) F1 Hu); [|lia].
    rewrite F3, <- app_assoc. reflexivity.
Qed.

Lemma started_fresh d :
  timers (world_of (initTimestampObserver (stopped d))) = []
  /\ now (world_of (initTimestampObserver (stopped d))) = 0.
Proof.
  unfold initTimestampObserver, stopped. cbn [document].
  destruct (document_head d); [|split; reflexivity].
  destruct (document_body _); split; reflexivity.
Qed.

(** C2, as the code has it: the callback arms one more timeout for every
    qualifying notification and cancels none; a burst of n notifications
    on a watcher just started makes n passes run; two notifications ten
    milliseconds apart leave two timeouts pending, and two passes run,
    one hundred milliseconds after each notification. *)
Theorem every_notification_arms_a_timer :
  (forall w, timers (observerCallback [added_one] w) = timers w ++ [now w + 100])
  /\ (forall d n,
        let w := world_of (initTimestampObserver (stopped d)) in
        passes (elapse 100 (Nat.iter n (observerCallback [added_one]) w))
        = passes w ++ repeat 100 n)
  /\ (let w := run (stopped twice_page)
                [Start; Notify 0 [added_one]; Elapse 10; Notify 0 [added_one]] in
      timers w = [100; 110]
      /\ passes w = [0]
      /\ passes (run w [Elapse 200]) = [0; 100; 110]).
Proof.
  split; [reflexivity|]. split; [|vm_compute; auto].
  intros d n w. destruct (started_fresh d) as [Ht Hn]. fold w in Ht, Hn.
  destruct (burst_arms n w) as (Bt & Bn & Bp).
  rewrite Ht, Hn in Bt. cbn [app Nat.add] in Bt.
  unfold elapse. cbn [passes]. rewrite Bt, repeat_length.
  rewrite fire_due_all with (t := 100); try lia; [now rewrite Bp | exact Bt].
Qed.

(** C3, as the code has it: along a trace in which start is called only
    when the watcher is stopped, at every instant at most one observer is
    connected and at most one style element is installed. *)
Theorem one_observer_one_style (d : dom) (trace : list event) (k : nat) :
  count styles d = 0 ->
  lifecycle false trace = true ->
  length (observers (run (stopped d) (firstn k trace))) <= 1
  /\ count styles (document (run (stopped d) (firstn k trace))) <= 1.
Proof.
  intros Hd Hl.
  assert (H0 : tidy false (stopped d)).
  { unfold tidy, stopped. cbn [observers YTSObserver document length In].
    split; [lia|]. split; [intros o []|]. split; [lia | auto]. }
  destruct (tidy_run (firstn k trace) false (stopped d) H0
              (lifecycle_firstn trace false k Hl)) as (b & H1 & _ & H2 & _).
  auto.
Qed.

Lemma one_observer_one_style_witness :
  length (observers (run (stopped twice_page)
            (firstn 4 [Start; Notify 0 [added_one]; Stop; Start; Elapse 100])))
  <= 1
  /\ count styles (document (run (stopped twice_page)
            (firstn 4 [Start; Notify 0 [added_one]; Stop; Start; Elapse 100])))
     <= 1.
Proof. apply one_observer_one_style; reflexivity. Defined.

(** C3 as stated fails: a second start is neither rejected nor preceded
    by a stop; it leaves two connected observers and two style elements,
    and only the second observer is remembered. *)
Lemma double_start_two_observers :
  let w := run (stopped twice_page) [Start; Start] in
  observers w = [0; 1]
  /\ YTSObserver w = Some 1
  /\ count styles (document w) = 2
  /\ observers (run w [Stop]) = [0].
Proof. vm_compute. auto. Qed.

(** C4, as the code has it.  cleanup is total.  After it nothing is
    remembered in [window.YTSObserver] and the observer that was
    remembered is disconnected, so no observer is left when it was the
    only one; no marker is left, each one replaced by a text node with
    its text, the text of the document being kept; the pending timeouts
    are still pending.  The same holds after a second call, which
    changes nothing more when at most one style element was installed. *)
Theorem cleanup_teardown (w : world) :
  YTSObserver (cleanupTimestampObserver w) = None
  /\ (forall o, YTSObserver w = Some o ->
        ~ In o (observers (cleanupTimestampObserver w)))
  /\ ((forall o, In o (observers w) -> YTSObserver w = Some o) ->
        observers (cleanupTimestampObserver w) = [])
  /\ document (cleanupTimestampObserver w)
     = map unwrapped (without_style (document w))
  /\ count marker_selector (document (cleanupTimestampObserver w)) = 0
  /\ flat_map textContent (document (cleanupTimestampObserver w))
     = flat_map textContent (without_style (document w))
  /\ timers (cleanupTimestampObserver w) = timers w
  /\ count marker_selector
       (document (cleanupTimestampObserver (cleanupTimestampObserver w))) = 0
  /\ (count styles (document w) <= 1 ->
        cleanupTimestampObserver (cleanupTimestampObserver w)
        = cleanupTimestampObserver w).
Proof.
  assert (Hm : forall w0,
            count marker_selector (document (cleanupTimestampObserver w0)) = 0).
  { intros w0. rewrite cleanup_document. unfold count.
    now rewrite no_marker_left. }
  split; [reflexivity|]. split; [|split; [|split; [|split; [|split; [|split; [|split]]]]]].
  - intros o Ho Hin. unfold cleanupTimestampObserver in Hin.
    cbn [observers] in Hin. rewrite Ho in Hin.
    apply filter_In in Hin as [_ Hneq]. now rewrite Nat.eqb_refl in Hneq.
  - apply cleanup_observers.
  - apply cleanup_document.
  - apply Hm.
  - rewrite cleanup_document. apply unwrapped_text_forest.
  - reflexivity.
  - apply Hm.
  - intros Hst.
    pose proof (cleanup_styles w Hst) as Hz.
    pose proof (Hm w) as Hk.
    rewrite (count_forest styles styles_parent_free) in Hz.
    apply (cnt_none styles styles_parent_free) in Hz.
    unfold count in Hk. apply length_zero_iff_nil in Hk.
    unfold cleanupTimestampObserver at 1.
    unfold getElementById. fold styles. rewrite Hz. cbn [hd_error].
    rewrite Hk. cbn [fold_left]. reflexivity.
Qed.

Lemma cleanup_teardown_witness :
  observers (cleanupTimestampObserver
               (run (stopped twice_page) [Start; Notify 0 [added_one]])) = []
  /\ cleanupTimestampObserver
       (cleanupTimestampObserver
          (run (stopped twice_page) [Start; Notify 0 [added_one]]))
     = cleanupTimestampObserver
         (run (stopped twice_page) [Start; Notify 0 [added_one]]).
Proof.
  split.
  - apply cleanup_teardown. intros o [<- | []]. reflexivity.
  - apply cleanup_teardown. vm_compute. lia.
Defined.

(** C4 as stated fails: a timeout armed before the stop is still pending
    after two stops; when it fires the pass runs and markers are back. *)
Lemma stop_keeps_the_timer :
  let w := run (stopped twice_page) [Start; Notify 0 [added_one]; Stop; Stop] in
  timers w = [100]
  /\ observers w = []
  /\ count marker_selector (document w) = 0
  /\ passes (run w [Elapse 100]) = [0; 100]
  /\ count marker_selector (document (run w [Elapse 100])) = 2.
Proof. vm_compute. auto. Qed.

(* ================================================================== *)
(** * The loops of the pass end within their fuel *)

Lemma starts_with_length : forall t s,
  starts_with t s = true -> length t <= length s.
Proof.
  induction t as [|a t IH]; intros [|b s] H; simpl in *; try lia; try discriminate.
  apply andb_true_iff in H as [_ H]. apply IH in H. lia.
Qed.

Lemma index_from_bounds t : forall s pos idx,
  index_from t s pos = Some idx ->
  pos <= idx /\ idx + length t <= pos + length s.
Proof.
  induction s as [|c s IH]; intros pos idx H; simpl in H.
  - destruct (starts_with t []) eqn:Hs; [|discriminate].
    injection H as <-. apply starts_with_length in Hs. simpl in *. lia.
  - destruct (starts_with t (c :: s)) eqn:Hs.
    + injection H as <-. apply starts_with_length in Hs. simpl in *. lia.
    + apply IH in H. simpl. lia.
Qed.

Lemma indexOf_bounds s t from idx :
  indexOf s t from = Some idx ->
  Nat.min from (length s) <= idx /\ idx + length t <= length s.
Proof.
  unfold indexOf. destruct (length s <? from) eqn:Hlt; intros H.
  - apply Nat.ltb_lt in Hlt. apply index_from_bounds in H. simpl in H. lia.
  - apply Nat.ltb_ge in Hlt. apply index_from_bounds in H.
    rewrite length_skipn in H. lia.
Qed.

(** With a timestamp that is not empty, the loop over indexOf ends before
    its fuel does: more fuel changes nothing. *)
Lemma occurrences_enough nodeText timestamp :
  timestamp <> [] ->
  forall fuel searchIdx extra,
    length nodeText < fuel + searchIdx ->
    occurrences (fuel + extra) nodeText timestamp searchIdx
    = occurrences fuel nodeText timestamp searchIdx.
Proof.
  intros Hne. assert (Hlen : 1 <= length timestamp).
  { destruct timestamp; [contradiction | simpl; lia]. }
  induction fuel as [|fuel IH]; intros searchIdx extra Hlt.
  - destruct extra as [|extra]; [reflexivity|]. cbn [Nat.add occurrences].
    destruct (indexOf nodeText timestamp searchIdx) as [idx|] eqn:Hi;
      [|reflexivity].
    apply indexOf_bounds in Hi. lia.
  - cbn [Nat.add occurrences].
    destruct (indexOf nodeText timestamp searchIdx) as [idx|] eqn:Hi;
      [|reflexivity].
    f_equal. apply IH. apply indexOf_bounds in Hi. lia.
Qed.

Lemma grammar_nonempty L : grammar L -> 1 <= length L.
Proof.
  intros H. destruct (grammar_head L H) as (c & t & -> & _). simpl. lia.
Qed.

Lemma exec_progress text lastIndex m :
  exec ALL_TIMESTAMPS_PATTERN text lastIndex = Some m ->
  lastIndex < m_index m + length (m_0 m)
  /\ m_index m + length (m_0 m) <= length text.
Proof.
  intros H. apply exec_sound in H
    as (pre & L & post & c & tl & _ & HL & _ & _ & _ & H0 & Hs & Hle).
  apply grammar_nonempty in HL.
  assert (Hl0 : 1 <= length (m_0 m)).
  { rewrite H0, !length_app. lia. }
  split; [lia|].
  apply (f_equal (@length N)) in Hs.
  rewrite length_skipn, length_app in Hs. simpl in Hs. lia.
Qed.

(** The loop over exec ends before its fuel does. *)
Lemma collect_enough text : forall fuel lastIndex extra acc,
  length text < fuel + lastIndex ->
  collect (fuel + extra) text lastIndex acc = collect fuel text lastIndex acc.
Proof.
  induction fuel as [|fuel IH]; intros lastIndex extra acc Hlt.
  - destruct extra as [|extra]; [reflexivity|]. cbn [Nat.add collect].
    destruct (exec ALL_TIMESTAMPS_PATTERN text lastIndex) as [m|] eqn:He;
      [|reflexivity].
    apply exec_progress in He. lia.
  - cbn [Nat.add collect].
    destruct (exec ALL_TIMESTAMPS_PATTERN text lastIndex) as [m|] eqn:He;
      [|reflexivity].
    apply IH. apply exec_progress in He. lia.
Qed.

(** What the loop over exec collects are literals of the grammar, each
    with the number parseTimestamp gives it. *)
Lemma collect_literals text : forall fuel lastIndex acc,
  Forall (fun tm => grammar (fst tm) /\ snd tm = parseTimestamp (fst tm)) acc ->
  Forall (fun tm => grammar (fst tm) /\ snd tm = parseTimestamp (fst tm))
    (collect fuel text lastIndex acc).
Proof.
  induction fuel as [|fuel IH]; intros lastIndex acc Hacc; [exact Hacc|].
  cbn [collect].
  destruct (exec ALL_TIMESTAMPS_PATTERN text lastIndex) as [m|] eqn:He;
    [|exact Hacc].
  apply IH. destruct (existsb _ acc); [exact Hacc|].
  apply Forall_app. split; [exact Hacc|]. constructor; [|constructor].
  apply exec_sound in He as (pre & L & post & c & tl & _ & HL & _ & _ & H1 & _).
  rewrite H1. cbn [fst snd]. auto.
Qed.

(* ================================================================== *)
(** * More on the pass: what every replacement keeps *)

(** ** indexOf finds an occurrence *)

Lemma starts_with_split : forall t s,
  starts_with t s = true -> s = t ++ skipn (length t) s.
Proof.
  induction t as [|a t IH]; intros [|b s] H; simpl in *; try reflexivity;
    try discriminate.
  apply andb_true_iff in H as [E H]. apply N.eqb_eq in E. subst b.
  f_equal. now apply IH.
Qed.

Lemma index_from_found t : forall s pos i,
  index_from t s pos = Some i ->
  pos <= i /\ starts_with t (skipn (i - pos) s) = true.
Proof.
  induction s as [|c s IH]; intros pos i H; simpl in H.
  - destruct (starts_with t []) eqn:Hs; [|discriminate].
    injection H as <-. rewrite Nat.sub_diag. auto.
  - destruct (starts_with t (c :: s)) eqn:Hs.
    + injection H as <-. rewrite Nat.sub_diag. auto.
    + apply IH in H as [Hle H]. split; [lia|].
      replace (i - pos) with (S (i - S pos)) by lia. exact H.
Qed.

Lemma indexOf_split s t i :
  indexOf s t 0 = Some i ->
  s = firstn i s ++ t ++ skipn (i + length t) s.
Proof.
  unfold indexOf. cbn [Nat.ltb Nat.leb skipn]. intros H.
  apply index_from_found in H as [_ H]. rewrite Nat.sub_0_r in H.
  apply starts_with_split in H.
  rewrite <- (firstn_skipn i s) at 1. f_equal.
  rewrite H at 1. f_equal. rewrite skipn_skipn. f_equal. lia.
Qed.

(** ** Paths below a node *)

Lemma lookup_cons d i q :
  lookup d (i :: q)
  = match nth_error d i with Some n => below n q | None => None end.
Proof.
  cbn [lookup]. destruct (nth_error d i) as [n|]; [|reflexivity].
  destruct q; reflexivity.
Qed.

Lemma lookup_app : forall bc d n q,
  lookup d bc = Some n -> lookup d (bc ++ q) = below n q.
Proof.
  induction bc as [|i bc IH]; intros d n q H; [discriminate|].
  rewrite lookup_cons in H. cbn [app]. rewrite lookup_cons.
  destruct (nth_error d i) as [c|]; [|discriminate].
  destruct bc as [|j bc].
  - cbn [below] in H. injection H as ->. reflexivity.
  - cbn [below] in H. destruct c as [t | a cs]; [discriminate|].
    cbn [app below]. now apply IH.
Qed.

Lemma text_nodes_below n : forall q s,
  In (q, s) (text_nodes n) -> below n q = Some (Text s).
Proof.
  induction n as [t | a cs IH] using node_ind; intros q s H.
  - destruct H as [E | []]. injection E as <- <-. reflexivity.
  - cbn [text_nodes] in H. apply in_flat_mapi in H as (j & c & Hj & H).
    apply in_map_iff in H as ([q' s'] & E & H). cbn [fst snd] in E.
    injection E as <- <-. cbn [below Nat.add]. rewrite lookup_cons, Hj.
    rewrite Forall_forall in IH. apply (IH c); [|exact H].
    now apply nth_error_In in Hj.
Qed.

(** ** References after a replacement *)

Lemma nth_error_before (A : Type) (l1 l2 : list A) j :
  j < length l1 -> nth_error (l1 ++ l2) j = nth_error l1 j.
Proof. intros H. now apply nth_error_app1. Qed.

Lemma nth_error_after (A : Type) (l1 mid1 mid2 l2 : list A) j :
  length l1 + length mid1 <= j ->
  nth_error (l1 ++ mid2 ++ l2) (j + length mid2 - length mid1)
  = nth_error (l1 ++ mid1 ++ l2) j.
Proof.
  intros H. rewrite !nth_error_app2 by lia. f_equal. lia.
Qed.

Lemma splice_at d i n f :
  nth_error d i = Some n ->
  exists l1 l2, d = l1 ++ n :: l2 /\ length l1 = i
                /\ splice d [i] f = l1 ++ f n ++ l2.
Proof.
  intros H. destruct (nth_error_split d i H) as (l1 & l2 & -> & Hl).
  exists l1, l2. repeat split; auto. subst i. apply splice_here.
Qed.

Lemma splice_under d i a cs j q f :
  nth_error d i = Some (Elem a cs) ->
  exists l1 l2, d = l1 ++ Elem a cs :: l2 /\ length l1 = i
                /\ splice d (i :: j :: q) f
                   = l1 ++ Elem a (splice cs (j :: q) f) :: l2.
Proof.
  intros H. destruct (nth_error_split d i H) as (l1 & l2 & -> & Hl).
  exists l1, l2. repeat split; auto. subst i. apply splice_below.
Qed.

Lemma shift_last i k j q :
  shift [i] k (j :: q)
  = if j <? i then Some (j :: q)
    else if j =? i then None else Some ((j + k - 1) :: q).
Proof. reflexivity. Qed.

Lemma shift_deep i i2 p k j q :
  shift (i :: i2 :: p) k (j :: q)
  = if j =? i
    then match shift (i2 :: p) k q with
         | Some r => Some (j :: r)
         | None => None
         end
    else Some (j :: q).
Proof. reflexivity. Qed.

Lemma shift_nonempty p k : forall q r,
  q <> [] -> shift p k q = Some r -> r <> [].
Proof.
  destruct p as [|i p]; intros [|j q] r Hq H; try contradiction.
  - cbn in H. injection H as <-. discriminate.
  - destruct p as [|i2 p]; [rewrite shift_last in H | rewrite shift_deep in H].
    + destruct (j <? i); [injection H as <-; discriminate|].
      destruct (j =? i); [discriminate|]. injection H as <-. discriminate.
    + destruct (j =? i); [|injection H as <-; discriminate].
      destruct (shift (i2 :: p) k q); [|discriminate].
      injection H as <-. discriminate.
Qed.

(** A reference to a text node, moved by a replacement of another text
    node, still leads to it. *)
Lemma lookup_shift frag : forall p d q q' t0 t,
  frag <> [] ->
  lookup d p = Some (Text t0) ->
  lookup d q = Some (Text t) ->
  shift p (length frag) q = Some q' ->
  lookup (splice d p (fun _ => frag)) q' = Some (Text t).
Proof.
  intros p d q q' t0 t Hfrag. revert d q q'.
  assert (Hk : 1 <= length frag) by (destruct frag; [contradiction | simpl; lia]).
  induction p as [|i p IH]; intros d q q' Hp Hq Hs; [discriminate|].
  destruct q as [|j q]; [discriminate|].
  rewrite lookup_cons in Hp, Hq.
  destruct (nth_error d i) as [n|] eqn:Hn; [|discriminate].
  destruct p as [|i2 p].
  - cbn [below] in Hp. injection Hp as ->. rewrite shift_last in Hs.
    destruct (splice_at d i _ (fun _ => frag) Hn) as (l1 & l2 & -> & Hl & ->).
    destruct (j <? i) eqn:Hlt.
    + injection Hs as <-. apply Nat.ltb_lt in Hlt.
      rewrite lookup_cons. rewrite nth_error_before in * by lia. exact Hq.
    + destruct (j =? i) eqn:Heq; [discriminate|]. injection Hs as <-.
      apply Nat.ltb_ge in Hlt. apply Nat.eqb_neq in Heq.
      rewrite lookup_cons.
      replace (j + length frag - 1) with (j + length frag - length [Text t0])
        by reflexivity.
      change (Text t0 :: l2) with ([Text t0] ++ l2) in Hq.
      rewrite (nth_error_after _ l1 [Text t0] frag l2 j) by (simpl; lia).
      exact Hq.
  - cbn [below] in Hp. destruct n as [tx | a cs]; [discriminate|].
    destruct (splice_under d i a cs i2 p (fun _ => frag) Hn)
      as (l1 & l2 & -> & Hl & ->).
    rewrite shift_deep in Hs. destruct (j =? i) eqn:Heq.
    + apply Nat.eqb_eq in Heq. subst j. rewrite Hn in Hq.
      destruct q as [|j2 q]; [discriminate|]. cbn [below] in Hq.
      destruct (shift (i2 :: p) (length frag) (j2 :: q)) as [r|] eqn:Hr;
        [|discriminate].
      injection Hs as <-. rewrite lookup_cons. subst i.
      rewrite nth_error_middle.
      assert (Hne : r <> [])
        by (apply (shift_nonempty (i2 :: p) (length frag) (j2 :: q) r);
            [discriminate | exact Hr]).
      destruct r as [|r0 r]; [contradiction|]. cbn [below].
      now apply (IH cs (j2 :: q)).
    + injection Hs as <-. apply Nat.eqb_neq in Heq. rewrite lookup_cons.
      replace (nth_error (l1 ++ Elem a (splice cs (i2 :: p) (fun _ => frag)) :: l2) j)
        with (nth_error (l1 ++ Elem a cs :: l2) j); [exact Hq|].
      destruct (Nat.lt_ge_cases j (length l1)).
      * now rewrite !nth_error_before.
      * rewrite !nth_error_app2 by lia.
        destruct (j - length l1) eqn:E; [lia | reflexivity].
Qed.

Lemma resolve_snoc log e q :
  resolve (log ++ [e]) q
  = match resolve log q with
    | Some q' => shift (fst e) (snd e) q'
    | None => None
    end.
Proof. unfold resolve. now rewrite fold_left_app. Qed.

Lemma fragment_nonempty before timestamp seconds after :
  fragment before timestamp seconds after <> [].
Proof. unfold fragment. destruct (text_if_any before); discriminate. Qed.

(** ** The invariant of the pass *)

Section PassKeeps.
Variable R : dom -> dom -> Prop.
Hypothesis R_refl : forall d, R d d.
Hypothesis R_trans : forall a b c, R a b -> R b c -> R a c.
Hypothesis R_step :
  forall d p before timestamp seconds after,
    collected (timestamp, seconds) ->
    lookup d p = Some (Text (before ++ timestamp ++ after)) ->
    parent_is_marker d p = false ->
    R d (splice d p (fun _ => fragment before timestamp seconds after)).

Lemma processNodes_keeps timestamp seconds :
  collected (timestamp, seconds) ->
  forall entries d log,
    references_ok d log entries ->
    R d (fst (processNodes timestamp seconds entries d log)).
Proof.
  intros Hc. induction entries as [|[[p0 nodeText] idx] entries IH];
    intros d log Hrefs; [apply R_refl|].
  assert (Htail : references_ok d log entries).
  { intros q t i p Hin. apply (Hrefs q t i p). now right. }
  cbn [processNodes].
  destruct (indexOf nodeText timestamp 0) as [currentIdx|] eqn:Hi; [|now apply IH].
  destruct (resolve log p0) as [p|] eqn:Hp; [|now apply IH].
  destruct (parent_is_marker d p) eqn:Hm; [now apply IH|].
  pose proof (Hrefs p0 nodeText idx p (or_introl eq_refl) Hp) as Hl.
  set (before := firstn currentIdx nodeText).
  set (after := skipn (currentIdx + length timestamp) nodeText).
  fold (fragment before timestamp seconds after).
  assert (Hsplit : nodeText = before ++ timestamp ++ after)
    by (apply indexOf_split; exact Hi).
  eapply R_trans.
  - apply (R_step d p before timestamp seconds after Hc); [|exact Hm].
    now rewrite <- Hsplit.
  - apply IH. intros q t i r Hin Hr. rewrite resolve_snoc in Hr.
    destruct (resolve log q) as [q'|] eqn:Hq; [|discriminate].
    cbn [fst snd] in Hr.
    apply (lookup_shift _ p d q' r nodeText t); auto.
    + apply fragment_nonempty.
    + apply (Htail q t i q' Hin Hq).
Qed.

Lemma processTimestamp_keeps bc d tm :
  collected tm -> R d (fst (processTimestamp bc d tm)).
Proof.
  intros Hc. unfold processTimestamp.
  destruct (lookup d bc) as [blockContent|] eqn:Hb; [|apply R_refl].
  apply processNodes_keeps; [now destruct tm|].
  intros p0 t idx p Hin Hp. cbn in Hp. injection Hp as <-.
  apply in_rev in Hin. apply in_flat_map in Hin as ([q s] & Hq & Hin).
  cbn [fst snd] in Hin.
  destruct (parent_is_marker d (bc ++ q)); [contradiction|].
  apply in_map_iff in Hin as (i & E & _). injection E as <- <- _.
  rewrite (lookup_app bc d blockContent q Hb).
  now apply text_nodes_below.
Qed.

Lemma processContainer_keeps st c : R (fst st) (fst (processContainer st c)).
Proof.
  unfold processContainer. destruct (resolve (snd st) c); [|apply R_refl].
  destruct (querySelector content_selector (fst st) p) as [bc|]; [|apply R_refl].
  match goal with
  | |- context [fold_left _ ?l st] =>
      assert (Hl : Forall collected l)
        by (apply collect_literals; constructor);
      generalize dependent l
  end.
  intros tms Htms. generalize st at 1 2. clear st.
  induction Htms as [|tm tms Htm _ IH]; intros st; [apply R_refl|].
  cbn [fold_left]. eapply R_trans; [|apply IH]. cbn [fst].
  now apply processTimestamp_keeps.
Qed.

Lemma pass_keeps d : R d (addTimestampButtons d).
Proof.
  unfold addTimestampButtons.
  generalize (querySelectorAll container_selector d). intros cs.
  change d with (fst (d, @nil edit)) at 1. generalize (d, @nil edit).
  induction cs as [|c cs IH]; intros st; [apply R_refl|].
  cbn [fold_left]. eapply R_trans; [apply processContainer_keeps | apply IH].
Qed.
End PassKeeps.

(** ** The text of the document *)

Lemma document_text_app d1 d2 :
  document_text (d1 ++ d2) = document_text d1 ++ document_text d2.
Proof. apply flat_map_app. Qed.

Lemma text_splice f : forall p d n,
  lookup d p = Some n ->
  document_text (f n) = textContent n ->
  document_text (splice d p f) = document_text d.
Proof.
  induction p as [|i p IH]; intros d n Hl Hf; [discriminate|].
  rewrite lookup_cons in Hl.
  destruct (nth_error d i) as [c|] eqn:Hc; [|discriminate].
  destruct p as [|j p].
  - cbn [below] in Hl. injection Hl as ->.
    destruct (splice_at d i n f Hc) as (l1 & l2 & -> & _ & ->).
    rewrite !document_text_app, Hf. reflexivity.
  - cbn [below] in Hl. destruct c as [t | a cs]; [discriminate|].
    destruct (splice_under d i a cs j p f Hc) as (l1 & l2 & -> & _ & ->).
    rewrite !document_text_app. f_equal.
    change (document_text (Elem a ?x :: l2))
      with (document_text x ++ document_text l2).
    f_equal. now apply (IH cs n).
Qed.

Lemma text_if_any_text s : document_text (text_if_any s) = s.
Proof. destruct s; [reflexivity|]. cbn. now rewrite app_nil_r. Qed.

Lemma timestampSpan_text timestamp seconds :
  textContent (timestampSpan timestamp seconds) = timestamp.
Proof. destruct timestamp; [reflexivity|]. cbn. now rewrite app_nil_r. Qed.

Lemma fragment_text before timestamp seconds after :
  document_text (fragment before timestamp seconds after)
  = before ++ timestamp ++ after.
Proof.
  unfold fragment. rewrite document_text_app, text_if_any_text.
  change (document_text (?n :: ?l)) with (textContent n ++ document_text l).
  now rewrite timestampSpan_text, text_if_any_text.
Qed.

(** X1.  The pass never changes the text of the document: what it puts
    in the place of a text node reads as that text node did. *)
Theorem pass_keeps_text (d : dom) :
  document_text (addTimestampButtons d) = document_text d.
Proof.
  apply (pass_keeps (fun d0 d1 => document_text d1 = document_text d0)).
  - reflexivity.
  - intros a b c H1 H2. congruence.
  - intros d0 p before timestamp seconds after _ Hl _.
    apply (text_splice _ p d0 _ Hl). apply fragment_text.
Qed.

(** ** The elements of the document *)

Lemma count_splice_text s (Hs : forall p1 p2 a, matches s p1 a = matches s p2 a)
  d p t frag :
  lookup d p = Some (Text t) ->
  count s (splice d p (fun _ => frag)) = count s d + cnt_forest s frag.
Proof.
  intros Hl. rewrite !(count_forest s Hs).
  pose proof (cnt_splice s Hs (fun _ => frag) p d _ Hl) as E.
  change (cnt_node s (Text t)) with 0 in E. lia.
Qed.

Lemma cnt_fragment s (Hs : forall p1 p2 a, matches s p1 a = matches s p2 a)
  before timestamp seconds after :
  cnt_forest s (fragment before timestamp seconds after)
  = cnt_node s (timestampSpan timestamp seconds).
Proof.
  unfold fragment. rewrite cnt_forest_app, cnt_forest_cons.
  assert (Ht : forall t, cnt_forest s (text_if_any t) = 0)
    by (intros [|? ?]; reflexivity).
  rewrite !Ht. lia.
Qed.

Lemma cnt_span s (Hs : forall p1 p2 a, matches s p1 a = matches s p2 a)
  timestamp seconds :
  cnt_node s (timestampSpan timestamp seconds)
  = if matches s None
         {| tag := u "span"; ident := []; classes := [marker_class];
            src := None; title := u "Click to jump to " ++ timestamp;
            onclick := Some (SeekTo seconds) |}
    then 1 else 0.
Proof.
  unfold timestampSpan. rewrite (cnt_node_elem s Hs).
  assert (E : forall l : list node,
            (l = [] \/ exists t, l = [Text t]) -> cnt_forest s l = 0).
  { intros l [-> | [t ->]]; reflexivity. }
  rewrite E; [lia|]. destruct timestamp; eauto.
Qed.

(** X2.  The pass adds markers and nothing else: the block containers
    and the embedded players of the document are as many after it as
    before, and no marker is lost. *)
Theorem pass_keeps_elements (d : dom) :
  count container_selector (addTimestampButtons d) = count container_selector d
  /\ count player_selector (addTimestampButtons d) = count player_selector d
  /\ count marker_selector d <= count marker_selector (addTimestampButtons d).
Proof.
  assert (Hc : forall p1 p2 a,
            matches container_selector p1 a = matches container_selector p2 a)
    by reflexivity.
  assert (Hp : forall p1 p2 a,
            matches player_selector p1 a = matches player_selector p2 a)
    by reflexivity.
  assert (Hm : forall p1 p2 a,
            matches marker_selector p1 a = matches marker_selector p2 a)
    by reflexivity.
  split; [|split].
  - apply (pass_keeps (fun d0 d1 =>
             count container_selector d1 = count container_selector d0)).
    + reflexivity.
    + intros a b c H1 H2. congruence.
    + intros d0 p before timestamp seconds after _ Hl _.
      rewrite (count_splice_text _ Hc d0 p _ _ Hl), (cnt_fragment _ Hc),
        (cnt_span _ Hc).
      cbn. lia.
  - apply (pass_keeps (fun d0 d1 =>
             count player_selector d1 = count player_selector d0)).
    + reflexivity.
    + intros a b c H1 H2. congruence.
    + intros d0 p before timestamp seconds after _ Hl _.
      rewrite (count_splice_text _ Hp d0 p _ _ Hl), (cnt_fragment _ Hp),
        (cnt_span _ Hp).
      cbn. lia.
  - apply (pass_keeps (fun d0 d1 =>
             count marker_selector d0 <= count marker_selector d1)).
    + reflexivity.
    + intros a b c H1 H2. lia.
    + intros d0 p before timestamp seconds after _ Hl _.
      rewrite (count_splice_text _ Hm d0 p _ _ Hl). lia.
Qed.

(** ** The markers of the document *)

Lemma markers_ok_elem a cs :
  markers_ok (Elem a cs)
  <-> (has_class marker_class a = true -> marker_ok a cs) /\ forest_ok cs.
Proof.
  cbn [markers_ok]. unfold forest_ok.
  assert (E : forall l,
            (fix all (l : list node) : Prop :=
               match l with
               | [] => True
               | c :: l' => markers_ok c /\ all l'
               end) l <-> Forall markers_ok l).
  { induction l as [|c l IH]; [split; constructor|].
    split.
    - intros [Hc Hl]. constructor; [exact Hc | now apply IH].
    - intros H. inversion H; subst. split; [assumption | now apply IH]. }
  now rewrite E.
Qed.

Lemma parent_is_marker_top d i : parent_is_marker d [i] = false.
Proof. reflexivity. Qed.

Lemma parent_is_marker_child d i a cs j :
  nth_error d i = Some (Elem a cs) ->
  parent_is_marker d [i; j] = has_class marker_class a.
Proof.
  intros H. unfold parent_is_marker, parentElement, class_at, attrs_at.
  cbn [removelast lookup]. now rewrite H.
Qed.

Lemma parent_is_marker_deep d i a cs j j2 q :
  nth_error d i = Some (Elem a cs) ->
  parent_is_marker d (i :: j :: j2 :: q) = parent_is_marker cs (j :: j2 :: q).
Proof.
  intros H. unfold parent_is_marker, parentElement.
  change (removelast (i :: j :: j2 :: q)) with (i :: removelast (j :: j2 :: q)).
  change (removelast (j :: j2 :: q)) with (j :: removelast (j2 :: q)).
  unfold class_at, attrs_at. rewrite lookup_cons, H. reflexivity.
Qed.

(** Replacing a text node whose parent is no marker keeps the markers as
    they are. *)
Lemma forest_ok_splice frag t :
  Forall markers_ok frag ->
  forall p d,
    forest_ok d ->
    lookup d p = Some (Text t) ->
    parent_is_marker d p = false ->
    forest_ok (splice d p (fun _ => frag)).
Proof.
  intros Hfrag. induction p as [|i p IH]; intros d Hd Hl Hm; [discriminate|].
  rewrite lookup_cons in Hl.
  destruct (nth_error d i) as [c|] eqn:Hc; [|discriminate].
  destruct p as [|j p].
  - cbn [below] in Hl. injection Hl as ->.
    destruct (splice_at d i _ (fun _ => frag) Hc) as (l1 & l2 & -> & _ & ->).
    unfold forest_ok in *. apply Forall_app in Hd as [H1 H2].
    inversion H2; subst. apply Forall_app. split; [exact H1|].
    apply Forall_app. split; assumption.
  - cbn [below] in Hl. destruct c as [tx | a cs]; [discriminate|].
    pose proof Hc as Hc'.
    destruct (splice_under d i a cs j p (fun _ => frag) Hc)
      as (l1 & l2 & E & Hlen & ->).
    rewrite E in Hd. unfold forest_ok in *. apply Forall_app in Hd as [H1 H2].
    inversion H2 as [|? ? Ha H3]; subst. apply Forall_app. split; [exact H1|].
    constructor; [|exact H3].
    apply markers_ok_elem in Ha as [Hmark Hcs]. apply markers_ok_elem.
    assert (Hnot : has_class marker_class a = false).
    { destruct (has_class marker_class a) eqn:Hcl; [|reflexivity].
      destruct (Hmark eq_refl) as (L & -> & _).
      destruct p as [|j2 p].
      - now rewrite (parent_is_marker_child _ _ a [Text L] j Hc'), Hcl in Hm.
      - rewrite lookup_cons in Hl. destruct j as [|[|j]]; discriminate. }
    split; [intros Ht; congruence|].
    apply IH; [exact Hcs | exact Hl |].
    destruct p as [|j2 p]; [reflexivity|].
    now rewrite (parent_is_marker_deep _ _ a cs j j2 p Hc') in Hm.
Qed.

Lemma fragment_ok before timestamp seconds after :
  collected (timestamp, seconds) ->
  Forall markers_ok (fragment before timestamp seconds after).
Proof.
  intros [Hg Hs]. cbn [fst snd] in *. unfold fragment.
  assert (Ht : forall s, Forall markers_ok (text_if_any s)).
  { intros [|c s]; repeat constructor. }
  apply Forall_app. split; [apply Ht|]. constructor; [|apply Ht].
  pose proof (parse_nonneg timestamp) as Hpos.
  destruct (grammar_head timestamp Hg) as (c & tl & E & _). subst timestamp.
  unfold timestampSpan. apply markers_ok_elem. split.
  - intros _. exists (c :: tl). cbn [onclick].
    split; [reflexivity|]. split; [exact Hg|].
    split; [now rewrite Hs|]. intros n. now apply Hpos.
  - repeat constructor.
Qed.

(** X3.  The pass keeps the markers well formed: if every marker of the
    document wraps one literal of the grammar and carries the seconds
    that parseTimestamp gives its text (never negative), so does every
    marker after the pass, those it created included. *)
Theorem pass_markers_ok (d : dom) :
  forest_ok d -> forest_ok (addTimestampButtons d).
Proof.
  apply (pass_keeps (fun d0 d1 => forest_ok d0 -> forest_ok d1)).
  - auto.
  - auto.
  - intros d0 p before timestamp seconds after Hc Hl Hm Hd.
    apply (forest_ok_splice _ _ (fragment_ok before timestamp seconds after Hc)
             p d0 Hd Hl Hm).
Qed.

Lemma twice_page_ok : forest_ok twice_page.
Proof.
  unfold forest_ok, twice_page, block, el.
  repeat constructor; cbn; intros H; discriminate.
Defined.

Lemma pass_markers_ok_witness : forest_ok (addTimestampButtons twice_page).
Proof. exact (pass_markers_ok twice_page twice_page_ok). Defined.

(** ** Without a start, the text stays *)

Lemma without_style_none d : count styles d = 0 -> without_style d = d.
Proof.
  intros H. unfold without_style, getElementById.
  unfold count in H. apply length_zero_iff_nil in H.
  fold styles. now rewrite H.
Qed.

Lemma cleanup_keeps_text w :
  count styles (document w) = 0 ->
  document_text (document (cleanupTimestampObserver w))
  = document_text (document w)
  /\ count styles (document (cleanupTimestampObserver w)) = 0.
Proof.
  intros H. split.
  - rewrite cleanup_document, (without_style_none _ H).
    apply unwrapped_text_forest.
  - apply cleanup_styles. lia.
Qed.

Lemma timerFires_keeps_text w :
  count styles (document w) = 0 ->
  document_text (document (timerFires w)) = document_text (document w)
  /\ count styles (document (timerFires w)) = 0.
Proof.
  intros H. unfold timerFires. destruct (timers w); [auto|].
  cbn [document]. split; [apply pass_keeps_text|].
  pose proof (addTimestampButtons_styles (document w)). lia.
Qed.

Lemma fire_due_keeps_text until : forall n w,
  count styles (document w) = 0 ->
  document_text (document (fire_due n until w)) = document_text (document w)
  /\ count styles (document (fire_due n until w)) = 0.
Proof.
  induction n as [|n IH]; intros w H; [auto|].
  cbn [fire_due]. destruct (timers w) as [|due pending]; [auto|].
  destruct (due <=? until); [|auto].
  destruct (timerFires_keeps_text w H) as [Ht Hs].
  destruct (IH (timerFires w) Hs) as [Ht' Hs']. split; congruence.
Qed.

Lemma step_keeps_text w e :
  not_start e = true ->
  count styles (document w) = 0 ->
  document_text (document (step w e)) = document_text (document w)
  /\ count styles (document (step w e)) = 0.
Proof.
  intros He H. destruct e as [| | o mutations | dt]; [discriminate | | |];
    cbn [step].
  - now apply cleanup_keeps_text.
  - destruct (existsb (Nat.eqb o) (observers w)); [|auto].
    unfold observerCallback. destruct (existsb _ mutations); auto.
  - unfold elapse. cbn [document]. now apply fire_due_keeps_text.
Qed.

(** X4.  On a page without a style element of the watcher, nothing but a
    start changes the text of the document: whatever notifications come,
    whatever passes and stops run, the text reads as before. *)
Theorem text_kept_without_start (trace : list event) (w : world) :
  forallb not_start trace = true ->
  count styles (document w) = 0 ->
  document_text (document (run w trace)) = document_text (document w).
Proof.
  revert w. induction trace as [|e trace IH]; intros w Ht Hs; [reflexivity|].
  cbn [forallb] in Ht. apply andb_true_iff in Ht as [He Ht].
  destruct (step_keeps_text w e He Hs) as [H1 H2].
  cbn [run fold_left]. fold (run (step w e) trace).
  rewrite (IH (step w e) Ht H2). exact H1.
Qed.

Lemma text_kept_without_start_witness :
  let w := run (stopped twice_page) [Start; Notify 0 [added_one]; Stop] in
  timers w <> []
  /\ count marker_selector (document (run w [Elapse 100])) = 2
  /\ count marker_selector
       (document (run w [Elapse 100; Notify 0 [added_one]; Stop])) = 0
  /\ document_text
       (document (run w [Elapse 100; Notify 0 [added_one]; Stop; Elapse 5]))
     = document_text (document w).
Proof.
  cbv zeta. split; [discriminate|]. split; [reflexivity|].
  split; [reflexivity|].
  apply text_kept_without_start; reflexivity.
Defined.

(* ================================================================== *)
(** * More on the timestamps *)

Lemma existsb_str_false (acc : list (str * option Z)) timestamp :
  existsb (fun t => str_eqb (fst t) timestamp) acc = false ->
  ~ In timestamp (map fst acc).
Proof.
  intros H Hin. apply in_map_iff in Hin as (t & <- & Ht).
  assert (E : existsb (fun t0 => str_eqb (fst t0) (fst t)) acc = true).
  { apply existsb_exists. exists t. split; [exact Ht | apply str_eqb_refl]. }
  congruence.
Qed.

Lemma collect_timestamps text : forall fuel lastIndex acc,
  NoDup (map fst acc) -> Forall (timestamp_of text) acc ->
  NoDup (map fst (collect fuel text lastIndex acc))
  /\ Forall (timestamp_of text) (collect fuel text lastIndex acc).
Proof.
  induction fuel as [|fuel IH]; intros lastIndex acc Hnd Hacc; [auto|].
  cbn [collect].
  destruct (exec ALL_TIMESTAMPS_PATTERN text lastIndex) as [m|] eqn:He; [|auto].
  destruct (existsb _ acc) eqn:Hex; [now apply IH|].
  apply existsb_str_false in Hex.
  apply exec_sound in He
    as (pre & L & post & c & tl & _ & HL & Hpost & Hc & H1 & H0 & Hs & _).
  rewrite H1 in *. apply IH.
  - rewrite map_app. cbn [map fst]. apply NoDup_app; auto.
    + repeat constructor. intros [].
    + intros x Hx [<- | []]. contradiction.
  - apply Forall_app. split; [exact Hacc|]. constructor; [|constructor].
    split; [exact HL|]. split; [reflexivity|]. cbn [fst].
    exists (firstn (m_index m) text ++ pre), post, c, tl.
    split; [exact Hpost|]. split; [exact Hc|].
    rewrite <- (firstn_skipn (m_index m) text) at 1. rewrite Hs, H0.
    now rewrite <- !app_assoc.
Qed.

(** X5.  The timestamps collected from the text of a block are pairwise
    distinct; each is a literal of the grammar that stands in the text
    before an optional bold delimiter and a blank, paired with the
    seconds parseTimestamp gives it. *)
Theorem collected_timestamps (text : str) :
  NoDup (map fst (collect (S (length text)) text 0 []))
  /\ Forall (timestamp_of text) (collect (S (length text)) text 0 []).
Proof. apply collect_timestamps; constructor. Qed.

(** X6.  For offsets that are not negative and below 2^53,
    formatTimestamp gives five characters below one hour and eight from
    one hour to below a hundred hours; two offsets give the same string
    exactly when they are in the same second. *)
Theorem formatTimestamp_length_and_seconds (a b : Z) :
  (0 <= a < 2 ^ 53)%Z -> (0 <= b < 2 ^ 53)%Z ->
  ((a / 1000 < 3600)%Z -> length (formatTimestamp a) = 5)
  /\ ((3600 <= a / 1000 < 360000)%Z -> length (formatTimestamp a) = 8)
  /\ (formatTimestamp a = formatTimestamp b <-> (a / 1000 = b / 1000)%Z).
Proof.
  intros Ha Hb. split; [|split].
  - intros Hlt. destruct (format_parse a Ha) as (_ & _ & Hshort & _).
    destruct (Hshort Hlt) as (m & s & -> & [Hm _] & [Hs _]).
    rewrite length_app. simpl. lia.
  - intros [Hge Hlt]. rewrite (format_long a Ha Hge).
    assert (Ht : (0 <= a / 1000)%Z) by lia.
    pose proof (Z.mod_pos_bound (a / 1000) 60 ltac:(lia)).
    pose proof (Z.mod_pos_bound (a / 1000) 3600 ltac:(lia)).
    destruct (pad_two (a / 1000 / 3600)) as [[Hh _] _].
    { split; [apply Z.div_pos; lia | apply Z.div_lt_upper_bound; lia]. }
    destruct (pad_two ((a / 1000) mod 3600 / 60)) as [[Hm _] _].
    { split; [apply Z.div_pos; lia | apply Z.div_lt_upper_bound; lia]. }
    destruct (pad_two ((a / 1000) mod 60)) as [[Hs _] _]; [lia|].
    rewrite length_app. cbn [length]. rewrite length_app. cbn [length]. lia.
  - split.
    + intros E. destruct (format_parse a Ha) as (_ & Hpa & _).
      destruct (format_parse b Hb) as (_ & Hpb & _).
      rewrite E in Hpa. congruence.
    + intros E. rewrite (format_exact a Ha), (format_exact b Hb).
      now rewrite E.
Qed.

Lemma formatTimestamp_length_and_seconds_witness :
  length (formatTimestamp 59999) = 5
  /\ length (formatTimestamp 3600000) = 8
  /\ (formatTimestamp 61000 = formatTimestamp 61999
      <-> (61000 / 1000 = 61999 / 1000)%Z).
Proof.
  assert (B : forall x, (0 <= x < 100000000)%Z -> (0 <= x < 2 ^ 53)%Z).
  { intros x Hx. split; [lia|].
    apply (Z.lt_trans _ 100000000); [lia | reflexivity]. }
  destruct (formatTimestamp_length_and_seconds 59999 0
              (B 59999%Z ltac:(lia)) (B 0%Z ltac:(lia))) as (H5 & _ & _).
  destruct (formatTimestamp_length_and_seconds 3600000 0
              (B 3600000%Z ltac:(lia)) (B 0%Z ltac:(lia))) as (_ & H8 & _).
  destruct (formatTimestamp_length_and_seconds 61000 61999
              (B 61000%Z ltac:(lia)) (B 61999%Z ltac:(lia))) as (_ & _ & Hi).
  split; [apply H5; reflexivity|].
  split; [apply H8; vm_compute; split; [discriminate | reflexivity] | exact Hi].
Defined.

(** X7.  parseTimestamp outside the grammar, on parts of digits whose
    numbers stay below 2^53: without a colon there is no second part
    and no number results; an empty part counts as zero; with four
    parts only the first two are read, as minutes and seconds. *)
Theorem parseTimestamp_outside_grammar (a b c e : str) :
  all_digits a -> all_digits b -> all_digits c -> all_digits e ->
  (decimal a * 60 + decimal b < 2 ^ 53)%Z ->
  parseTimestamp a = None
  /\ parseTimestamp (colon :: b) = Some (decimal b)
  /\ parseTimestamp (a ++ [colon]) = Some (decimal a * 60)%Z
  /\ parseTimestamp (a ++ colon :: b ++ colon :: c ++ colon :: e)
     = Some (decimal a * 60 + decimal b)%Z.
Proof.
  intros Ha Hb Hc He Hlt.
  pose proof (decimal_nonneg a Ha) as Ha0.
  pose proof (decimal_nonneg b Hb) as Hb0.
  split; [|split; [|split]].
  - unfold parseTimestamp. rewrite (split_digits a Ha).
    cbn [map length Nat.eqb part nth_error].
    now destruct (nmul (Number a) 60).
  - change (colon :: b) with ([] ++ colon :: b).
    rewrite (parse_two [] b (Forall_nil _) Hb); [reflexivity|].
    change (decimal []) with 0%Z. lia.
  - rewrite (parse_two a [] Ha (Forall_nil _)).
    + f_equal. change (decimal []) with 0%Z. lia.
    + change (decimal []) with 0%Z. lia.
  - unfold parseTimestamp.
    rewrite (split_digits_colon a _ Ha), (split_digits_colon b _ Hb),
      (split_digits_colon c _ Hc), (split_digits e He).
    cbn [map length Nat.eqb part nth_error].
    rewrite (Number_small a Ha), (Number_small b Hb) by lia.
    cbn [nmul nadd]. rewrite double_small by lia. cbn [nadd].
    now rewrite double_small by lia.
Qed.

Lemma parseTimestamp_outside_grammar_witness :
  parseTimestamp (u "130") = None
  /\ parseTimestamp (colon :: u "30") = Some (decimal (u "30"))
  /\ parseTimestamp (u "130" ++ [colon]) = Some (decimal (u "130") * 60)%Z
  /\ parseTimestamp (u "130" ++ colon :: u "30" ++ colon :: u "02" ++ colon :: u "03")
     = Some (decimal (u "130") * 60 + decimal (u "30"))%Z.
Proof.
  apply parseTimestamp_outside_grammar;
    try (apply all_digits_here; reflexivity).
  reflexivity.
Defined.

(* ================================================================== *)
(** * More on findYouTubePlayer and on the watcher *)

Lemma inclusive_ancestors_prefix p : forall n q,
  In q (inclusive_ancestors n p) -> exists r, p = q ++ r.
Proof.
  induction n as [|n IH]; intros q H; cbn [inclusive_ancestors In] in H;
    [contradiction|].
  destruct H as [<- | H]; [|now apply IH].
  exists (skipn (S n) p). symmetry. apply firstn_skipn.
Qed.

Lemma closest_prefix c d p q :
  closest c d p = Some q ->
  class_at c d q = true /\ exists r, p = q ++ r.
Proof.
  unfold closest. intros H. apply find_some in H as [Hin Hc].
  split; [exact Hc | now apply inclusive_ancestors_prefix in Hin].
Qed.

Lemma parentElement_prefix p q :
  parentElement p = Some q -> exists x, p = q ++ [x].
Proof.
  unfold parentElement. destruct p as [|i p]; [discriminate|].
  intros H. assert (E : q = removelast (i :: p)).
  { destruct (removelast (i :: p)); [discriminate | congruence]. }
  subst q. exists (last (i :: p) 0). apply app_removelast_last. discriminate.
Qed.

Lemma querySelector_below s d p q :
  querySelector s d p = Some q -> exists r, r <> [] /\ q = p ++ r.
Proof.
  unfold querySelector.
  destruct (lookup d p) as [[t | a cs]|]; try discriminate.
  destruct (select_forest s (Some a) cs) as [|r rs] eqn:Hs; [discriminate|].
  intros E. injection E as <-. exists r. split; [|reflexivity].
  apply (select_forest_nonempty s (Some a) cs). rewrite Hs. now left.
Qed.

Lemma searchUp_inside d : forall fuel current iframe,
  searchUp fuel d current = Found iframe ->
  exists container inside above,
    class_at container_class d container = true
    /\ inside <> [] /\ iframe = container ++ inside
    /\ above <> [] /\ current = container ++ above.
Proof.
  induction fuel as [|fuel IH]; intros current iframe H; [discriminate|].
  cbn [searchUp] in H.
  destruct (closest container_class d current) as [container|] eqn:Hc;
    [|discriminate].
  destruct (parentElement container) as [pe|] eqn:Hpe; [|discriminate].
  destruct (closest container_class d pe) as [pc|] eqn:Hpc; [|discriminate].
  apply closest_prefix in Hc as [_ [r1 E1]].
  apply parentElement_prefix in Hpe as [x E2].
  apply closest_prefix in Hpc as [Hclass [r2 E3]].
  assert (Habove : current = pc ++ (r2 ++ [x] ++ r1)).
  { rewrite E1, E2, E3. now rewrite <- !app_assoc. }
  destruct (querySelector player_selector d pc) as [q|] eqn:Hq.
  - injection H as <-. apply querySelector_below in Hq as (r & Hr & ->).
    exists pc, r, (r2 ++ [x] ++ r1). repeat split; auto.
    intros E. apply app_eq_nil in E as [_ E]. discriminate.
  - apply IH in H as (c & inside & above & H1 & H2 & H3 & H4 & H5).
    exists c, inside, (above ++ r2 ++ [x] ++ r1). repeat split; auto.
    + intros E. apply app_eq_nil in E as [E _]. contradiction.
    + rewrite Habove, H5. now rewrite <- !app_assoc.
Qed.

(** X8.  When the block element is in no block container,
    findYouTubePlayer gives the first player of the document, if any.
    When the search through the ancestors hits, the player it gives lies
    inside a block container that properly contains the block element. *)
Theorem findYouTubePlayer_where (d : dom) (blockElement : path) :
  (closest container_class d blockElement = None ->
     findYouTubePlayer d blockElement
     = hd_error (querySelectorAll player_selector d))
  /\ (forall iframe,
        searchUp (S (length blockElement)) d blockElement = Found iframe ->
        findYouTubePlayer d blockElement = Some iframe
        /\ exists container inside above,
             class_at container_class d container = true
             /\ inside <> [] /\ iframe = container ++ inside
             /\ above <> [] /\ blockElement = container ++ above).
Proof.
  split.
  - intros H. unfold findYouTubePlayer. cbn [searchUp]. rewrite H.
    now destruct (querySelectorAll player_selector d).
  - intros iframe H. split; [unfold findYouTubePlayer; now rewrite H|].
    now apply searchUp_inside in H.
Qed.

Lemma findYouTubePlayer_where_witness :
  findYouTubePlayer player_page [1]
  = hd_error (querySelectorAll player_selector player_page).
Proof. apply (proj1 (findYouTubePlayer_where player_page [1])). reflexivity. Defined.

Lemma existsb_filter_out o l :
  existsb (Nat.eqb o) (filter (fun x => negb (x =? o)) l) = false.
Proof.
  induction l as [|x l IH]; [reflexivity|]. cbn [filter].
  destruct (x =? o) eqn:E; cbn [negb]; [exact IH|].
  cbn [existsb]. rewrite Nat.eqb_sym, E. exact IH.
Qed.

(** X9.  After a stop the observer that was remembered arms no timeout
    any more: a notification for it changes nothing; and when it was the
    only connected observer, no notification changes anything. *)
Theorem stop_silences_the_observer (w : world) (mutations : list MutationRecord) :
  (forall o, YTSObserver w = Some o ->
     step (cleanupTimestampObserver w) (Notify o mutations)
     = cleanupTimestampObserver w)
  /\ ((forall x, In x (observers w) -> YTSObserver w = Some x) ->
      forall o, step (cleanupTimestampObserver w) (Notify o mutations)
                = cleanupTimestampObserver w).
Proof.
  split.
  - intros o Ho. cbn [step]. unfold cleanupTimestampObserver at 1.
    cbn [observers]. rewrite Ho, existsb_filter_out. reflexivity.
  - intros Hall o. cbn [step]. rewrite (cleanup_observers w Hall). reflexivity.
Qed.

Lemma stop_silences_the_observer_witness :
  step (cleanupTimestampObserver
          (world_of (initTimestampObserver (stopped twice_page))))
       (Notify 0 [added_one])
  = cleanupTimestampObserver
      (world_of (initTimestampObserver (stopped twice_page))).
Proof.
  apply (proj1 (stop_silences_the_observer
                  (world_of (initTimestampObserver (stopped twice_page)))
                  [added_one])).
  reflexivity.
Defined.

(* ================================================================== *)
(** * Addresses: the matcher *)

Lemma star_set_sound p kont : forall s res,
  star_set p kont s = Some res ->
  exists ds s', s = ds ++ s' /\ Forall (fun c => p c = true) ds
                /\ kont s' = Some res.
Proof.
  induction s as [|c s IH]; intros res H; cbn [star_set] in H.
  - exists [], []. auto.
  - destruct (p c) eqn:Hc; [|exists [], (c :: s); auto].
    destruct (star_set p kont s) as [r|] eqn:Hs.
    + injection H as ->. destruct (IH _ eq_refl) as (ds & s' & -> & Hds & Hk).
      exists (c :: ds), s'. repeat split; auto.
    + exists [], (c :: s). auto.
Qed.

Lemma xmatch_sound r : forall kont st res,
  xmatch r kont st = Some res ->
  exists st', xreads r st st' /\ kont st' = Some res.
Proof.
  induction r as [p | p | p | r1 IH1 r2 IH2 | r1 IH1 r2 IH2 | r1 IH1
                 | n r1 IH1 | ];
    intros kont st res H; cbn [xmatch] in H.
  - destruct (xrest st) as [|c s'] eqn:Hs; [discriminate|].
    destruct (p c) eqn:Hc; [|discriminate].
    exists {| xrest := s'; xcap := xcap st |}. split; [|exact H].
    exists c. auto.
  - apply star_set_sound in H as (ds & s' & Hs & Hds & Hk).
    exists {| xrest := s'; xcap := xcap st |}. split; [|exact Hk].
    exists ds. auto.
  - destruct (xrest st) as [|c s0] eqn:Hs; [discriminate|].
    destruct (p c) eqn:Hc; [|discriminate].
    apply star_set_sound in H as (ds & s' & -> & Hds & Hk).
    exists {| xrest := s'; xcap := xcap st |}. split; [|exact Hk].
    exists (c :: ds). repeat split; auto. discriminate.
  - apply IH1 in H as (mid & Hm & H). apply IH2 in H as (st' & Hr & Hk).
    exists st'. split; [exists mid; auto | exact Hk].
  - destruct (xmatch r1 kont st) as [x|] eqn:Hx.
    + injection H as ->. apply IH1 in Hx as (st' & Hr & Hk).
      exists st'. split; [left; exact Hr | exact Hk].
    + apply IH2 in H as (st' & Hr & Hk).
      exists st'. split; [right; exact Hr | exact Hk].
  - destruct (xmatch r1 kont st) as [x|] eqn:Hx.
    + injection H as ->. apply IH1 in Hx as (st' & Hr & Hk).
      exists st'. split; [left; exact Hr | exact Hk].
    + exists st. split; [right; reflexivity | exact H].
  - apply IH1 in H as (st1 & Hr & Hk).
    eexists. split; [|exact Hk]. exists st1. cbn [xrest xcap].
    rewrite Nat.eqb_refl. auto.
  - destruct (xrest st) eqn:Hs; [|discriminate].
    exists st. split; [split; auto | exact H].
Qed.

(** What a pattern reads is a prefix of the input. *)
Lemma xreads_consumed r : forall st st',
  xreads r st st' -> exists w, xrest st = w ++ xrest st'.
Proof.
  induction r as [p | p | p | r1 IH1 r2 IH2 | r1 IH1 r2 IH2 | r1 IH1
                 | n r1 IH1 | ];
    intros st st' H; cbn [xreads] in H.
  - destruct H as (c & H & _). exists [c]. exact H.
  - destruct H as (ds & _ & H & _). exists ds. exact H.
  - destruct H as (ds & _ & _ & H & _). exists ds. exact H.
  - destruct H as (mid & H1 & H2).
    apply IH1 in H1 as [w1 E1]. apply IH2 in H2 as [w2 E2].
    exists (w1 ++ w2). rewrite E1, E2. now rewrite app_assoc.
  - destruct H as [H | H]; [now apply IH1 | now apply IH2].
  - destruct H as [H | ->]; [now apply IH1 | now exists []].
  - destruct H as (st1 & H & E & _). apply IH1 in H as [w Hw].
    exists w. now rewrite E.
  - destruct H as [_ ->]. now exists [].
Qed.

Lemma xliteral_reads cmp : forall lit st st',
  xreads (literal cmp lit) st st' ->
  exists w, spells cmp lit w /\ xrest st = w ++ xrest st'
            /\ xcap st' = xcap st.
Proof.
  induction lit as [|c lit IH]; intros st st' H.
  - cbn [literal xreads] in H. destruct H as (ds & Hds & H & Hc).
    destruct ds as [|d ds]; [|inversion Hds; discriminate].
    exists []. repeat split; auto. constructor.
  - destruct lit as [|c2 lit].
    + cbn [literal xreads] in H. destruct H as (x & H & Hx & Hc).
      exists [x]. repeat split; auto. repeat constructor. exact Hx.
    + change (literal cmp (c :: c2 :: lit))
        with (XSeq (XSet (cmp c)) (literal cmp (c2 :: lit))) in H.
      destruct H as (mid & (x & H1 & Hx & Hc1) & H2).
      apply IH in H2 as (w & Hw & H2 & Hc2).
      exists (x :: w). repeat split.
      * constructor; assumption.
      * rewrite H1, H2. reflexivity.
      * congruence.
Qed.

(** A literal matches in one way only. *)
Lemma xliteral_matches cmp kont cp : forall lit w t,
  spells cmp lit w ->
  xmatch (literal cmp lit) kont {| xrest := w ++ t; xcap := cp |}
  = kont {| xrest := t; xcap := cp |}.
Proof.
  induction lit as [|c lit IH]; intros w t H; inversion H as [|? x ? w' Hx Hw];
    subst.
  - cbn. destruct t; reflexivity.
  - destruct lit as [|c2 lit].
    + inversion Hw; subst. cbn. now rewrite Hx.
    + change (literal cmp (c :: c2 :: lit))
        with (XSeq (XSet (cmp c)) (literal cmp (c2 :: lit))).
      cbn [xmatch xrest xcap app]. rewrite Hx. now apply IH.
Qed.

(** ** xexec *)

Lemma xexec_at_here r s i st :
  xmatch r Some {| xrest := s; xcap := fun _ => None |} = Some st ->
  xexec_at r s i
  = Some {| x_index := i;
            x_0 := firstn (length s - length (xrest st)) s;
            x_cap := xcap st |}.
Proof. intros H. destruct s; cbn [xexec_at]; now rewrite H. Qed.

Lemma xexec_at_sound r : forall s i m,
  xexec_at r s i = Some m ->
  exists k st,
    k <= length s /\ x_index m = i + k
    /\ xmatch r Some {| xrest := skipn k s; xcap := fun _ => None |} = Some st
    /\ x_0 m = firstn (length (skipn k s) - length (xrest st)) (skipn k s)
    /\ x_cap m = xcap st
    /\ (forall j, j < k ->
          xmatch r Some {| xrest := skipn j s; xcap := fun _ => None |} = None).
Proof.
  induction s as [|c s IH]; intros i m H.
  - cbn [xexec_at] in H. destruct (xmatch r Some _) as [st|] eqn:Hr; [|discriminate].
    injection H as <-. exists 0, st. cbn [skipn x_index x_0 x_cap].
    rewrite Nat.add_0_r. repeat split; auto. intros j Hj. lia.
  - cbn [xexec_at] in H. destruct (xmatch r Some _) as [st|] eqn:Hr.
    + injection H as <-. exists 0, st. cbn [skipn x_index x_0 x_cap].
      rewrite Nat.add_0_r. repeat split; auto; [cbn; lia|]. intros j Hj. lia.
    + apply IH in H as (k & st & Hk & Hi & Hm & H0 & H1 & Hmin).
      exists (S k), st. cbn [skipn length]. repeat split; auto; try lia.
      intros [|j] Hj; [exact Hr|]. apply Hmin. lia.
Qed.

Lemma xexec_at_none r : forall s i,
  xexec_at r s i = None ->
  forall k, xmatch r Some {| xrest := skipn k s; xcap := fun _ => None |} = None.
Proof.
  induction s as [|c s IH]; intros i H k.
  - cbn [xexec_at] in H. destruct (xmatch r Some _) eqn:Hr; [discriminate|].
    destruct k; exact Hr.
  - cbn [xexec_at] in H. destruct (xmatch r Some _) eqn:Hr; [discriminate|].
    destruct k as [|k]; [exact Hr|]. cbn [skipn]. now apply (IH (S i)).
Qed.

Lemma xexec_at_finds r : forall before s i st,
  xmatch r Some {| xrest := s; xcap := fun _ => None |} = Some st ->
  exists m, xexec_at r (before ++ s) i = Some m.
Proof.
  induction before as [|c before IH]; intros s i st H.
  - eexists. apply (xexec_at_here r s i st H).
  - cbn [app xexec_at].
    destruct (xmatch r Some {| xrest := c :: before ++ s; xcap := _ |});
      [eauto|].
    apply (IH s (S i) st H).
Qed.

Lemma firstn_consumed (w t : str) :
  firstn (length (w ++ t) - length t) (w ++ t) = w.
Proof.
  rewrite length_app, Nat.add_sub, firstn_app, Nat.sub_diag, firstn_all.
  cbn. apply app_nil_r.
Qed.

(** A match of [xexec]: where it is, what it reads, and that nothing
    matches before it. *)
Lemma xexec_sound r text lastIndex m :
  xexec r text lastIndex = Some m ->
  exists st' tl,
    xreads r {| xrest := x_0 m ++ tl; xcap := fun _ => None |} st'
    /\ xrest st' = tl /\ x_cap m = xcap st'
    /\ skipn (x_index m) text = x_0 m ++ tl
    /\ lastIndex <= x_index m
    /\ (forall j, lastIndex <= j < x_index m ->
          xmatch r Some {| xrest := skipn j text; xcap := fun _ => None |}
          = None).
Proof.
  unfold xexec. destruct (length text <? lastIndex) eqn:Hlen; [discriminate|].
  intros H. apply xexec_at_sound in H as (k & st & Hk & Hi & Hm & H0 & H1 & Hmin).
  apply xmatch_sound in Hm as (st' & Hr & E). injection E as <-.
  destruct (xreads_consumed r _ _ Hr) as [w Hw]. cbn [xrest] in Hw.
  assert (E0 : x_0 m = w) by (rewrite H0, Hw; apply firstn_consumed).
  assert (Hskip : skipn (x_index m) text = w ++ xrest st').
  { rewrite Hi, Nat.add_comm, <- skipn_skipn. exact Hw. }
  exists st', (xrest st'). rewrite E0. repeat split; auto.
  - now rewrite <- Hw.
  - lia.
  - intros j [Hj1 Hj2].
    replace j with ((j - lastIndex) + lastIndex) by lia.
    rewrite <- skipn_skipn. apply Hmin. lia.
Qed.

(* ================================================================== *)
(** * cleanYouTubeUrl *)

Lemma star_set_all p kont r : forall ds,
  Forall (fun c => p c = true) ds -> kont [] = Some r ->
  star_set p kont ds = Some r.
Proof.
  induction ds as [|c ds IH]; intros H Hk; [exact Hk|].
  inversion H as [|? ? Hc Hds]; subst. cbn [star_set].
  now rewrite Hc, (IH Hds Hk).
Qed.

Lemma star_set_total p kont :
  (forall s, kont s <> None) -> forall s, star_set p kont s <> None.
Proof.
  intros Hk. induction s as [|c s IH]; cbn [star_set]; [apply Hk|].
  destruct (p c); [|apply Hk].
  destruct (star_set p kont s); [discriminate | apply Hk].
Qed.

Lemma trailing_matches c ds :
  is_trailing c = true -> Forall (fun c => is_trailing c = true) ds ->
  xmatch trailingPattern Some {| xrest := c :: ds; xcap := fun _ => None |}
  <> None.
Proof.
  intros Hc Hds. unfold trailingPattern. cbn [xmatch xrest xcap].
  rewrite Hc.
  erewrite star_set_all; [discriminate | exact Hds | reflexivity].
Qed.

Lemma trailing_reads st st' :
  xreads trailingPattern st st' ->
  xrest st <> [] /\ Forall (fun c => is_trailing c = true) (xrest st)
  /\ xrest st' = [].
Proof.
  intros (mid & (ds & Hne & Hds & Hs & _) & (He & ->)).
  rewrite Hs, He, app_nil_r. repeat split; auto.
Qed.

Lemma skipn_last {A} (x : list A) (c : A) (t : list A) :
  skipn (length x) (x ++ c :: t) = c :: t.
Proof. now rewrite skipn_app, skipn_all, Nat.sub_diag. Qed.

(** What cleanYouTubeUrl does: it removes the longest run of trailing
    characters at the end. *)
Lemma clean_spec (url : str) :
  exists t, url = cleanYouTubeUrl url ++ t
            /\ Forall (fun c => is_trailing c = true) t
            /\ ends_clean (cleanYouTubeUrl url).
Proof.
  unfold cleanYouTubeUrl.
  destruct (xexec trailingPattern url 0) as [m|] eqn:H.
  - apply xexec_sound in H as (st' & tl & Hr & Htl & _ & Hs & _ & Hmin).
    apply trailing_reads in Hr as (Hne & Hall & He). cbn [xrest] in *.
    rewrite Htl in He. subst tl. rewrite app_nil_r in *.
    assert (Hu : url = firstn (x_index m) url ++ x_0 m).
    { now rewrite <- Hs, firstn_skipn. }
    assert (Hlen : x_index m + length (x_0 m) = length url).
    { assert (x_index m < length url).
      { destruct (Nat.lt_ge_cases (x_index m) (length url)) as [?|Hge]; auto.
        rewrite skipn_all2 in Hs by exact Hge. now destruct Hne. }
      pose proof (f_equal (@length N) Hu) as El.
      rewrite length_app, length_firstn in El. lia. }
    rewrite Hlen, skipn_all, app_nil_r.
    exists (x_0 m). repeat split; auto.
    intros x c E. destruct (is_trailing c) eqn:Hc; [exfalso|reflexivity].
    assert (Hx : length x < x_index m).
    { apply (f_equal (@length N)) in E.
      rewrite length_app, length_firstn in E. cbn in E. lia. }
    refine (trailing_matches c (x_0 m) Hc Hall _).
    rewrite <- (Hmin (length x) (conj (Nat.le_0_l _) Hx)). do 2 f_equal.
    rewrite Hu, E, <- app_assoc. cbn [app]. symmetry. apply skipn_last.
  - exists []. rewrite app_nil_r. repeat split; [constructor|].
    intros x c E. destruct (is_trailing c) eqn:Hc; [exfalso|reflexivity].
    unfold xexec in H. cbn [Nat.ltb Nat.leb skipn] in H.
    refine (trailing_matches c [] Hc (Forall_nil _) _).
    rewrite <- (xexec_at_none _ _ _ H (length x)). do 2 f_equal.
    rewrite E. symmetry. apply skipn_last.
Qed.

Lemma ends_clean_keeps (s : str) : ends_clean s -> cleanYouTubeUrl s = s.
Proof.
  intros Hs. destruct (clean_spec s) as (t & E & Ht & _).
  destruct t as [|n t]; [now rewrite app_nil_r in E|].
  exfalso. destruct (exists_last (l := n :: t)) as (t' & c & Et);
    [discriminate|].
  rewrite Et in E, Ht. apply Forall_app in Ht as [_ Ht].
  inversion Ht as [|? ? Hc _]; subst.
  rewrite app_assoc in E. rewrite (Hs _ _ E) in Hc. discriminate.
Qed.

(** X10. cleanYouTubeUrl removes the whole run of trailing characters at
    the end of the address and nothing else: the address is the result
    followed by trailing characters only, the result does not end with
    one, and cleaning a second time changes nothing. *)
Theorem cleanYouTubeUrl_removes_the_trailing_run (url : str) :
  (exists t, url = cleanYouTubeUrl url ++ t
             /\ Forall (fun c => is_trailing c = true) t)
  /\ ends_clean (cleanYouTubeUrl url)
  /\ cleanYouTubeUrl (cleanYouTubeUrl url) = cleanYouTubeUrl url.
Proof.
  destruct (clean_spec url) as (t & E & Ht & Hc).
  split; [exists t; auto|]. split; [exact Hc|].
  now apply ends_clean_keeps.
Qed.

(* ================================================================== *)
(** * isYouTubeUrl *)

Lemma youtube_matches lit w b :
  lit = u "youtube.com" \/ lit = u "youtu.be" ->
  spells same_letter lit w ->
  xmatch youtubePattern Some {| xrest := w ++ b; xcap := fun _ => None |}
  <> None.
Proof.
  intros Hl Hw. unfold youtubePattern. cbn [xmatch].
  destruct (xmatch (literal same_letter (u "youtube.com")) Some _) eqn:H1;
    [discriminate|].
  destruct Hl as [-> | ->].
  - rewrite (xliteral_matches same_letter Some _ _ w b Hw) in H1. discriminate.
  - rewrite (xliteral_matches same_letter Some _ _ w b Hw). discriminate.
Qed.

Lemma isYouTubeUrl_names (url : str) :
  isYouTubeUrl url = true <-> names_youtube url.
Proof.
  unfold isYouTubeUrl. split.
  - destruct (xexec youtubePattern url 0) as [m|] eqn:H; [intros _|discriminate].
    apply xexec_sound in H as (st' & tl & Hr & Htl & _ & Hs & _).
    assert (Hu : url = firstn (x_index m) url ++ x_0 m ++ tl).
    { now rewrite <- Hs, firstn_skipn. }
    destruct Hr as [Hr | Hr]; apply xliteral_reads in Hr as (w & Hw & E & _);
      cbn [xrest] in E; rewrite Htl in E; apply app_inv_tail in E;
      [left | right]; exists (firstn (x_index m) url), w, tl; split; auto;
      now rewrite <- E.
  - intros H.
    assert (Hm : exists lit a w b,
               (lit = u "youtube.com" \/ lit = u "youtu.be")
               /\ url = a ++ w ++ b /\ spells same_letter lit w).
    { destruct H as [(a & w & b & E & Hw) | (a & w & b & E & Hw)];
        eexists _, a, w, b; eauto. }
    destruct Hm as (lit & a & w & b & Hl & -> & Hw).
    pose proof (youtube_matches lit w b Hl Hw) as Hne.
    destruct (xmatch youtubePattern Some _) as [st|] eqn:Hst; [|now destruct Hne].
    unfold xexec. cbn [Nat.ltb Nat.leb skipn].
    destruct (xexec_at_finds youtubePattern a _ 0 st Hst) as [m ->].
    reflexivity.
Qed.

(** X11. isYouTubeUrl holds exactly of the strings in which youtube.com
    or youtu.be occurs somewhere, in any case of the letters. *)
Theorem isYouTubeUrl_iff_names_youtube (url : str) :
  isYouTubeUrl url = true <-> names_youtube url.
Proof. exact (isYouTubeUrl_names url). Qed.

(* ================================================================== *)
(** * extractYouTubeUrl *)

(** Cleaning keeps a prefix that ends with a character it does not
    remove. *)
Lemma clean_keeps_prefix (url y b : str) (c : N) :
  url = (y ++ [c]) ++ b -> is_trailing c = false ->
  exists b', cleanYouTubeUrl url = (y ++ [c]) ++ b'.
Proof.
  intros E Hc. destruct (clean_spec url) as (t & Eu & Ht & _).
  rewrite E in Eu at 1. symmetry in Eu.
  apply app_eq_app in Eu as [l [[E1 E2] | [E1 E2]]].
  - exists l. exact E1.
  - destruct l as [|x l].
    + exists []. rewrite !app_nil_r in *. now symmetry.
    + exfalso. destruct (exists_last (l := x :: l)) as (l' & z & El);
        [discriminate|].
      rewrite El, app_assoc in E1. apply app_inj_tail in E1 as [_ <-].
      rewrite E2, El in Ht. apply Forall_app in Ht as [Ht _].
      apply Forall_app in Ht as [_ Ht]. inversion Ht as [|? ? Hz _]; subst.
      congruence.
Qed.

Lemma letter_not_trailing (l c : N) :
  (97 <= l <= 122)%N -> same_letter l c = true -> is_trailing c = false.
Proof.
  intros Hl H. unfold same_letter in H. apply N.eqb_eq in H.
  assert (Hc : c = l \/ c = (l - 32)%N).
  { unfold upper in H.
    destruct ((97 <=? c)%N && (c <=? 122)%N) eqn:H1;
      destruct ((97 <=? l)%N && (l <=? 122)%N) eqn:H2;
      rewrite ?andb_true_iff, ?andb_false_iff, ?N.leb_le, ?N.leb_gt in *;
      lia. }
  unfold is_trailing. cbn [existsb].
  repeat match goal with
         | |- context [N.eqb c ?k] =>
             let E := fresh in
             destruct (N.eqb_spec c k) as [E|E]; [exfalso; lia|]
         end.
  reflexivity.
Qed.

Lemma spells_last cmp (lit : str) (l : N) (w : str) :
  spells cmp (lit ++ [l]) w ->
  exists w' c, w = w' ++ [c] /\ cmp l c = true /\ spells cmp lit w'.
Proof.
  intros H. apply Forall2_app_inv_l in H as (w' & w2 & H1 & H2 & ->).
  inversion H2 as [|? c ? ? Hc H3]; subst. inversion H3; subst.
  exists w', c. auto.
Qed.

Lemma clean_keeps_spelled (lit : str) (l : N) (url a w b : str) :
  (97 <= l <= 122)%N -> spells same_letter (lit ++ [l]) w ->
  url = a ++ w ++ b ->
  exists b', cleanYouTubeUrl url = a ++ w ++ b'.
Proof.
  intros Hl Hw E. apply spells_last in Hw as (w' & c & -> & Hc & _).
  destruct (clean_keeps_prefix url (a ++ w') b c) as [b' Eb].
  - rewrite E. now rewrite <- !app_assoc.
  - now apply (letter_not_trailing l).
  - exists b'. rewrite Eb. now rewrite <- !app_assoc.
Qed.

Lemma clean_names (url : str) :
  names_youtube url -> names_youtube (cleanYouTubeUrl url).
Proof.
  intros [(a & w & b & E & Hw) | (a & w & b & E & Hw)].
  - destruct (clean_keeps_spelled (u "youtube.co") 109 url a w b) as [b' Eb];
      [lia | exact Hw | exact E |].
    left. now exists a, w, b'.
  - destruct (clean_keeps_spelled (u "youtu.b") 101 url a w b) as [b' Eb];
      [lia | exact Hw | exact E |].
    right. now exists a, w, b'.
Qed.

Lemma clean_http (url : str) :
  starts_with_http url -> starts_with_http (cleanYouTubeUrl url).
Proof.
  intros (w & rest & E & Hw).
  destruct (clean_keeps_spelled (u "htt") 112 url [] w rest) as [b' Eb];
    [lia | exact Hw | exact E |].
  now exists w, b'.
Qed.

Lemma clean_substring (url text : str) :
  substring_of url text -> substring_of (cleanYouTubeUrl url) text.
Proof.
  intros (a & b & ->). destruct (clean_spec url) as (t & E & _).
  exists a, (t ++ b). rewrite E at 1. now rewrite <- !app_assoc.
Qed.

Lemma names_substring (url text : str) :
  substring_of url text -> names_youtube url -> names_youtube text.
Proof.
  intros (a & b & ->) [(a' & w & b' & -> & Hw) | (a' & w & b' & -> & Hw)];
    [left | right]; exists (a ++ a'), w, (b' ++ b); split; auto;
    now rewrite <- !app_assoc.
Qed.

(** What a cleaned address that a pattern found is. *)
Lemma cleaned_address (cap text : str) :
  substring_of cap text -> starts_with_http cap -> names_youtube cap ->
  substring_of (cleanYouTubeUrl cap) text
  /\ starts_with_http (cleanYouTubeUrl cap)
  /\ names_youtube (cleanYouTubeUrl cap)
  /\ ends_clean (cleanYouTubeUrl cap)
  /\ names_youtube text.
Proof.
  intros Hs Hh Hn. repeat split.
  - now apply clean_substring.
  - now apply clean_http.
  - now apply clean_names.
  - now destruct (clean_spec cap) as (t & _ & _ & H).
  - now apply (names_substring cap).
Qed.

(** ** The markdown link *)

Lemma same_char_letter (lit w : str) :
  spells same_char lit w -> spells same_letter lit w.
Proof.
  intros H. induction H as [|c x lit w Hc _ IH]; constructor; auto.
  unfold same_char in Hc. apply N.eqb_eq in Hc. subst x.
  unfold same_letter. apply N.eqb_refl.
Qed.

Lemma spells_length cmp (lit w : str) :
  spells cmp lit w -> length w = length lit.
Proof. intros H. symmetry. exact (Forall2_length H). Qed.

Lemma markdown_reads st st' :
  xreads markdownLinkPattern st st' ->
  exists before url after,
    xrest st = before ++ url ++ after ++ xrest st'
    /\ before <> [] /\ xcap st' 2 = Some url /\ starts_with_http url.
Proof.
  intros (m1 & H1 & m2 & H2 & m3 & H3 & m4 & H4 & H5).
  apply xliteral_reads in H1 as (w1 & Hw1 & E1 & _).
  destruct H2 as (s1 & (ds & _ & Eds & _) & E2 & _).
  apply xliteral_reads in H3 as (w3 & _ & E3 & _).
  destruct H4 as (s2 & Hbody & E4 & Hcap).
  apply xliteral_reads in H5 as (w5 & _ & E5 & Hc5).
  destruct (xreads_consumed _ _ _ Hbody) as [url Eu].
  destruct Hbody as (a & Ha & Hrest).
  apply xliteral_reads in Ha as (wh & Hwh & Eh & _).
  destruct (xreads_consumed _ _ _ Hrest) as [w' Ew'].
  exists (w1 ++ ds ++ w3), url, w5. repeat split.
  - rewrite E1, Eds, <- E2, E3, Eu, <- E4, E5. now rewrite <- !app_assoc.
  - apply spells_length in Hw1. destruct w1; [discriminate Hw1 | discriminate].
  - rewrite Hc5, Hcap, Eu. f_equal. apply firstn_consumed.
  - exists wh, w'. split; [|now apply same_char_letter].
    rewrite Eh, Ew', app_assoc in Eu. now apply app_inv_tail in Eu.
Qed.

Lemma skipn_substring (i : nat) (text a s b : str) :
  skipn i text = a ++ s ++ b -> substring_of s text.
Proof.
  intros E. exists (firstn i text ++ a), b.
  rewrite <- (firstn_skipn i text) at 1. rewrite E. now rewrite <- !app_assoc.
Qed.

Lemma markdown_match text lastIndex m :
  xexec markdownLinkPattern text lastIndex = Some m ->
  exists url,
    x_cap m 2 = Some url /\ substring_of url text /\ starts_with_http url
    /\ lastIndex < x_index m + length (x_0 m) <= length text.
Proof.
  intros H. apply xexec_sound in H as (st' & tl & Hr & Htl & Hc & Hs & Hle & _).
  apply markdown_reads in Hr as (before & url & after & E & Hne & Hcap & Hh).
  cbn [xrest] in E. rewrite Htl in E.
  assert (E0 : x_0 m = before ++ url ++ after).
  { apply (app_inv_tail tl). rewrite E. now rewrite <- !app_assoc. }
  exists url. repeat split; auto.
  - now rewrite Hc.
  - apply (skipn_substring (x_index m) text before url (after ++ tl)).
    now rewrite Hs.
  - rewrite E0, length_app. destruct before; [now destruct Hne|]. cbn. lia.
  - pose proof (f_equal (@length N) Hs) as El.
    rewrite length_skipn, length_app in El.
    assert (0 < length (x_0 m)); [|lia].
    rewrite E0, length_app. destruct before; [now destruct Hne|]. cbn. lia.
Qed.

Lemma markdownLoop_sound text : forall fuel lastIndex url,
  markdownLoop fuel text lastIndex = Some url ->
  exists cap, url = cleanYouTubeUrl cap /\ substring_of cap text
              /\ starts_with_http cap /\ names_youtube cap.
Proof.
  induction fuel as [|f IH]; intros i url H; [discriminate|].
  cbn [markdownLoop] in H.
  destruct (xexec markdownLinkPattern text i) as [m|] eqn:Hm; [|discriminate].
  apply markdown_match in Hm as (cap & Hcap & Hs & Hh & _).
  rewrite Hcap in H. destruct (isYouTubeUrl cap) eqn:Hy; [|now apply IH in H].
  injection H as <-. exists cap. repeat split; auto.
  now apply isYouTubeUrl_names.
Qed.

(** The loop over the links ends by itself: more fuel changes nothing. *)
Lemma markdownLoop_fuel text : forall fuel1 fuel2 lastIndex,
  length text - lastIndex < fuel1 -> length text - lastIndex < fuel2 ->
  markdownLoop fuel1 text lastIndex = markdownLoop fuel2 text lastIndex.
Proof.
  induction fuel1 as [|f1 IH]; intros fuel2 i H1 H2; [lia|].
  destruct fuel2 as [|f2]; [lia|]. cbn [markdownLoop].
  destruct (xexec markdownLinkPattern text i) as [m|] eqn:Hm; [|reflexivity].
  apply markdown_match in Hm as (cap & Hcap & _ & _ & Hlen).
  rewrite Hcap. destruct (isYouTubeUrl cap); [reflexivity|].
  apply IH; lia.
Qed.

(** ** The four patterns *)

Lemma youtube_com_reads tail st st' :
  xreads (youtube_com tail) st st' ->
  exists w, xrest st = w ++ xrest st'
            /\ starts_with_http w /\ names_youtube w.
Proof.
  intros (m1 & H1 & m2 & H2 & m3 & H3 & m4 & H4 & m5 & H5 & H6).
  apply xliteral_reads in H1 as (wh & Hwh & E1 & _).
  apply xreads_consumed in H2 as [a2 E2].
  apply xreads_consumed in H3 as [a3 E3].
  apply xreads_consumed in H4 as [a4 E4].
  apply xliteral_reads in H5 as (wy & Hwy & E5 & _).
  apply xreads_consumed in H6 as [a6 E6].
  exists (wh ++ (a2 ++ a3 ++ a4) ++ wy ++ a6). repeat split.
  - rewrite E1, E2, E3, E4, E5, E6. now rewrite <- !app_assoc.
  - now exists wh, ((a2 ++ a3 ++ a4) ++ wy ++ a6).
  - left. exists (wh ++ a2 ++ a3 ++ a4), wy, a6. split; auto.
    now rewrite <- !app_assoc.
Qed.

Lemma shortLink_reads st st' :
  xreads shortLinkPattern st st' ->
  exists w, xrest st = w ++ xrest st'
            /\ starts_with_http w /\ names_youtube w.
Proof.
  intros (m1 & H1 & m2 & H2 & m3 & H3 & H4).
  apply xliteral_reads in H1 as (wh & Hwh & E1 & _).
  apply xreads_consumed in H2 as [a2 E2].
  apply xliteral_reads in H3 as (wy & Hwy & E3 & _).
  apply xreads_consumed in H4 as [a4 E4].
  change (u "://youtu.be/") with (u "://" ++ u "youtu.be" ++ u "/") in Hwy.
  apply Forall2_app_inv_l in Hwy as (p1 & p2 & _ & Hp & ->).
  apply Forall2_app_inv_l in Hp as (wb & p3 & Hwb & _ & ->).
  exists (wh ++ (a2 ++ p1) ++ wb ++ p3 ++ a4). repeat split.
  - rewrite E1, E2, E3, E4. now rewrite <- !app_assoc.
  - now exists wh, ((a2 ++ p1) ++ wb ++ p3 ++ a4).
  - right. exists (wh ++ a2 ++ p1), wb, (p3 ++ a4). split; auto.
    now rewrite <- !app_assoc.
Qed.

Lemma pattern_reads p st st' :
  In p patterns -> xreads p st st' ->
  exists w, xrest st = w ++ xrest st'
            /\ starts_with_http w /\ names_youtube w.
Proof.
  intros [<- | [<- | [<- | [<- | []]]]];
    [apply youtube_com_reads .. | apply shortLink_reads].
Qed.

Lemma patternLoop_sound text : forall ps url,
  incl ps patterns ->
  patternLoop ps text = Some url ->
  exists cap, url = cleanYouTubeUrl cap /\ substring_of cap text
              /\ starts_with_http cap /\ names_youtube cap.
Proof.
  induction ps as [|p ps IH]; intros url Hin H; [discriminate|].
  cbn [patternLoop] in H.
  destruct (xexec p text 0) as [m|] eqn:Hm.
  - injection H as <-.
    apply xexec_sound in Hm as (st' & tl & Hr & Htl & _ & Hs & _).
    apply (pattern_reads p) in Hr as (w & E & Hh & Hn);
      [|apply Hin; now left].
    cbn [xrest] in E. rewrite Htl in E. apply app_inv_tail in E.
    exists (x_0 m). repeat split; try (rewrite E; assumption).
    apply (skipn_substring (x_index m) text [] (x_0 m) tl). exact Hs.
  - apply IH; [|exact H]. intros x Hx. apply Hin. now right.
Qed.

(** X12. An address that extractYouTubeUrl returns is a part of the
    text that starts with http, names youtube.com or youtu.be (in any
    case of the letters) and does not end with a trailing character; so
    a text that names neither domain gives no address. *)
Theorem extractYouTubeUrl_sound (text url : str) :
  extractYouTubeUrl text = Some url ->
  substring_of url text /\ starts_with_http url /\ names_youtube url
  /\ ends_clean url /\ isYouTubeUrl text = true.
Proof.
  unfold extractYouTubeUrl. destruct text as [|c text]; [discriminate|].
  intros H.
  assert (Hcap : exists cap, url = cleanYouTubeUrl cap
                             /\ substring_of cap (c :: text)
                             /\ starts_with_http cap /\ names_youtube cap).
  { destruct (markdownLoop _ (c :: text) 0) as [x|] eqn:Hmd.
    - injection H as <-. now apply markdownLoop_sound in Hmd.
    - apply patternLoop_sound in H; [exact H | apply incl_refl]. }
  destruct Hcap as (cap & -> & Hs & Hh & Hn).
  destruct (cleaned_address cap (c :: text) Hs Hh Hn) as (A & B & C & D & E).
  repeat split; auto. now apply isYouTubeUrl_names.
Qed.

Lemma extractYouTubeUrl_sound_witness :
  extractYouTubeUrl (u "see [it](https://youtu.be/Ab_9?t=5). more")
  = Some (u "https://youtu.be/Ab_9?t=5")
  /\ substring_of (u "https://youtu.be/Ab_9?t=5")
                  (u "see [it](https://youtu.be/Ab_9?t=5). more").
Proof.
  split; [vm_compute; reflexivity|].
  apply (extractYouTubeUrl_sound
           (u "see [it](https://youtu.be/Ab_9?t=5). more")
           (u "https://youtu.be/Ab_9?t=5")).
  vm_compute. reflexivity.
Defined.

(** ** What the patterns read is found *)

Lemma star_set_from p kont s :
  kont s <> None -> star_set p kont s <> None.
Proof.
  intros H. destruct s as [|c s]; cbn [star_set]; [exact H|].
  destruct (p c); [|exact H].
  destruct (star_set p kont s); [discriminate | exact H].
Qed.

Lemma star_set_complete p kont : forall ds s,
  Forall (fun c => p c = true) ds -> kont s <> None ->
  star_set p kont (ds ++ s) <> None.
Proof.
  induction ds as [|c ds IH]; intros s Hds Hk; [now apply star_set_from|].
  inversion Hds as [|? ? Hc Hds']; subst. cbn [app star_set]. rewrite Hc.
  pose proof (IH s Hds' Hk) as H.
  destruct (star_set p kont (ds ++ s)); [discriminate | now destruct H].
Qed.

(** What a pattern reads depends on the text only. *)
Lemma xreads_transport r : forall st st' x,
  xreads r st st' -> xrest x = xrest st ->
  exists x', xreads r x x' /\ xrest x' = xrest st'.
Proof.
  induction r as [p | p | p | r1 IH1 r2 IH2 | r1 IH1 r2 IH2 | r1 IH1
                 | n r1 IH1 | ];
    intros st st' x H Ex; cbn [xreads] in H |- *.
  - destruct H as (c & H & Hc & _).
    exists {| xrest := xrest st'; xcap := xcap x |}. split; [|reflexivity].
    exists c. rewrite Ex. auto.
  - destruct H as (ds & Hds & H & _).
    exists {| xrest := xrest st'; xcap := xcap x |}. split; [|reflexivity].
    exists ds. rewrite Ex. auto.
  - destruct H as (ds & Hne & Hds & H & _).
    exists {| xrest := xrest st'; xcap := xcap x |}. split; [|reflexivity].
    exists ds. rewrite Ex. auto.
  - destruct H as (mid & H1 & H2).
    destruct (IH1 _ _ x H1 Ex) as (m' & Hm & Em).
    destruct (IH2 _ _ m' H2 Em) as (x' & Hx & Ex').
    exists x'. split; [exists m'; auto | exact Ex'].
  - destruct H as [H | H].
    + destruct (IH1 _ _ x H Ex) as (x' & Hx & Ex'). exists x'. auto.
    + destruct (IH2 _ _ x H Ex) as (x' & Hx & Ex'). exists x'. auto.
  - destruct H as [H | ->].
    + destruct (IH1 _ _ x H Ex) as (x' & Hx & Ex'). exists x'. auto.
    + exists x. auto.
  - destruct H as (st1 & H & E & _).
    destruct (IH1 _ _ x H Ex) as (x1 & Hx & Ex1).
    exists {| xrest := xrest x1;
              xcap := fun k =>
                if k =? n
                then Some (firstn (length (xrest x) - length (xrest x1))
                                  (xrest x))
                else xcap x1 k |}.
    split; [|cbn [xrest]; congruence].
    exists x1. cbn [xrest xcap]. rewrite Nat.eqb_refl. auto.
  - destruct H as [H ->]. exists x. rewrite Ex. auto.
Qed.

(** The matcher finds what the pattern can read, when what follows
    accepts every state with the text that is left. *)
Lemma xmatch_complete r : forall kont st st',
  xreads r st st' ->
  (forall x, xrest x = xrest st' -> kont x <> None) ->
  xmatch r kont st <> None.
Proof.
  induction r as [p | p | p | r1 IH1 r2 IH2 | r1 IH1 r2 IH2 | r1 IH1
                 | n r1 IH1 | ];
    intros kont st st' H Hk; cbn [xreads] in H; cbn [xmatch].
  - destruct H as (c & -> & Hc & _). rewrite Hc. now apply Hk.
  - destruct H as (ds & Hds & -> & _).
    apply star_set_complete; [exact Hds | now apply Hk].
  - destruct H as (ds & Hne & Hds & -> & _).
    destruct ds as [|c ds]; [now destruct Hne|].
    inversion Hds as [|? ? Hc Hds']; subst. cbn [app]. rewrite Hc.
    apply star_set_complete; [exact Hds' | now apply Hk].
  - destruct H as (mid & H1 & H2).
    apply (IH1 _ _ mid H1). intros x Ex.
    destruct (xreads_transport r2 mid st' x H2 Ex) as (x' & Hx & Ex').
    apply (IH2 _ _ x' Hx). intros y Ey. apply Hk. congruence.
  - destruct H as [H | H].
    + pose proof (IH1 kont st st' H Hk) as H1.
      destruct (xmatch r1 kont st); [discriminate | now destruct H1].
    + destruct (xmatch r1 kont st); [discriminate|]. now apply (IH2 _ _ st').
  - destruct H as [H | ->].
    + pose proof (IH1 kont st st' H Hk) as H1.
      destruct (xmatch r1 kont st); [discriminate | now destruct H1].
    + destruct (xmatch r1 kont st); [discriminate|]. now apply Hk.
  - destruct H as (st1 & H & E & _).
    apply (IH1 _ _ st1 H). intros x Ex. apply Hk. cbn [xrest]. congruence.
  - destruct H as [-> ->]. now apply Hk.
Qed.

Lemma patternLoop_finds text : forall ps p before s st',
  In p ps -> text = before ++ s ->
  xreads p {| xrest := s; xcap := fun _ => None |} st' ->
  patternLoop ps text <> None.
Proof.
  induction ps as [|q ps IH]; intros p before s st' Hin E Hr; [destruct Hin|].
  cbn [patternLoop].
  destruct (xexec q text 0) as [m|] eqn:Hm; [discriminate|].
  destruct Hin as [-> | Hin]; [exfalso | now apply (IH p before s st')].
  assert (Hne : xmatch p Some {| xrest := s; xcap := fun _ => None |} <> None).
  { apply (xmatch_complete p Some _ st' Hr). discriminate. }
  destruct (xmatch p Some _) as [st|] eqn:Hst; [|now destruct Hne].
  unfold xexec in Hm. cbn [Nat.ltb Nat.leb skipn] in Hm. rewrite E in Hm.
  destruct (xexec_at_finds p before s 0 st Hst) as [m Hm'].
  congruence.
Qed.

(** X13. Where one of the four patterns of extractYouTubeUrl can read
    an address somewhere in the text, the function returns an address:
    the backtracking search misses no reading of a pattern, and the loop
    over the markdown links ends. *)
Theorem extractYouTubeUrl_finds (text before s : str) (p : rx) (st' : xstate) :
  In p patterns -> text = before ++ s ->
  xreads p {| xrest := s; xcap := fun _ => None |} st' ->
  extractYouTubeUrl text <> None.
Proof.
  intros Hin E Hr. unfold extractYouTubeUrl.
  destruct text as [|c text].
  - exfalso. symmetry in E. apply app_eq_nil in E as [_ ->].
    apply (pattern_reads p) in Hr as (w & Ew & (wh & rest & -> & Hw) & _);
      [|exact Hin].
    apply spells_length in Hw. cbn [xrest] in Ew.
    destruct wh; [discriminate Hw | discriminate Ew].
  - destruct (markdownLoop _ (c :: text) 0); [discriminate|].
    now apply (patternLoop_finds (c :: text) patterns p before s st').
Qed.

Lemma extractYouTubeUrl_finds_witness :
  exists st',
    xreads shortLinkPattern
      {| xrest := u "HTTP://youtu.be/Ab_9, and more"; xcap := fun _ => None |}
      st'
    /\ extractYouTubeUrl (u "see HTTP://youtu.be/Ab_9, and more") <> None.
Proof.
  assert (H : exists st,
             xmatch shortLinkPattern Some
               {| xrest := u "HTTP://youtu.be/Ab_9, and more";
                  xcap := fun _ => None |} = Some st).
  { eexists. vm_compute. reflexivity. }
  destruct H as [st H].
  destruct (xmatch_sound _ _ _ _ H) as (st' & Hr & _).
  exists st'. split; [exact Hr|].
  apply (extractYouTubeUrl_finds
           (u "see HTTP://youtu.be/Ab_9, and more") (u "see ")
           (u "HTTP://youtu.be/Ab_9, and more") shortLinkPattern st').
  - vm_compute. auto.
  - reflexivity.
  - exact Hr.
Defined.

(* ================================================================== *)
(** * findYouTubeUrl *)

Lemma urlOf_some (s : option str) (url : str) :
  urlOf s = Some url ->
  exists text, s = Some text /\ extractYouTubeUrl text = Some url.
Proof.
  unfold urlOf. destruct s as [text|]; [|discriminate].
  destruct (extractYouTubeUrl text) as [[|c x]|] eqn:E; try discriminate.
  intros H. injection H as <-. now exists text.
Qed.

Section GraphFacts.
Variable pull : str -> result (option blockInfo).
Variable q : str -> result (option (list (list (option blockInfo)))).

Lemma parentLoop_found : forall parents url uid,
  parentLoop pull q parents = Ok (Some (url, uid)) ->
  exists l1 l2 info,
    parents = l1 ++ uid :: l2 /\ Forall (no_address pull q) l1
    /\ getBlockInfo pull q uid = Ok (Some info)
    /\ urlOf (info_string info) = Some url.
Proof.
  induction parents as [|p ps IH]; intros url uid H; [discriminate|].
  cbn [parentLoop] in H.
  destruct (getBlockInfo pull q p) as [[info|]|] eqn:Hp; [| |discriminate].
  - destruct (urlOf (info_string info)) as [x|] eqn:Hu.
    + injection H as <- <-. exists [], ps, info. auto.
    + apply IH in H as (l1 & l2 & i & -> & Hl1 & Hg & Hx).
      exists (p :: l1), l2, i. repeat split; auto.
      constructor; [|exact Hl1]. right. now exists info.
  - apply IH in H as (l1 & l2 & i & -> & Hl1 & Hg & Hx).
    exists (p :: l1), l2, i. repeat split; auto.
    constructor; [|exact Hl1]. now left.
Qed.

Lemma parentLoop_none : forall parents,
  parentLoop pull q parents = Ok None -> Forall (no_address pull q) parents.
Proof.
  induction parents as [|p ps IH]; intros H; [constructor|].
  cbn [parentLoop] in H.
  destruct (getBlockInfo pull q p) as [[info|]|] eqn:Hp; [| |discriminate].
  - destruct (urlOf (info_string info)) as [x|] eqn:Hu; [discriminate|].
    constructor; [|now apply IH]. right. now exists info.
  - constructor; [|now apply IH]. now left.
Qed.

End GraphFacts.

(** X14. The block that findYouTubeUrl names is the starting block or
    one of the entities listed as its parents; the address is the one
    extractYouTubeUrl finds in its string; and when it is a parent, the
    starting block holds no address and neither does any parent listed
    after it: the list is searched from its end. *)
Theorem findYouTubeUrl_found
  (pull : str -> result (option blockInfo))
  (q : str -> result (option (list (list (option blockInfo)))))
  (blockUid url uid : str) :
  findYouTubeUrl pull q blockUid = Ok (Some (url, uid)) ->
  (exists info text,
      getBlockInfo pull q uid = Ok (Some info)
      /\ info_string info = Some text
      /\ extractYouTubeUrl text = Some url)
  /\ (uid = blockUid
      \/ exists own before after,
           getBlockInfo pull q blockUid = Ok (Some own)
           /\ urlOf (info_string own) = None
           /\ info_parents own = Some (before ++ uid :: after)
           /\ Forall (no_address pull q) after).
Proof.
  unfold findYouTubeUrl. intros H.
  destruct (getBlockInfo pull q blockUid) as [[own|]|] eqn:Hown;
    try discriminate.
  destruct (urlOf (info_string own)) as [x|] eqn:Hu.
  - injection H as <- <-. apply urlOf_some in Hu as (text & Hs & He).
    split; [now exists own, text | now left].
  - destruct (info_parents own) as [[|p ps]|] eqn:Hp; try discriminate.
    apply parentLoop_found in H as (l1 & l2 & info & E & Hl1 & Hg & Hx).
    apply urlOf_some in Hx as (text & Hs & He).
    split; [now exists info, text|]. right.
    exists own, (rev l2), (rev l1). repeat split; auto.
    + rewrite Hp. f_equal.
      rewrite <- (rev_involutive (p :: ps)), E, rev_app_distr.
      cbn [rev]. now rewrite <- app_assoc.
    + now apply Forall_rev.
Qed.

(** X15. When findYouTubeUrl returns null, the starting block cannot be
    read, or neither it nor any of the entities listed as its parents
    holds an address. *)
Theorem findYouTubeUrl_null
  (pull : str -> result (option blockInfo))
  (q : str -> result (option (list (list (option blockInfo)))))
  (blockUid : str) :
  findYouTubeUrl pull q blockUid = Ok None ->
  getBlockInfo pull q blockUid = Ok None
  \/ exists own,
       getBlockInfo pull q blockUid = Ok (Some own)
       /\ urlOf (info_string own) = None
       /\ forall parents, info_parents own = Some parents ->
                          Forall (no_address pull q) parents.
Proof.
  unfold findYouTubeUrl. intros H.
  destruct (getBlockInfo pull q blockUid) as [[own|]|] eqn:Hown;
    try discriminate; [right | now left].
  exists own. split; [reflexivity|].
  destruct (urlOf (info_string own)) as [x|] eqn:Hu; [discriminate|].
  split; [reflexivity|]. intros parents Hp. rewrite Hp in H.
  destruct parents as [|p ps]; [constructor|].
  apply parentLoop_none in H. apply Forall_rev in H.
  now rewrite rev_involutive in H.
Qed.

Lemma findYouTubeUrl_found_witness :
  findYouTubeUrl pull_at_hand q_at_hand (u "note")
  = Ok (Some (u "https://youtu.be/Ab_9", u "video"))
  /\ exists own before after,
       getBlockInfo pull_at_hand q_at_hand (u "note") = Ok (Some own)
       /\ urlOf (info_string own) = None
       /\ info_parents own = Some (before ++ u "video" :: after)
       /\ Forall (no_address pull_at_hand q_at_hand) after.
Proof.
  split; [vm_compute; reflexivity|].
  destruct (findYouTubeUrl_found pull_at_hand q_at_hand (u "note")
              (u "https://youtu.be/Ab_9") (u "video")) as [_ [H | H]].
  - vm_compute. reflexivity.
  - exfalso. vm_compute in H. discriminate.
  - exact H.
Defined.

Lemma findYouTubeUrl_null_witness :
  findYouTubeUrl pull_at_hand q_at_hand (u "page") = Ok None
  /\ getBlockInfo pull_at_hand q_at_hand (u "page") = Ok None.
Proof.
  split; [vm_compute; reflexivity|].
  destruct (findYouTubeUrl_null pull_at_hand q_at_hand (u "page")) as [H | H].
  - vm_compute. reflexivity.
  - exact H.
  - vm_compute. reflexivity.
Defined.

(* ================================================================== *)
(** * insertTranscript *)

Lemma segmentBlocks_nth containerUid : forall segments k i segment,
  nth_error segments i = Some segment ->
  nth_error (segmentBlocks containerUid k segments) i
  = Some {| location_parent_uid := containerUid;
            location_order := k + i;
            block_uid := None;
            block_string :=
              formatTimestamp (seg_offset segment)
              ++ space :: seg_text segment |}.
Proof.
  induction segments as [|s segments IH]; intros k [|i] segment H;
    try discriminate; cbn [segmentBlocks nth_error] in *.
  - injection H as ->. now rewrite Nat.add_0_r.
  - rewrite (IH (S k) i segment H).
    replace (S k + i) with (k + S i) by lia. reflexivity.
Qed.

Lemma segmentBlocks_length containerUid : forall segments k,
  length (segmentBlocks containerUid k segments) = length segments.
Proof.
  induction segments as [|s segments IH]; intros k; cbn; [|rewrite IH];
    reflexivity.
Qed.

Lemma join_nth (sep : str) : forall lines i l,
  nth_error lines i = Some l ->
  exists before after, join sep lines = before ++ l ++ after.
Proof.
  induction lines as [|x lines IH]; intros [|i] l H; try discriminate;
    cbn [nth_error] in H.
  - injection H as ->. destruct lines as [|y lines].
    + exists [], []. cbn. now rewrite app_nil_r.
    + exists [], (sep ++ join sep (y :: lines)). reflexivity.
  - destruct lines as [|y lines]; [destruct i; discriminate|].
    destruct (IH i l H) as (b & a & E).
    exists (x ++ sep ++ b), a.
    change (join sep (x :: y :: lines)) with (x ++ sep ++ join sep (y :: lines)).
    rewrite E. now rewrite <- !app_assoc.
Qed.

(** The pattern at the start of a delimited literal that a blank
    follows, when the scan starts there. *)
Lemma exec_there before pre L post c tl :
  bold_or_none pre -> grammar L -> bold_or_none post -> is_space c = true ->
  exec ALL_TIMESTAMPS_PATTERN (before ++ pre ++ L ++ post ++ c :: tl)
    (length before)
  = Some {| m_index := length before; m_0 := pre ++ L ++ post;
            m_1 := Some L |}.
Proof.
  intros Hpre HL Hpost Hc. unfold exec.
  replace (length (before ++ pre ++ L ++ post ++ c :: tl) <? length before)
    with false by (symmetry; apply Nat.ltb_ge; rewrite length_app; lia).
  rewrite skipn_app, skipn_all, Nat.sub_diag. cbn [app skipn].
  rewrite (exec_at_here _ _ (length before) _
             (pattern_complete pre L post c tl Hpre HL Hpost Hc)).
  cbn [rest cap]. do 2 f_equal.
  replace (pre ++ L ++ post ++ c :: tl) with ((pre ++ L ++ post) ++ c :: tl)
    by now rewrite <- !app_assoc.
  apply firstn_app_exact.
Qed.

Lemma format_grammar (ms : Z) :
  (0 <= ms < 2 ^ 53)%Z ->
  grammar (formatTimestamp ms)
  /\ parseTimestamp (formatTimestamp ms) = Some (ms / 1000)%Z.
Proof. intros H. destruct (format_parse ms H) as (A & B & _). auto. Qed.

(** X16. In the mode Nested Blocks, insertTranscript creates the
    container under the block of the video and then one block for each
    segment, under the container and at the position of the segment;
    for an offset that is not negative and below 2^53, the timestamp
    pattern matches the string of that block at its start and captures
    the formatted timestamp, which parseTimestamp turns into the whole
    seconds of the offset. *)
Theorem nested_blocks_carry_timestamps
  (containerUid youtubeBlockUid : str) (segments : list TranscriptSegment)
  (i : nat) (segment : TranscriptSegment) :
  nth_error segments i = Some segment ->
  (0 <= seg_offset segment < 2 ^ 53)%Z ->
  let calls :=
    insertTranscript containerUid youtubeBlockUid segments (u "Nested Blocks")
  in
  length calls = S (length segments)
  /\ (exists first, nth_error calls 0 = Some first
        /\ location_parent_uid first = youtubeBlockUid
        /\ block_uid first = Some containerUid)
  /\ exists call,
       nth_error calls (S i) = Some call
       /\ location_parent_uid call = containerUid
       /\ location_order call = i
       /\ exec ALL_TIMESTAMPS_PATTERN (block_string call) 0
          = Some {| m_index := 0;
                    m_0 := formatTimestamp (seg_offset segment);
                    m_1 := Some (formatTimestamp (seg_offset segment)) |}
       /\ parseTimestamp (formatTimestamp (seg_offset segment))
          = Some (seg_offset segment / 1000)%Z.
Proof.
  intros Hi H0 calls. subst calls. unfold insertTranscript.
  rewrite str_eqb_refl. cbn [length nth_error].
  rewrite segmentBlocks_length, (segmentBlocks_nth _ _ 0 i segment Hi).
  destruct (format_grammar _ H0) as [Hg Hp].
  split; [reflexivity|].
  split; [eexists; split; [reflexivity | split; reflexivity]|].
  eexists. split; [reflexivity|]. cbn [location_parent_uid location_order
                                       block_string Nat.add].
  repeat split; [|exact Hp].
  pose proof (exec_there [] [] _ [] space (seg_text segment)
                (or_introl eq_refl) Hg (or_introl eq_refl) eq_refl) as E.
  cbn [app length] in E. now rewrite app_nil_r in E.
Qed.

Lemma single_block_shape containerUid youtubeBlockUid segments :
  insertTranscript containerUid youtubeBlockUid segments
    (u "Single Block (Soft Line Breaks)")
  = [{| location_parent_uid := youtubeBlockUid;
        location_order := 0;
        block_uid := None;
        block_string := join [newline] (map boldLine segments) |}].
Proof. reflexivity. Qed.

Lemma code_block_shape containerUid youtubeBlockUid segments :
  insertTranscript containerUid youtubeBlockUid segments (u "Code Block")
  = [{| location_parent_uid := youtubeBlockUid;
        location_order := 0;
        block_uid := None;
        block_string :=
          u "```plain text" ++ newline
          :: join [newline; newline] (map codeLine segments)
          ++ newline :: u "```" |}].
Proof. reflexivity. Qed.

(** X17. In the mode Single Block, insertTranscript creates one block
    under the block of the video, whose string holds the line of each
    segment; for an offset that is not negative and below 2^53, a scan
    of the timestamp pattern that starts at the line matches there, the
    delimiters included, and captures the formatted timestamp. *)
Theorem single_block_lines_carry_timestamps
  (containerUid youtubeBlockUid : str) (segments : list TranscriptSegment)
  (i : nat) (segment : TranscriptSegment) :
  nth_error segments i = Some segment ->
  (0 <= seg_offset segment < 2 ^ 53)%Z ->
  exists before after content,
    insertTranscript containerUid youtubeBlockUid segments
      (u "Single Block (Soft Line Breaks)")
    = [{| location_parent_uid := youtubeBlockUid;
          location_order := 0;
          block_uid := None;
          block_string := content |}]
    /\ content
       = before ++ [star; star] ++ formatTimestamp (seg_offset segment)
         ++ [star; star] ++ space :: seg_text segment ++ after
    /\ exec ALL_TIMESTAMPS_PATTERN content (length before)
       = Some {| m_index := length before;
                 m_0 := [star; star] ++ formatTimestamp (seg_offset segment)
                        ++ [star; star];
                 m_1 := Some (formatTimestamp (seg_offset segment)) |}.
Proof.
  intros Hi H0. destruct (format_grammar _ H0) as [Hg _].
  destruct (join_nth [newline] (map boldLine segments) i (boldLine segment))
    as (before & after & E); [now apply map_nth_error|].
  exists before, after, (join [newline] (map boldLine segments)).
  split; [apply single_block_shape|].
  assert (Ec : join [newline] (map boldLine segments)
               = before ++ [star; star] ++ formatTimestamp (seg_offset segment)
                 ++ [star; star] ++ space :: seg_text segment ++ after).
  { rewrite E. unfold boldLine.
    change (u "**") with [star; star].
    change (u "** ") with ([star; star] ++ [space]).
    now rewrite <- !app_assoc. }
  split; [exact Ec|]. rewrite Ec.
  apply exec_there; auto; now right.
Qed.

Lemma grammar_stamp L : grammar L -> forallb is_stamp_char L = true.
Proof.
  assert (D : forall s, all_digits s -> forallb is_stamp_char s = true).
  { intros s H. apply forallb_forall. intros c Hc.
    unfold is_stamp_char. rewrite (proj1 (Forall_forall _ _) H c Hc).
    reflexivity. }
  assert (C : is_stamp_char colon = true) by reflexivity.
  intros [m s [_ Hm] [_ Hs] | h m s [_ Hh] [_ Hm] [_ Hs]];
    repeat (rewrite forallb_app || cbn [forallb]);
    rewrite ?C, ?D by assumption; reflexivity.
Qed.

Lemma space_not_stamp c : is_space c = true -> is_stamp_char c = false.
Proof.
  intros H. unfold is_stamp_char.
  now rewrite (space_not_digit c H), (space_not_colon c H),
    (space_not_star c H).
Qed.

(** A run of characters of the pattern before a blank is not a run of
    characters that are no blanks before a character that is neither a
    blank nor of the pattern. *)
Lemma first_blank : forall (b : str) y r' (a : str) x r,
  b ++ y :: r' = a ++ x :: r ->
  forallb is_stamp_char b = true -> is_space y = true ->
  Forall (fun c => is_space c = false) a ->
  is_space x = false -> is_stamp_char x = false ->
  False.
Proof.
  induction b as [|d b IH]; intros y r' [|c a] x r E Hb Hy Ha Hx Hx';
    cbn [app forallb] in *; injection E as E1 E2; subst.
  - congruence.
  - inversion Ha as [|? ? Hc _]; subst. congruence.
  - apply andb_true_iff in Hb as [Hd _]. congruence.
  - apply andb_true_iff in Hb as [_ Hb]. inversion Ha as [|? ? _ Ha']; subst.
    exact (IH y r' a x r E2 Hb Hy Ha' Hx Hx').
Qed.

Lemma Forall_skipn {A} (P : A -> Prop) (l : list A) (k : nat) :
  Forall P l -> Forall P (skipn k l).
Proof.
  intros H. rewrite <- (firstn_skipn k l) in H.
  now apply Forall_app in H as [_ H].
Qed.

(** No match of the timestamp pattern starts at a bracket or inside a
    string without a blank that a closing bracket follows. *)
Lemma no_match_in_brackets (before L rest_ : str) (lastIndex : nat) m :
  Forall (fun c => is_space c = false) L ->
  exec ALL_TIMESTAMPS_PATTERN (before ++ 91%N :: L ++ 93%N :: rest_) lastIndex
  = Some m ->
  m_index m < length before \/ length before + S (length L) < m_index m.
Proof.
  intros HL H.
  destruct (Nat.lt_ge_cases (m_index m) (length before)) as [|Hge]; [now left|].
  destruct (Nat.lt_ge_cases (length before + S (length L)) (m_index m))
    as [|Hle]; [now right|]. exfalso.
  apply exec_sound in H
    as (pre & M & post & c & tl & Hpre & HM & Hpost & Hc & _ & H0 & Hs & _).
  rewrite H0 in Hs.
  replace (m_index m) with ((m_index m - length before) + length before)
    in Hs by lia.
  rewrite <- skipn_skipn, skipn_app, skipn_all, Nat.sub_diag in Hs.
  cbn [app skipn] in Hs.
  assert (Hrun : forallb is_stamp_char (pre ++ M ++ post) = true).
  { rewrite !forallb_app, (grammar_stamp M HM).
    destruct Hpre as [-> | ->], Hpost as [-> | ->]; reflexivity. }
  destruct (m_index m - length before) as [|j] eqn:Hj.
  - cbn [skipn] in Hs.
    destruct (grammar_head M HM) as (d & t & -> & Hd).
    destruct Hpre as [-> | ->]; cbn [app] in Hs; injection Hs as E _.
    + subst d. discriminate Hd.
    + discriminate E.
  - cbn [skipn] in Hs. rewrite skipn_app in Hs.
    replace (j - length L) with 0 in Hs by lia. cbn [skipn] in Hs.
    symmetry in Hs.
    apply (first_blank (pre ++ M ++ post) c tl (skipn j L) 93%N rest_ Hs
             Hrun Hc); [now apply Forall_skipn | reflexivity | reflexivity].
Qed.

(** ** The characters of a formatted timestamp *)

Lemma digits_no_space n :
  (0 <= n)%Z -> Forall (fun c => is_space c = false) (digits n).
Proof.
  intros H. destruct (digits_spec n H) as (Ha & _).
  apply (Forall_impl _ digit_not_space Ha).
Qed.

Lemma zeros_no_space k :
  Forall (fun c => is_space c = false) (repeat zero_char k).
Proof.
  apply Forall_forall. intros c Hc. apply repeat_spec in Hc. now subst.
Qed.

Lemma candidate_nonneg x nd k s :
  (0 <= x)%Z -> candidate x nd k = Some s -> (0 <= s)%Z.
Proof.
  intros Hx. unfold candidate.
  assert (Hq : (0 <= x / 10 ^ (nd - k))%Z).
  { destruct (Z.eq_dec (10 ^ (nd - k)) 0) as [E|E].
    - rewrite E, Z.div_0_r. lia.
    - apply Z.div_pos; [exact Hx|].
      pose proof (Z.pow_nonneg 10 (nd - k)). lia. }
  destruct (_ =? x)%Z, (_ && _);
    repeat match goal with
           | |- context [if ?b then _ else _] => destruct b
           end;
    intros E; inversion E; lia.
Qed.

Lemma shortest_from_nonneg : forall fuel x nd k s k',
  (0 <= x)%Z -> shortest_from fuel x nd k = (s, k') -> (0 <= s)%Z.
Proof.
  induction fuel as [|fuel IH]; intros x nd k s k' Hx H;
    cbn [shortest_from] in H.
  - injection H as <- _. exact Hx.
  - destruct (candidate x nd k) as [c|] eqn:Hc.
    + injection H as <- _. now apply (candidate_nonneg x nd k).
    + now apply (IH x nd (k + 1)%Z s k').
Qed.

Lemma shortest_nonneg x s k n :
  (0 <= x)%Z -> shortest x = (s, k, n) -> (0 <= s)%Z /\ (0 <= n)%Z.
Proof.
  intros Hx. unfold shortest.
  destruct (_ =? x)%Z.
  - intros E. injection E as <- _ <-. lia.
  - destruct (shortest_from 17 x _ 1) as [s' k'] eqn:Hs.
    intros E. inversion E; subst.
    split; [exact (shortest_from_nonneg 17 x _ 1 _ _ Hx Hs) | lia].
Qed.

Lemma String_nonneg_no_space n :
  (0 <= n)%Z -> Forall (fun c => is_space c = false) (String_nonneg n).
Proof.
  intros Hn. unfold String_nonneg.
  destruct (n <? 2 ^ 53)%Z; [now apply digits_no_space|].
  destruct (shortest n) as [[s k] nn] eqn:Hs.
  destruct (shortest_nonneg n s k nn Hn Hs) as [Hs0 Hn0].
  pose proof (digits_no_space s Hs0) as Hd.
  destruct (nn <=? 21)%Z eqn:Hle.
  - apply Forall_app. split; [exact Hd | apply zeros_no_space].
  - apply Z.leb_gt in Hle. destruct (digits s) as [|d ds]; [constructor|].
    inversion Hd as [|? ? Hd1 Hds]; subst. constructor; [exact Hd1|].
    apply Forall_app. split.
    + destruct ds; [constructor|]. constructor; [reflexivity | exact Hds].
    + constructor; [reflexivity|]. constructor; [reflexivity|].
      apply digits_no_space. lia.
Qed.

Lemma String_no_space n : Forall (fun c => is_space c = false) (String_ n).
Proof.
  unfold String_. destruct (n <? 0)%Z eqn:E.
  - apply Z.ltb_lt in E. constructor; [reflexivity|].
    apply String_nonneg_no_space. lia.
  - apply Z.ltb_ge in E. now apply String_nonneg_no_space.
Qed.

Lemma pad_no_space n : Forall (fun c => is_space c = false) (pad n).
Proof.
  unfold pad, padStart2. apply Forall_app.
  split; [apply zeros_no_space | apply String_no_space].
Qed.

(** Whatever the offset, the formatted timestamp holds no blank. *)
Lemma format_no_space ms :
  Forall (fun c => is_space c = false) (formatTimestamp ms).
Proof.
  assert (C : forall a b, Forall (fun c => is_space c = false) b ->
              Forall (fun c => is_space c = false) (pad a ++ colon :: b)).
  { intros a b Hb. apply Forall_app. split; [apply pad_no_space|].
    constructor; [reflexivity | exact Hb]. }
  unfold formatTimestamp.
  destruct (0 <? _)%Z; repeat apply C; apply pad_no_space.
Qed.

(** X18. In the mode Code Block, insertTranscript creates one block
    under the block of the video, whose string holds the line of each
    segment; for an offset that is not negative, no match of the
    timestamp pattern starts at the bracket that opens the line or
    inside its timestamp. *)
Theorem code_block_lines_carry_no_timestamp
  (containerUid youtubeBlockUid : str) (segments : list TranscriptSegment)
  (i : nat) (segment : TranscriptSegment) :
  nth_error segments i = Some segment -> (0 <= seg_offset segment)%Z ->
  exists before after content,
    insertTranscript containerUid youtubeBlockUid segments (u "Code Block")
    = [{| location_parent_uid := youtubeBlockUid;
          location_order := 0;
          block_uid := None;
          block_string := content |}]
    /\ content
       = before ++ 91%N :: formatTimestamp (seg_offset segment)
         ++ 93%N :: space :: seg_text segment ++ after
    /\ forall lastIndex m,
         exec ALL_TIMESTAMPS_PATTERN content lastIndex = Some m ->
         m_index m < length before
         \/ length before + S (length (formatTimestamp (seg_offset segment)))
            < m_index m.
Proof.
  intros Hi _. pose proof (format_no_space (seg_offset segment)) as Hg.
  destruct (join_nth [newline; newline] (map codeLine segments) i
              (codeLine segment))
    as (before & after & E); [now apply map_nth_error|].
  eexists (u "```plain text" ++ newline :: before),
    (after ++ newline :: u "```"), _.
  split; [apply code_block_shape|].
  assert (Ec : u "```plain text" ++ newline
               :: join [newline; newline] (map codeLine segments)
               ++ newline :: u "```"
               = (u "```plain text" ++ newline :: before)
                 ++ 91%N :: formatTimestamp (seg_offset segment)
                 ++ 93%N :: space :: seg_text segment
                 ++ after ++ newline :: u "```").
  { rewrite E. unfold codeLine.
    change (u "[") with [91%N]. change (u "] ") with [93%N; space].
    rewrite <- ?app_assoc. cbn [app]. rewrite <- ?app_assoc. cbn [app].
    reflexivity. }
  split; [exact Ec|]. rewrite Ec. intros lastIndex m H.
  exact (no_match_in_brackets _ _ _ lastIndex m Hg H).
Qed.

Lemma nested_blocks_carry_timestamps_witness :
  exists call,
    nth_error
      (insertTranscript (u "Ab3_x-9Zq") (u "video") [segment_at_hand]
         (u "Nested Blocks")) 1
    = Some call
    /\ exec ALL_TIMESTAMPS_PATTERN (block_string call) 0
       = Some {| m_index := 0; m_0 := u "01:05"; m_1 := Some (u "01:05") |}.
Proof.
  destruct (nested_blocks_carry_timestamps (u "Ab3_x-9Zq") (u "video")
              [segment_at_hand] 0 segment_at_hand)
    as (_ & _ & call & H1 & _ & _ & H2 & _).
  - reflexivity.
  - vm_compute. split; [discriminate | reflexivity].
  - exists call. split; [exact H1 | exact H2].
Defined.

Lemma single_block_lines_carry_timestamps_witness :
  exists before after content,
    insertTranscript (u "Ab3_x-9Zq") (u "video") [segment_at_hand]
      (u "Single Block (Soft Line Breaks)")
    = [{| location_parent_uid := u "video";
          location_order := 0;
          block_uid := None;
          block_string := content |}]
    /\ content
       = before ++ [star; star] ++ u "01:05" ++ [star; star]
         ++ space :: u "hello" ++ after.
Proof.
  destruct (single_block_lines_carry_timestamps (u "Ab3_x-9Zq") (u "video")
              [segment_at_hand] 0 segment_at_hand)
    as (before & after & content & H1 & H2 & _).
  - reflexivity.
  - vm_compute. split; [discriminate | reflexivity].
  - exists before, after, content. split; [exact H1 | exact H2].
Defined.

Lemma code_block_lines_carry_no_timestamp_witness :
  exists before after content,
    insertTranscript (u "Ab3_x-9Zq") (u "video") [segment_at_hand]
      (u "Code Block")
    = [{| location_parent_uid := u "video";
          location_order := 0;
          block_uid := None;
          block_string := content |}]
    /\ content
       = before ++ 91%N :: u "01:05" ++ 93%N :: space :: u "hello" ++ after.
Proof.
  destruct (code_block_lines_carry_no_timestamp (u "Ab3_x-9Zq") (u "video")
              [segment_at_hand] 0 segment_at_hand)
    as (before & after & content & H1 & H2 & _).
  - reflexivity.
  - vm_compute. discriminate.
  - exists before, after, content. split; [exact H1 | exact H2].
Defined.

(* ================================================================== *)
(** * seekYouTubeVideo and the click on a marker *)







(** The selectors that do not look at the parent. *)
Lemma player_parent_free p1 p2 a :
  matches player_selector p1 a = matches player_selector p2 a.
Proof. reflexivity. Qed.

Lemma marker_parent_free p1 p2 a :
  matches marker_selector p1 a = matches marker_selector p2 a.
Proof. reflexivity. Qed.

Lemma container_parent_free p1 p2 a :
  matches container_selector p1 a = matches container_selector p2 a.
Proof. reflexivity. Qed.

Section BrowserFacts.
Variable resolve : str -> str.

(** What the call leaves of the element: the element itself when the
    address read holds the flag, and else the element with the address
    read, a separator and the flag as the text of its src attribute. *)
Lemma seek_element iframe seconds :
  (includes (src_of resolve iframe) enablejsapi = true
   /\ fst (seekYouTubeVideo resolve iframe seconds) = iframe)
  \/ (includes (src_of resolve iframe) enablejsapi = false
      /\ exists separator,
           (separator = [question] \/ separator = [ampersand])
           /\ fst (seekYouTubeVideo resolve iframe seconds)
              = set_src iframe
                  (src_of resolve iframe ++ separator ++ enablejsapi)).
Proof.
  unfold seekYouTubeVideo. cbn [fst].
  destruct (includes (src_of resolve iframe) enablejsapi); [now left|].
  right. split; [reflexivity|].
  destruct (includes (src_of resolve iframe) [question]); eauto.
Qed.

Lemma seek_frame iframe seconds :
  tag (fst (seekYouTubeVideo resolve iframe seconds)) = tag iframe
  /\ classes (fst (seekYouTubeVideo resolve iframe seconds)) = classes iframe
  /\ ident (fst (seekYouTubeVideo resolve iframe seconds)) = ident iframe
  /\ title (fst (seekYouTubeVideo resolve iframe seconds)) = title iframe
  /\ onclick (fst (seekYouTubeVideo resolve iframe seconds)) = onclick iframe.
Proof.
  destruct (seek_element iframe seconds) as [[_ ->] | (_ & sep & _ & ->)];
    repeat split.
Qed.



End BrowserFacts.



(** The player that findYouTubePlayer gives is an element of the
    document that the selector of the players matches. *)
Lemma findYouTubePlayer_element d blockElement iframe :
  findYouTubePlayer d blockElement = Some iframe ->
  exists a cs, lookup d iframe = Some (Elem a cs)
               /\ matches player_selector None a = true.
Proof.
  intros H.
  apply (select_lookup player_selector player_parent_free iframe d None).
  unfold findYouTubePlayer in H.
  destruct (searchUp _ d blockElement) as [x| |] eqn:Hs.
  - injection H as <-. now apply searchUp_found in Hs.
  - fold (querySelectorAll player_selector d).
    destruct (querySelectorAll player_selector d) as [|x l];
      [discriminate|]. injection H as <-. now left.
  - fold (querySelectorAll player_selector d).
    destruct (querySelectorAll player_selector d) as [|x l];
      [discriminate|]. injection H as <-. now left.
Qed.

Lemma count_retag s (Hs : forall p1 p2 a, matches s p1 a = matches s p2 a)
  d p a a' cs :
  lookup d p = Some (Elem a cs) ->
  matches s None a' = matches s None a ->
  count s (splice d p (fun _ => [Elem a' cs])) = count s d.
Proof.
  intros Hl Hm. rewrite !(count_forest s Hs).
  pose proof (cnt_splice s Hs (fun _ => [Elem a' cs]) p d _ Hl) as E.
  cbv beta in E.
  rewrite cnt_forest_cons, !(cnt_node_elem s Hs), Hm in E.
  change (cnt_forest s []) with 0 in E. lia.
Qed.

Lemma count_retag_le s (Hs : forall p1 p2 a, matches s p1 a = matches s p2 a)
  d p a a' cs :
  lookup d p = Some (Elem a cs) ->
  matches s None a = true ->
  count s (splice d p (fun _ => [Elem a' cs])) <= count s d.
Proof.
  intros Hl Hm. rewrite !(count_forest s Hs).
  pose proof (cnt_splice s Hs (fun _ => [Elem a' cs]) p d _ Hl) as E.
  cbv beta in E.
  rewrite cnt_forest_cons, !(cnt_node_elem s Hs), Hm in E.
  change (cnt_forest s []) with 0 in E.
  destruct (matches s None a'); lia.
Qed.

(** X20. A click on a marker posts the two commands when
    findYouTubePlayer gives a player, and none otherwise; it changes
    neither the text of the document nor the number of its markers and
    of its block containers, and it adds no player. *)
Theorem click_keeps_the_page
  (resolve : str -> str) (d : dom) (container : path) (seconds : option Z) :
  let d' := fst (click resolve d container seconds) in
  document_text d' = document_text d
  /\ count marker_selector d' = count marker_selector d
  /\ count container_selector d' = count container_selector d
  /\ count player_selector d' <= count player_selector d
  /\ snd (click resolve d container seconds)
     = match findYouTubePlayer d container with
       | Some _ => [seekTo seconds; playVideo]
       | None => []
       end.
Proof.
  intros d'. subst d'. unfold click.
  destruct (findYouTubePlayer d container) as [iframe|] eqn:Hf;
    [|cbn [fst snd]; auto].
  destruct (findYouTubePlayer_element d container iframe Hf)
    as (a & cs & Hl & Hm).
  rewrite Hl. cbn [fst snd].
  destruct (seek_frame resolve a seconds) as (Ht & Hc & Hi & _).
  repeat split.
  - apply (text_splice _ iframe d (Elem a cs) Hl).
    cbn [document_text flat_map textContent]. now rewrite app_nil_r.
  - apply (count_retag _ marker_parent_free d iframe a _ cs Hl).
    cbn [marker_selector matches]. unfold has_class. now rewrite Hc.
  - apply (count_retag _ container_parent_free d iframe a _ cs Hl).
    cbn [container_selector matches]. unfold has_class. now rewrite Hc.
  - now apply (count_retag_le _ player_parent_free d iframe a _ cs Hl).
Qed.

(* ================================================================== *)
(** * onunload *)

Lemma loading_parent_free p1 p2 a :
  matches (SelId loading_id) p1 a = matches (SelId loading_id) p2 a.
Proof. reflexivity. Qed.

(** Removing the first element with an id adds no element of any
    kind, and leaves none with that id when there was one at most. *)
Lemma remove_first_le s (Hs : forall p1 p2 a, matches s p1 a = matches s p2 a)
  i d :
  count s (match getElementById i d with
           | Some e => splice d e (fun _ => [])
           | None => d
           end) <= count s d.
Proof.
  destruct (getElementById i d) as [e|]; [|reflexivity].
  rewrite !(count_forest s Hs). now apply cnt_splice_le.
Qed.

Lemma remove_first_none i d :
  count (SelId i) d <= 1 ->
  count (SelId i) (match getElementById i d with
                   | Some e => splice d e (fun _ => [])
                   | None => d
                   end) = 0.
Proof.
  assert (Hs : forall p1 p2 a, matches (SelId i) p1 a = matches (SelId i) p2 a)
    by reflexivity.
  intros H. unfold getElementById.
  destruct (hd_error (querySelectorAll (SelId i) d)) as [p|] eqn:Hp.
  - pose proof (cnt_remove_first (SelId i) Hs d p Hp) as Hlt.
    rewrite !(count_forest _ Hs) in *. lia.
  - unfold count. destruct (querySelectorAll (SelId i) d); [reflexivity|].
    discriminate.
Qed.

Lemma cleanup_le s (Hs : forall p1 p2 a, matches s p1 a = matches s p2 a) w :
  count s (document (cleanupTimestampObserver w)) <= count s (document w).
Proof.
  rewrite cleanup_document.
  pose proof (remove_first_le s Hs styles_id (document w)) as H1.
  fold (without_style (document w)) in H1.
  rewrite !(count_forest s Hs) in *.
  pose proof (cnt_unwrapped_forest s Hs (without_style (document w))). lia.
Qed.

(** X21. After onunload no marker is left and no observer is
    remembered; no style element and no loading indicator is left when
    the document held one at most of each; the pending timeouts are
    still pending. *)
Theorem onunload_clears (w : world) :
  count marker_selector (document (onunload w)) = 0
  /\ YTSObserver (onunload w) = None
  /\ timers (onunload w) = timers w
  /\ (count styles (document w) <= 1 ->
      count styles (document (onunload w)) = 0)
  /\ (count (SelId loading_id) (document w) <= 1 ->
      count (SelId loading_id) (document (onunload w)) = 0).
Proof.
  unfold onunload. cbn [document YTSObserver timers].
  set (d := document (cleanupTimestampObserver w)).
  assert (Hm : count marker_selector d = 0).
  { subst d. rewrite cleanup_document. unfold count.
    now rewrite no_marker_left. }
  repeat split.
  - pose proof (remove_first_le marker_selector
                  (fun _ _ _ => eq_refl) loading_id d). lia.
  - intros H. apply cleanup_styles in H. fold d in H.
    pose proof (remove_first_le styles styles_parent_free loading_id d). lia.
  - intros H. apply remove_first_none. subst d.
    pose proof (cleanup_le (SelId loading_id) loading_parent_free w). lia.
Qed.

(* ================================================================== *)
(** * The click: what findYouTubePlayer sees afterwards *)
























